(** * ackee-tracker: the visit-tracking beacon of [src/scripts/main.js]

    A shallow embedding of the tracker and the proofs of its specified
    properties.  The file follows the source top-down: JavaScript values
    and exceptions, the pure helpers ([validate], [isLocalhost], [isBot],
    [isFakeRecordId], [attributes], the request bodies, [endpoint]), the
    transport ([send] and its [onload] handler), and the instance built by
    [create] with its two entry points [_record] and [_updateRecord],
    run by an event loop with timers and requests in flight.  Strings are
    sequences of 8-bit code units. *)

From Stdlib Require Import ZArith NArith String Ascii List Bool Lia.
From Corelib Require Import PrimFloat.
From stdpp Require Import base list strings.
Import ListNotations.

Set Warnings "-register-all".
Set Default Proof Using "Type".

(** ** JavaScript values

    The values the tracker handles are JSON-shaped: what [JSON.parse]
    returns, what callers pass as options, attributes and record ids.
    A number is an IEEE-754 double; an object is the list of its own
    properties, first binding of a key wins. *)

Inductive value : Type :=
| VUndefined
| VNull
| VBool (b : bool)
| VNum (x : float)
| VStr (s : string)
| VArr (items : list value)
| VObj (props : list (string * value)).

(** What a [throw] carries: a [TypeError] raised by the engine, or
    [new Error(arg)] built by the program (or by a caller's callback). *)
Inductive exn : Type :=
| TypeError
| JsError (arg : value).

(** A computation that returns or throws. *)
Inductive outcome (A : Type) : Type :=
| Ret (a : A)
| Throw (e : exn).
Arguments Ret {A} a.
Arguments Throw {A} e.

Definition obind {A B} (m : outcome A) (k : A -> outcome B) : outcome B :=
  match m with
  | Ret a => k a
  | Throw e => Throw e
  end.

Declare Scope js_scope.
Delimit Scope js_scope with js.
Notation "'let?' x ':=' m 'in' k" := (obind m (fun x => k))
  (at level 10, x name, m at level 100, k at level 200) : js_scope.

Module Js.

(** Own-property lookup in an object literal. *)
Fixpoint lookup (key : string) (props : list (string * value)) : value :=
  match props with
  | [] => VUndefined
  | (k, v) :: rest => if String.eqb k key then v else lookup key rest
  end.

(** [v.name] for a property name that no built-in prototype defines
    (all the names the tracker reads are of that kind: [detailed],
    [ignoreLocalhost], [errors], [message], [data], [createRecord],
    [payload], [id]).  Reading a property of [undefined] or [null]
    throws; primitives, strings and arrays have no such property. *)
Definition get (v : value) (name : string) : outcome value :=
  match v with
  | VUndefined | VNull => Throw TypeError
  | VObj props => Ret (lookup name props)
  | _ => Ret VUndefined
  end.

(** [v[0]]: the first element of an array, the first code unit of a
    string, the property ["0"] of an object. *)
Definition get0 (v : value) : outcome value :=
  match v with
  | VUndefined | VNull => Throw TypeError
  | VArr [] => Ret VUndefined
  | VArr (x :: _) => Ret x
  | VStr EmptyString => Ret VUndefined
  | VStr (String c _) => Ret (VStr (String c EmptyString))
  | VObj props => Ret (lookup "0" props)
  | _ => Ret VUndefined
  end.

(** [v != null]: neither [null] nor [undefined]. *)
Definition not_nullish (v : value) : bool :=
  match v with
  | VUndefined | VNull => false
  | _ => true
  end.

(** [v === b] for a boolean literal [b]. *)
Definition is_bool (b : bool) (v : value) : bool :=
  match v with
  | VBool b' => Bool.eqb b' b
  | _ => false
  end.

(** [v === s] for a string literal [s]. *)
Definition is_string (s : string) (v : value) : bool :=
  match v with
  | VStr s' => String.eqb s' s
  | _ => false
  end.

(** [s.substr(start)]: a negative [start] counts from the end. *)
Definition substr (s : string) (start : Z) : string :=
  let len := Z.of_nat (String.length s) in
  let from := if (start <? 0)%Z then Z.max (len + start) 0 else Z.min start len in
  String.substring (Z.to_nat from) (Z.to_nat (len - from)) s.

(** [s.substr(0, n)]. *)
Definition substr0 (s : string) (n : nat) : string :=
  String.substring 0 (Nat.min n (String.length s)) s.

End Js.

(** ** Case-insensitive regular expressions of literal alternatives

    [/p1|p2|.../i.test(s)] without the [u] flag: the matcher tries every
    start position and, there, every alternative from left to right; two
    code units match when their canonical forms (upper case) agree.
    A code unit of 128 and above never canonicalises to one below 128, so
    against ASCII patterns only ASCII letters fold. *)

Module Regex.

Definition canonicalize (c : ascii) : ascii :=
  let n := N_of_ascii c in
  if (97 <=? n)%N && (n <=? 122)%N then ascii_of_N (n - 32) else c.

Fixpoint literal_at (pat s : string) : bool :=
  match pat, s with
  | EmptyString, _ => true
  | String _ _, EmptyString => false
  | String p pat', String c s' =>
      Ascii.eqb (canonicalize p) (canonicalize c) && literal_at pat' s'
  end.

Definition alternatives_at (alts : list string) (s : string) : bool :=
  existsb (fun pat => literal_at pat s) alts.

Fixpoint test (alts : list string) (s : string) : bool :=
  alternatives_at alts s ||
  match s with
  | EmptyString => false
  | String _ s' => test alts s'
  end.

End Regex.

(** ** The pure helpers of the tracker *)

Record options : Type := {
  detailed : bool;
  ignoreLocalhost : bool
}.

(** [validate(opts = {})]: the default parameter replaces [undefined]
    only; the result is a fresh object. *)
Definition validate (opts : value) : outcome options :=
  let opts := match opts with VUndefined => VObj [] | _ => opts end in
  (let? d := Js.get opts "detailed" in
   let? i := Js.get opts "ignoreLocalhost" in
   Ret {| detailed := Js.is_bool true d;
          ignoreLocalhost := negb (Js.is_bool false i) |})%js.

Definition isLocalhost (hostname : string) : bool :=
  String.eqb hostname "" || String.eqb hostname "localhost"
  || String.eqb hostname "127.0.0.1" || String.eqb hostname "::1".

Definition bot_patterns : list string := ["bot"; "crawler"; "spider"; "crawling"].

Definition isBot (userAgent : string) : bool :=
  Regex.test bot_patterns userAgent.

Definition fake_record_id : string := "88888888-8888-8888-8888-888888888888".

Definition isFakeRecordId (recordId : value) : bool :=
  Js.is_string fake_record_id recordId.

(** What the page's globals evaluate to when the tracker reads them:
    [location], [document], [navigator], [screen], [window] and the
    [platform] module. *)
Record browser : Type := {
  hostname : string;            (* location.hostname *)
  userAgent : string;           (* navigator.userAgent *)
  href : string;                (* window.location.href *)
  referrer : string;            (* document.referrer *)
  language : string;            (* navigator.language || navigator.userLanguage *)
  screenWidth : value;
  screenHeight : value;
  screenColorDepth : value;
  platformProduct : value;
  platformManufacturer : value;
  platformOsFamily : value;
  platformOsVersion : value;
  platformName : value;
  platformVersion : value;
  outerWidth : value;
  outerHeight : value
}.

Definition attributes (detailed : bool) (env : browser) : value :=
  let defaultData :=
    [ ("siteLocation", VStr (href env));
      ("siteReferrer", VStr (referrer env)) ] in
  let detailedData :=
    [ ("siteLanguage", VStr (Js.substr0 (language env) 2));
      ("screenWidth", screenWidth env);
      ("screenHeight", screenHeight env);
      ("screenColorDepth", screenColorDepth env);
      ("deviceName", platformProduct env);
      ("deviceManufacturer", platformManufacturer env);
      ("osName", platformOsFamily env);
      ("osVersion", platformOsVersion env);
      ("browserName", platformName env);
      ("browserVersion", platformVersion env);
      ("browserWidth", outerWidth env);
      ("browserHeight", outerHeight env) ] in
  VObj (defaultData ++ (if detailed then detailedData else [])).

Definition createRecord_query : string := "
		mutation createRecord($domainId: ID!, $input: CreateRecordInput!) {
			createRecord(domainId: $domainId, input: $input) {
				payload {
					id
				}
			}
		}
	".

Definition createRecordBody (domainId attrs : value) : value :=
  let variables := VObj [ ("domainId", domainId); ("input", attrs) ] in
  VObj [ ("query", VStr createRecord_query); ("variables", variables) ].

Definition updateRecord_query : string := "
		mutation updateRecord($id: ID!) {
			updateRecord(id: $id) {
				success
			}
		}
	".

Definition updateRecordBody (recordId : value) : value :=
  let variables := VObj [ ("id", recordId) ] in
  VObj [ ("query", VStr updateRecord_query); ("variables", variables) ].

Definition endpoint (server : string) : string :=
  let hasTrailingSlash := String.eqb (Js.substr server (-1)) "/" in
  server +:+ (if hasTrailingSlash then "" else "/") +:+ "api".

(** ** Callbacks, sessions, timers and requests

    The [callbacks] argument is an object; leaving it out gives the
    object without entries.  A caller's callback is opaque to the
    tracker: what matters to the tracker's control flow is whether the
    call returns or throws.
    [callbacks.onCreate || (() => {})] turns a missing (falsy) entry into
    the empty function; a truthy entry that is not callable behaves as a
    callback that throws [TypeError]. *)

Inductive cb_outcome : Type :=
| Returns
| Throws (e : exn).

Inductive callback : Type :=
| NoCallback
| Callback (body : value -> cb_outcome).

Record callbacks : Type := {
  onCreate : callback;
  onUpdate : callback
}.

(** The variables one call of [_record] or [_updateRecord] closes over.
    A handle [{ stop }] is the index of its session.  [started_at] is
    ghost state: the clock when the session called [setInterval]. *)
Record session : Type := {
  s_onCreate : callback;
  s_onUpdate : callback;
  isStopped : bool;
  started_at : option N
}.

(** The closures of the source, one constructor per function literal.
    [RecordCallback sid] is the [(recordId) => { ... }] passed to [record]
    by [_record]; [UpdateCallback sid recordId] is
    [() => { onUpdate(recordId) }]; [RecordNext next] is the
    [(json) => { next(json.data.createRecord.payload.id) }] of [record];
    [UpdateNext recordId next] is the [() => { next(recordId) }] of
    [updateRecord]. *)
Inductive id_kont : Type :=
| RecordCallback (sid : nat)
| UpdateCallback (sid : nat) (recordId : value).

Inductive json_kont : Type :=
| RecordNext (next : id_kont)
| UpdateNext (recordId : value) (next : id_kont).

Definition id_kont_sid (k : id_kont) : nat :=
  match k with
  | RecordCallback sid => sid
  | UpdateCallback sid _ => sid
  end.

Definition json_kont_sid (k : json_kont) : nat :=
  match k with
  | RecordNext next => id_kont_sid next
  | UpdateNext _ next => id_kont_sid next
  end.

(** An [XMLHttpRequest] after [xhr.send]: waiting for its load event. *)
Record xhr : Type := {
  x_id : nat;
  x_method : string;
  x_url : string;
  x_headers : list (string * string);
  x_withCredentials : bool;
  x_body : value;               (* the argument of JSON.stringify *)
  x_onload : json_kont
}.

(** An interval set by [setInterval]: the callback closes over the
    session, the record id and its own identifier [interval]. *)
Record timer : Type := {
  t_id : nat;
  t_sid : nat;
  t_recordId : value;
  t_delay : N;
  t_due : N
}.

(** What the tracker does to the outside, in order. *)
Inductive effect : Type :=
| Warn (msg : string)
| Sent (x : xhr)
| Called_onCreate (sid : nat) (recordId : value)
| Called_onUpdate (sid : nat) (recordId : value)
| IntervalSet (sid : nat) (tid : nat)
| IntervalCleared (tid : nat)
| Uncaught (e : exn).

Record world : Type := {
  now : N;                      (* milliseconds *)
  sessions : list session;
  timers : list timer;          (* the active intervals *)
  next_timer : nat;
  pending : list xhr;           (* requests in flight *)
  next_xhr : nat;
  log : list effect
}.

Definition init : world :=
  {| now := 0; sessions := []; timers := []; next_timer := 0;
     pending := []; next_xhr := 0; log := [] |}.

Definition with_now (f : N -> N) (w : world) : world :=
  {| now := f (now w); sessions := sessions w; timers := timers w;
     next_timer := next_timer w; pending := pending w;
     next_xhr := next_xhr w; log := log w |}.

Definition with_sessions (f : list session -> list session) (w : world) : world :=
  {| now := now w; sessions := f (sessions w); timers := timers w;
     next_timer := next_timer w; pending := pending w;
     next_xhr := next_xhr w; log := log w |}.

Definition with_timers (f : list timer -> list timer) (w : world) : world :=
  {| now := now w; sessions := sessions w; timers := f (timers w);
     next_timer := next_timer w; pending := pending w;
     next_xhr := next_xhr w; log := log w |}.

Definition with_pending (f : list xhr -> list xhr) (w : world) : world :=
  {| now := now w; sessions := sessions w; timers := timers w;
     next_timer := next_timer w; pending := f (pending w);
     next_xhr := next_xhr w; log := log w |}.

Definition with_next_timer (f : nat -> nat) (w : world) : world :=
  {| now := now w; sessions := sessions w; timers := timers w;
     next_timer := f (next_timer w); pending := pending w;
     next_xhr := next_xhr w; log := log w |}.

Definition with_next_xhr (f : nat -> nat) (w : world) : world :=
  {| now := now w; sessions := sessions w; timers := timers w;
     next_timer := next_timer w; pending := pending w;
     next_xhr := f (next_xhr w); log := log w |}.

Definition emit (e : effect) (w : world) : world :=
  {| now := now w; sessions := sessions w; timers := timers w;
     next_timer := next_timer w; pending := pending w;
     next_xhr := next_xhr w; log := log w ++ [e] |}.

Definition stopped (sid : nat) (w : world) : bool :=
  match sessions w !! sid with
  | Some s => isStopped s
  | None => false
  end.

Definition set_stopped (s : session) : session :=
  {| s_onCreate := s_onCreate s; s_onUpdate := s_onUpdate s;
     isStopped := true; started_at := started_at s |}.

Definition set_started (t : N) (s : session) : session :=
  {| s_onCreate := s_onCreate s; s_onUpdate := s_onUpdate s;
     isStopped := isStopped s; started_at := Some t |}.

(** Entering [_record] or [_updateRecord] creates the variables of a new
    session. *)
Definition alloc_session (cb_onCreate cb_onUpdate : callback) (w : world) : world :=
  with_sessions
    (fun l => l ++ [{| s_onCreate := cb_onCreate; s_onUpdate := cb_onUpdate;
                       isStopped := false; started_at := None |}]) w.

Definition stop_world (handle : nat) (w : world) : world :=
  with_sessions (alter set_stopped handle) w.

(** ** Code that reads and writes the world, and may throw *)

Definition M (A : Type) : Type := world -> outcome A * world.

Definition ret {A} (a : A) : M A := fun w => (Ret a, w).

Definition throw {A} (e : exn) : M A := fun w => (Throw e, w).

Definition bind {A B} (m : M A) (k : A -> M B) : M B :=
  fun w =>
    match m w with
    | (Ret a, w') => k a w'
    | (Throw e, w') => (Throw e, w')
    end.

Definition lift {A} (o : outcome A) : M A := fun w => (o, w).

Definition act (f : world -> world) : M unit := fun w => (Ret tt, f w).

Notation "'do' x <- m ; k" := (bind m (fun x => k))
  (at level 10, x name, m at level 100, k at level 200) : js_scope.
Notation "m ;; k" := (bind m (fun _ => k))
  (at level 100, k at level 200, right associativity) : js_scope.

Local Open Scope js_scope.

Definition console_warn (msg : string) : M unit := act (emit (Warn msg)).

(** Calling the callback held in a variable: the call is recorded, then
    the callback's own outcome decides whether control comes back. *)
Definition call (cb : callback) (called : effect) (arg : value) : M unit :=
  act (emit called) ;;
  match cb with
  | NoCallback => ret tt
  | Callback body =>
      match body arg with
      | Returns => ret tt
      | Throws e => throw e
      end
  end.

Definition session_onCreate (sid : nat) (w : world) : callback :=
  match sessions w !! sid with
  | Some s => s_onCreate s
  | None => NoCallback
  end.

Definition session_onUpdate (sid : nat) (w : world) : callback :=
  match sessions w !! sid with
  | Some s => s_onUpdate s
  | None => NoCallback
  end.

(** [setInterval(callback, delay)] registers the interval, first due one
    delay from now, and returns its identifier. *)
Definition setInterval_world (sid : nat) (recordId : value) (delay : N) (w : world) : world :=
  let t := {| t_id := next_timer w; t_sid := sid; t_recordId := recordId;
              t_delay := delay; t_due := now w + delay |} in
  emit (IntervalSet sid (next_timer w))
    (with_next_timer S
       (with_timers (fun l => l ++ [t])
          (with_sessions (alter (set_started (now w)) sid) w))).

Definition setInterval (sid : nat) (recordId : value) (delay : N) : M nat :=
  fun w => (Ret (next_timer w), setInterval_world sid recordId delay w).

Definition clearInterval_world (tid : nat) (w : world) : world :=
  emit (IntervalCleared tid)
    (with_timers (List.filter (fun t => negb (Nat.eqb (t_id t) tid))) w).

Definition clearInterval (tid : nat) : M unit := act (clearInterval_world tid).

(** ** Transport *)

(** The [onload] handler installed by [send]. *)
Definition xhr_onload (next : value -> M unit) (status : Z) (parsed : option value) : M unit :=
  if negb (Z.eqb status 200) then
    throw (JsError (VStr "Server returned with an unhandled status"))
  else
    match parsed with
    | None => throw (JsError (VStr "Failed to parse response from server"))
    | Some json =>
        do errors <- lift (Js.get json "errors");
        if Js.not_nullish errors then
          do first <- lift (Js.get0 errors);
          do message <- lift (Js.get first "message");
          throw (JsError message)
        else next json
    end.

(** [send(url, body, next)]: the request leaves with its headers and its
    credentials flag set; [next] waits for the load event. *)
Definition send_world (url : string) (body : value) (next : json_kont) (w : world) : world :=
  let x := {| x_id := next_xhr w;
              x_method := "POST";
              x_url := url;
              x_headers := [("Content-Type", "application/json;charset=UTF-8")];
              x_withCredentials := true;
              x_body := body;
              x_onload := next |} in
  emit (Sent x) (with_next_xhr S (with_pending (fun l => l ++ [x]) w)).

Definition send (url : string) (body : value) (next : json_kont) : M unit :=
  act (send_world url body next).

Definition record (server : string) (domainId attrs : value) (next : id_kont) : M unit :=
  let url := endpoint server in
  let body := createRecordBody domainId attrs in
  send url body (RecordNext next).

Definition updateRecord (server : string) (recordId : value) (next : id_kont) : M unit :=
  let url := endpoint server in
  let body := updateRecordBody recordId in
  send url body (UpdateNext recordId next).

(** [json.data.createRecord.payload.id]. *)
Definition created_id (json : value) : outcome value :=
  let? data := Js.get json "data" in
  let? createRecord := Js.get data "createRecord" in
  let? payload := Js.get createRecord "payload" in
  Js.get payload "id".

(** ** The instance *)

Record instance : Type := {
  server : string;
  domainId : value;
  opts : options
}.

(** [create({ server, domainId }, opts)]. *)
Definition create (server : string) (domainId : value) (opts : value) : outcome instance :=
  let? opts := validate opts in
  Ret {| server := server; domainId := domainId; opts := opts |}.

Definition period : N := 15000.

Definition warn_localhost : string := "Ackee ignores you because you are on localhost".
Definition warn_bot : string := "Ackee ignores you because you are a bot".
Definition warn_own_site : string := "Ackee ignores you because this is your own site".

(** A default parameter [(arg = default) => ...]: the default stands in
    for an argument that is left out and for one that is [undefined];
    every other value, [null] included, is kept. *)
Definition or_default (arg : option value) (default : value) : value :=
  match arg with
  | None | Some VUndefined => default
  | Some a => a
  end.

Section Instance.

Variable inst : instance.

(** The function passed to [setInterval], the same text in [_record]
    and in [_updateRecord]. *)
Definition heartbeat (t : timer) : M unit :=
  fun w =>
    if stopped (t_sid t) w then
      clearInterval (t_id t) w
    else
      updateRecord (server inst) (t_recordId t)
        (UpdateCallback (t_sid t) (t_recordId t)) w.

Definition apply_id_kont (k : id_kont) (arg : value) : M unit :=
  match k with
  | RecordCallback sid =>
      let recordId := arg in
      if isFakeRecordId recordId then
        console_warn warn_own_site
      else
        (fun w => call (session_onCreate sid w) (Called_onCreate sid recordId) recordId w) ;;
        do interval <- setInterval sid recordId period;
        ret tt
  | UpdateCallback sid recordId =>
      fun w => call (session_onUpdate sid w) (Called_onUpdate sid recordId) recordId w
  end.

Definition apply_json_kont (k : json_kont) (json : value) : M unit :=
  match k with
  | RecordNext next =>
      do id <- lift (created_id json);
      apply_id_kont next id
  | UpdateNext recordId next =>
      apply_id_kont next recordId
  end.

Definition new_session (cbs_onCreate cbs_onUpdate : callback) : M nat :=
  fun w => (Ret (length (sessions w)), alloc_session cbs_onCreate cbs_onUpdate w).

(** [instance.record(attrs, callbacks)]; [None] is an omitted [attrs]. *)
Definition _record (env : browser) (attrs : option value) (cbs : callbacks) : M nat :=
  let attrs := or_default attrs (attributes (detailed (opts inst)) env) in
  do handle <- new_session (onCreate cbs) (onUpdate cbs);
  if ignoreLocalhost (opts inst) && isLocalhost (hostname env) then
    console_warn warn_localhost ;; ret handle
  else if isBot (userAgent env) then
    console_warn warn_bot ;; ret handle
  else
    record (server inst) (domainId inst) attrs (RecordCallback handle) ;;
    ret handle.

(** [instance.updateRecord(recordId, callbacks)]. *)
Definition _updateRecord (env : browser) (recordId : value) (cbs : callbacks) : M nat :=
  do handle <- new_session NoCallback (onUpdate cbs);
  if ignoreLocalhost (opts inst) && isLocalhost (hostname env) then
    console_warn warn_localhost ;; ret handle
  else if isBot (userAgent env) then
    console_warn warn_bot ;; ret handle
  else if isFakeRecordId recordId then
    console_warn warn_own_site ;; ret handle
  else
    do interval <- setInterval handle recordId period;
    ret handle.

(** [handle.stop()]. *)
Definition stop (handle : nat) : M unit := act (stop_world handle).

(** ** The event loop

    The page and the browser drive the tracker: the page calls the
    instance and the handles it got back, the clock advances, an interval
    that is due fires, a request in flight gets its load event or fails
    at the network level (no handler is installed for that).  An event
    that is not enabled (an interval that is cleared or not yet due, a
    request that is not in flight) leaves the world as it is.  An
    exception that leaves a task is reported and the loop goes on.

    [Call_record] and [Call_updateRecord] carry what the page's globals
    read at the call.  [Load xid status parsed] is the load event of the
    request [xid] with [xhr.status = status]; [parsed] is what
    [JSON.parse(xhr.responseText)] gives, [None] when it throws.
    [Call_stop] on a handle that no call returned yet changes nothing. *)

Inductive event : Type :=
| Call_record (env : browser) (attrs : option value) (cbs : callbacks)
| Call_updateRecord (env : browser) (recordId : value) (cbs : callbacks)
| Call_stop (handle : nat)
| Elapse (dt : N)
| Tick (tid : nat)
| Load (xid : nat) (status : Z) (parsed : option value)
| NetFail (xid : nat).

Definition task {A} (m : M A) (w : world) : world :=
  match m w with
  | (Ret _, w') => w'
  | (Throw e, w') => emit (Uncaught e) w'
  end.

Definition find_timer (tid : nat) (w : world) : option timer :=
  List.find (fun t => Nat.eqb (t_id t) tid) (timers w).

Definition find_xhr (xid : nat) (w : world) : option xhr :=
  List.find (fun x => Nat.eqb (x_id x) xid) (pending w).

(** After its callback ran, the interval is due one delay later. *)
Definition rearmed (clock : N) (tid : nat) (t : timer) : timer :=
  if Nat.eqb (t_id t) tid then
    {| t_id := t_id t; t_sid := t_sid t; t_recordId := t_recordId t;
       t_delay := t_delay t; t_due := clock + t_delay t |}
  else t.

Definition rearm (tid : nat) (w : world) : world :=
  with_timers (List.map (rearmed (now w) tid)) w.

Definition drop_xhr (xid : nat) (w : world) : world :=
  with_pending (List.filter (fun x => negb (Nat.eqb (x_id x) xid))) w.

Definition step (w : world) (e : event) : world :=
  match e with
  | Call_record env attrs cbs => task (_record env attrs cbs) w
  | Call_updateRecord env recordId cbs => task (_updateRecord env recordId cbs) w
  | Call_stop handle => task (stop handle) w
  | Elapse dt => with_now (fun t => t + dt)%N w
  | Tick tid =>
      match find_timer tid w with
      | Some t =>
          if (t_due t <=? now w)%N then rearm tid (task (heartbeat t) w) else w
      | None => w
      end
  | Load xid status parsed =>
      match find_xhr xid w with
      | Some x =>
          task (xhr_onload (apply_json_kont (x_onload x)) status parsed)
            (drop_xhr xid w)
      | None => w
      end
  | NetFail xid => drop_xhr xid w
  end.

Definition run (w : world) (es : list event) : world :=
  fold_left step es w.

Definition reachable (w : world) : Prop :=
  exists es, w = run init es.

End Instance.

(** ** The vocabulary of the specification *)

(** The local host names. *)
Definition local_hosts : list string := [""; "localhost"; "127.0.0.1"; "::1"].

(** Case-insensitive containment, the way the specification words it:
    some stretch of the text equals the word once both are put in lower
    case. *)
Definition lower (c : ascii) : ascii :=
  let n := N_of_ascii c in
  if (65 <=? n)%N && (n <=? 90)%N then ascii_of_N (n + 32) else c.

Fixpoint lower_string (s : string) : string :=
  match s with
  | EmptyString => EmptyString
  | String c s' => String (lower c) (lower_string s')
  end.

Definition contains_ci (word text : string) : Prop :=
  exists before stretch after,
    text = before +:+ stretch +:+ after /\
    lower_string stretch = lower_string word.

Definition names_a_bot (userAgent : string) : Prop :=
  exists word, In word bot_patterns /\ contains_ci word userAgent.

Definition desktop_userAgent : string :=
  "Mozilla/5.0 (Windows NT 10.0; Win64; x64) AppleWebKit/537.36 (KHTML, like Gecko) Chrome/91.0.4472.124 Safari/537.36".

(** A base URL without its trailing slashes, and with exactly one. *)
Fixpoint strip_slashes (s : string) : string :=
  match s with
  | EmptyString => EmptyString
  | String c s' =>
      let rest := strip_slashes s' in
      if Ascii.eqb c "/" && String.eqb rest "" then EmptyString else String c rest
  end.

Definition with_one_trailing_slash (s : string) : string :=
  strip_slashes s +:+ "/".

(** A base URL without its last character when that is a slash. *)
Fixpoint strip_one_slash (s : string) : string :=
  match s with
  | EmptyString => EmptyString
  | String c s' =>
      if Ascii.eqb c "/" && String.eqb s' "" then EmptyString
      else String c (strip_one_slash s')
  end.

Fixpoint ends_with (suffix s : string) : bool :=
  String.eqb s suffix ||
  match s with
  | EmptyString => false
  | String _ s' => ends_with suffix s'
  end.

(** Whether a visit is left untracked before any request. *)
Definition ineligible (o : options) (env : browser) : bool :=
  (ignoreLocalhost o && isLocalhost (hostname env)) || isBot (userAgent env).

(** ** Observing a session *)

Definition json_kont_next (k : json_kont) : id_kont :=
  match k with
  | RecordNext next => next
  | UpdateNext _ next => next
  end.

(** A request whose answer would start the heartbeat of [sid]. *)
Definition creating (sid : nat) (x : xhr) : bool :=
  match json_kont_next (x_onload x) with
  | RecordCallback s => Nat.eqb s sid
  | UpdateCallback _ _ => false
  end.

(** A request whose answer would call [onUpdate] of [sid]. *)
Definition updating (sid : nat) (x : xhr) : bool :=
  match json_kont_next (x_onload x) with
  | RecordCallback _ => false
  | UpdateCallback s _ => Nat.eqb s sid
  end.

Definition is_refresh (x : xhr) : bool :=
  match x_onload x with
  | RecordNext _ => false
  | UpdateNext _ _ => true
  end.

Definition timers_of (sid : nat) (w : world) : list timer :=
  List.filter (fun t => Nat.eqb (t_sid t) sid) (timers w).

Definition creating_of (sid : nat) (w : world) : list xhr :=
  List.filter (creating sid) (pending w).

Definition updating_of (sid : nat) (w : world) : list xhr :=
  List.filter (updating sid) (pending w).

(** The effects made on behalf of a session. *)
Definition about (sid : nat) (e : effect) : bool :=
  match e with
  | Sent x => Nat.eqb (json_kont_sid (x_onload x)) sid
  | Called_onCreate s _ | Called_onUpdate s _ | IntervalSet s _ => Nat.eqb s sid
  | Warn _ | IntervalCleared _ | Uncaught _ => false
  end.

(** The same, the creation request apart. *)
Definition activity (sid : nat) (e : effect) : bool :=
  match e with
  | Sent x => is_refresh x && Nat.eqb (json_kont_sid (x_onload x)) sid
  | _ => about sid e
  end.

Definition refresh_of (sid : nat) (e : effect) : bool :=
  match e with
  | Sent x => is_refresh x && Nat.eqb (json_kont_sid (x_onload x)) sid
  | _ => false
  end.

Definition is_request (e : effect) : bool :=
  match e with
  | Sent _ => true
  | _ => false
  end.

Definition refreshes (sid : nat) (w : world) : list effect :=
  List.filter (refresh_of sid) (log w).

(** No interval and no request in flight belongs to the session. *)
Definition quiet (sid : nat) (w : world) : Prop :=
  timers_of sid w = [] /\ creating_of sid w = [] /\ updating_of sid w = [].

(** The first refresh period of the session is not over: its interval
    is not set yet, or was set less than a period ago. *)
Definition before_first_period (sid : nat) (w : world) : Prop :=
  match sessions w !! sid with
  | Some s =>
      match started_at s with
      | Some t0 => (now w < t0 + period)%N
      | None => True
      end
  | None => False
  end.

(** A response that [send] hands to [next]: status 200, a body that
    parses, no [errors] in it. *)
Definition accepted (status : Z) (parsed : option value) (json : value) : Prop :=
  status = 200%Z /\ parsed = Some json /\
  exists errors, Js.get json "errors" = Ret errors /\ Js.not_nullish errors = false.

(** A response that [send] rejects. *)
Definition rejected (status : Z) (parsed : option value) : Prop :=
  status <> 200%Z \/ parsed = None \/
  exists json errors,
    parsed = Some json /\ Js.get json "errors" = Ret errors /\
    Js.not_nullish errors = true.

(** The requests the tracker builds: a creation waits with the callback
    of [_record], a refresh with [() => { onUpdate(recordId) }] for the
    record id it refreshes. *)
Definition well_shaped (k : json_kont) : Prop :=
  match k with
  | RecordNext (RecordCallback _) => True
  | UpdateNext recordId (UpdateCallback _ recordId') => recordId = recordId'
  | _ => False
  end.

(** Code that runs the same whether or not [stop] was called on the
    session. *)
Definition unaware (sid : nat) {A : Type} (m : M A) : Prop :=
  forall w, m (stop_world sid w) = (fst (m w), stop_world sid (snd (m w))).

(** ** The invariant of the event loop *)

Definition started_by (w : world) (sid : nat) (deadline : N) : Prop :=
  exists s t0,
    sessions w !! sid = Some s /\ started_at s = Some t0 /\ (t0 + period <= deadline)%N.

Definition with_credentials (e : effect) : Prop :=
  match e with
  | Sent x => x_withCredentials x = true
  | _ => True
  end.

Record inv (w : world) : Prop := {
  inv_timers_valid :
    Forall (fun t => t_sid t < length (sessions w)) (timers w);
  inv_pending_valid :
    Forall (fun x => json_kont_sid (x_onload x) < length (sessions w)) (pending w);
  inv_log_valid :
    Forall (fun e => forall sid, about sid e = true -> sid < length (sessions w)) (log w);
  inv_single :
    forall sid, length (timers_of sid w) + length (creating_of sid w) <= 1;
  inv_creating :
    forall sid, creating_of sid w <> [] ->
      updating_of sid w = [] /\ List.filter (activity sid) (log w) = [];
  inv_delay :
    Forall (fun t => t_delay t = period) (timers w);
  inv_started_past :
    forall sid s t0,
      sessions w !! sid = Some s -> started_at s = Some t0 -> (t0 <= now w)%N;
  inv_timer_started :
    Forall (fun t => started_by w (t_sid t) (t_due t)) (timers w);
  inv_refresh_started :
    forall sid, refreshes sid w <> [] -> started_by w sid (now w);
  inv_credentials :
    Forall with_credentials (log w)
}.

(** ** What the specification says of a session *)

(** Nothing is ever done on behalf of the session after its creation
    request: no callback, no interval, no refresh. *)
Definition never_starts (inst : instance) (sid : nat) (w : world) : Prop :=
  forall es,
    List.filter (activity sid) (log (run inst w es)) = [] /\
    timers_of sid (run inst w es) = [].

(** Not even a request is ever sent for the session. *)
Definition never_tracks (inst : instance) (sid : nat) (w : world) : Prop :=
  forall es,
    List.filter (about sid) (log (run inst w es)) = [] /\
    timers_of sid (run inst w es) = [].

(** Calling [stop] on the handle changes nothing but the flag of the
    session, now and in every future. *)
Definition stop_is_noop (inst : instance) (handle : nat) (w : world) : Prop :=
  forall es,
    run inst (step inst w (Call_stop handle)) es = stop_world handle (run inst w es).

(** Two worlds that differ at most in the variables of sessions. *)
Definition same_outside (w1 w2 : world) : Prop :=
  now w1 = now w2 /\ timers w1 = timers w2 /\ next_timer w1 = next_timer w2 /\
  pending w1 = pending w2 /\ next_xhr w1 = next_xhr w2 /\ log w1 = log w2.

(** A call that only warned: nothing was sent, no interval was set, and
    the handle it returned is inert. *)
Definition warned_and_inert (inst : instance) (w : world) (handle : nat) (w1 : world) : Prop :=
  (exists msg, log w1 = log w ++ [Warn msg]) /\
  pending w1 = pending w /\ timers w1 = timers w /\
  never_tracks inst handle w1 /\
  stop_is_noop inst handle w1 /\
  (forall es,
     same_outside (run inst (step inst w1 (Call_stop handle)) es) (run inst w1 es)).

(** ** A page, for examples *)

Definition page (host agent : string) : browser :=
  {| hostname := host; userAgent := agent;
     href := "https://site.example/page"; referrer := "";
     language := "en-US";
     screenWidth := VUndefined; screenHeight := VUndefined;
     screenColorDepth := VUndefined;
     platformProduct := VNull; platformManufacturer := VNull;
     platformOsFamily := VNull; platformOsVersion := VNull;
     platformName := VNull; platformVersion := VNull;
     outerWidth := VUndefined; outerHeight := VUndefined |}.

Definition site : browser := page "site.example" desktop_userAgent.

Definition tracker : instance :=
  {| server := "https://t.example"; domainId := VStr "domain";
     opts := {| detailed := false; ignoreLocalhost := true |} |}.

Definition no_callbacks : callbacks :=
  {| onCreate := NoCallback; onUpdate := NoCallback |}.

(** Callbacks of a page that listens and returns. *)
Definition watching : callbacks :=
  {| onCreate := Callback (fun _ => Returns);
     onUpdate := Callback (fun _ => Returns) |}.

(** The body of a successful creation, parsed. *)
Definition created (id : string) : value :=
  VObj [("data", VObj [("createRecord", VObj [("payload", VObj [("id", VStr id)])])])].

(** The body of a successful refresh, parsed. *)
Definition updated : value :=
  VObj [("data", VObj [("updateRecord", VObj [("success", VBool true)])])].

(** The creation request of the first visit of [site]. *)
Definition first_request : xhr :=
  {| x_id := 0;
     x_method := "POST";
     x_url := "https://t.example/api";
     x_headers := [("Content-Type", "application/json;charset=UTF-8")];
     x_withCredentials := true;
     x_body := createRecordBody (VStr "domain") (attributes false site);
     x_onload := RecordNext (RecordCallback 0) |}.

(** Its first refresh. *)
Definition first_refresh : xhr :=
  {| x_id := 1;
     x_method := "POST";
     x_url := "https://t.example/api";
     x_headers := [("Content-Type", "application/json;charset=UTF-8")];
     x_withCredentials := true;
     x_body := updateRecordBody (VStr "abc123");
     x_onload := UpdateNext (VStr "abc123") (UpdateCallback 0 (VStr "abc123")) |}.

(** A visit whose record was created and whose first period is running. *)
Definition visit_started : list event :=
  [ Call_record site None watching;
    Load 0 200 (Some (created "abc123"));
    Elapse 5000 ].

(** A visit with a first refresh in flight. *)
Definition visit_refreshing : list event :=
  [ Call_record site None watching;
    Load 0 200 (Some (created "abc123"));
    Elapse 15000;
    Tick 0 ].

(** Three periods of a visit, each refresh answered before the next. *)
Definition three_periods : list event :=
  [ Call_record site None watching;
    Load 0 200 (Some (created "abc123"));
    Elapse 15000; Tick 0; Load 1 200 (Some updated);
    Elapse 15000; Tick 0; Load 2 200 (Some updated);
    Elapse 15000; Tick 0; Load 3 200 (Some updated) ].

Definition is_callback_call (e : effect) : bool :=
  match e with
  | Called_onCreate _ _ | Called_onUpdate _ _ => true
  | _ => false
  end.

(** ** The moves of the event loop, as a relation *)

(** What the continuation of a request does once the answer is accepted. *)
Inductive completes (w : world) : id_kont -> world -> Prop :=
| completes_fake sid :
    completes w (RecordCallback sid) (emit (Warn warn_own_site) w)
| completes_onCreate_throws sid recordId e :
    isFakeRecordId recordId = false ->
    completes w (RecordCallback sid)
      (emit (Uncaught e) (emit (Called_onCreate sid recordId) w))
| completes_created sid recordId :
    isFakeRecordId recordId = false ->
    completes w (RecordCallback sid)
      (setInterval_world sid recordId period (emit (Called_onCreate sid recordId) w))
| completes_updated sid recordId :
    completes w (UpdateCallback sid recordId) (emit (Called_onUpdate sid recordId) w)
| completes_onUpdate_throws sid recordId e :
    completes w (UpdateCallback sid recordId)
      (emit (Uncaught e) (emit (Called_onUpdate sid recordId) w)).

Inductive moves (server : string) (w : world) : world -> Prop :=
| moves_idle :
    moves server w w
| moves_ineligible cb1 cb2 msg :
    moves server w (emit (Warn msg) (alloc_session cb1 cb2 w))
| moves_record cb1 cb2 body :
    moves server w
      (send_world (endpoint server) body (RecordNext (RecordCallback (length (sessions w))))
         (alloc_session cb1 cb2 w))
| moves_resume cb recordId :
    moves server w
      (setInterval_world (length (sessions w)) recordId period (alloc_session NoCallback cb w))
| moves_stop handle :
    moves server w (stop_world handle w)
| moves_elapse dt :
    moves server w (with_now (fun t => t + dt)%N w)
| moves_tick_cleared t :
    In t (timers w) -> stopped (t_sid t) w = true ->
    moves server w (clearInterval_world (t_id t) w)
| moves_tick_refresh t :
    In t (timers w) -> stopped (t_sid t) w = false -> (t_due t <= now w)%N ->
    moves server w
      (send_world (endpoint server) (updateRecordBody (t_recordId t))
         (UpdateNext (t_recordId t) (UpdateCallback (t_sid t) (t_recordId t))) w)
| moves_rearm tid w0 :
    moves server w w0 -> moves server w (rearm tid w0)
| moves_load_error x e :
    In x (pending w) ->
    moves server w (emit (Uncaught e) (drop_xhr (x_id x) w))
| moves_load x w' :
    In x (pending w) ->
    completes (drop_xhr (x_id x) w) (json_kont_next (x_onload x)) w' ->
    moves server w w'
| moves_netfail xid :
    moves server w (drop_xhr xid w).

(** ** More of the source: reading options, the declared element *)

(** [opts.name] of an options argument that is not [null]: primitives
    have no such property. *)
Definition option_field (opts : value) (name : string) : value :=
  match opts with
  | VObj props => Js.lookup name props
  | _ => VUndefined
  end.

(** The object [_opts] that [validate] returns. *)
Definition options_object (o : options) : value :=
  VObj [("detailed", VBool (detailed o)); ("ignoreLocalhost", VBool (ignoreLocalhost o))].

(** The own keys of an object, in order. *)
Definition keys (v : value) : list string :=
  match v with
  | VObj props => List.map fst props
  | _ => []
  end.

(** The keys of the minimal tier of attributes. *)
Definition minimal_keys : list string := ["siteLocation"; "siteReferrer"].

(** What starts a session: its creation request, the call of [onCreate],
    the call of [setInterval]. *)
Definition starts (sid : nat) (e : effect) : bool :=
  match e with
  | Sent x => creating sid x
  | Called_onCreate s _ | IntervalSet s _ => Nat.eqb s sid
  | _ => false
  end.

(** A request as [send] builds it for [record] and [updateRecord] of the
    instance. *)
Definition well_formed_request (inst : instance) (x : xhr) : Prop :=
  x_method x = "POST" /\ x_url x = endpoint (server inst) /\
  x_headers x = [("Content-Type", "application/json;charset=UTF-8")] /\
  x_withCredentials x = true /\
  match x_onload x with
  | RecordNext (RecordCallback _) =>
      exists attrs, x_body x = createRecordBody (domainId inst) attrs
  | UpdateNext recordId (UpdateCallback _ recordId') =>
      recordId' = recordId /\ x_body x = updateRecordBody recordId
  | _ => False
  end.

Definition well_formed_effect (inst : instance) (e : effect) : Prop :=
  match e with
  | Sent x => well_formed_request inst x
  | _ => True
  end.

(** ** The steps of the event loop, with what they read *)

Inductive acts (inst : instance) (w : world) : world -> Prop :=
| acts_idle :
    acts inst w w
| acts_warned cb1 cb2 msg :
    acts inst w (emit (Warn msg) (alloc_session cb1 cb2 w))
| acts_record cb1 cb2 attrs :
    acts inst w
      (send_world (endpoint (server inst)) (createRecordBody (domainId inst) attrs)
         (RecordNext (RecordCallback (length (sessions w))))
         (alloc_session cb1 cb2 w))
| acts_resume cb recordId :
    isFakeRecordId recordId = false ->
    acts inst w
      (setInterval_world (length (sessions w)) recordId period
         (alloc_session NoCallback cb w))
| acts_stop handle :
    acts inst w (stop_world handle w)
| acts_elapse dt :
    acts inst w (with_now (fun t => t + dt)%N w)
| acts_tick_cleared t :
    find_timer (t_id t) w = Some t -> (t_due t <= now w)%N ->
    stopped (t_sid t) w = true ->
    acts inst w (rearm (t_id t) (clearInterval_world (t_id t) w))
| acts_tick_refresh t :
    find_timer (t_id t) w = Some t -> (t_due t <= now w)%N ->
    stopped (t_sid t) w = false ->
    acts inst w
      (rearm (t_id t)
         (send_world (endpoint (server inst)) (updateRecordBody (t_recordId t))
            (UpdateNext (t_recordId t) (UpdateCallback (t_sid t) (t_recordId t))) w))
| acts_load_error x e :
    find_xhr (x_id x) w = Some x ->
    acts inst w (emit (Uncaught e) (drop_xhr (x_id x) w))
| acts_load x w' :
    find_xhr (x_id x) w = Some x ->
    completes (drop_xhr (x_id x) w) (json_kont_next (x_onload x)) w' ->
    acts inst w w'
| acts_netfail xid :
    acts inst w (drop_xhr xid w).

(** Intervals have identifiers of their own, and none is due later than
    one period from now. *)
Record timers_ok (w : world) : Prop := {
  timers_fresh : Forall (fun t => t_id t < next_timer w) (timers w);
  timers_nodup : List.NoDup (List.map t_id (timers w));
  timers_due : Forall (fun t => (t_due t <= now w + period)%N) (timers w)
}.

(** ** Counting what was done for a session *)

Definition is_creation (sid : nat) (e : effect) : bool :=
  match e with
  | Sent x => creating sid x
  | _ => false
  end.

Definition is_onCreate (sid : nat) (e : effect) : bool :=
  match e with
  | Called_onCreate s _ => Nat.eqb s sid
  | _ => false
  end.

Definition is_onUpdate (sid : nat) (e : effect) : bool :=
  match e with
  | Called_onUpdate s _ => Nat.eqb s sid
  | _ => false
  end.

Definition is_interval_set (sid : nat) (e : effect) : bool :=
  match e with
  | IntervalSet s _ => Nat.eqb s sid
  | _ => false
  end.

Definition count (P : effect -> bool) (w : world) : nat :=
  length (List.filter P (log w)).

Record counted (w : world) : Prop := {
  counted_creation :
    forall sid, count (is_creation sid) w <= 1;
  counted_onCreate :
    forall sid, count (is_onCreate sid) w + length (creating_of sid w) <= 1;
  counted_interval :
    forall sid, count (is_interval_set sid) w + length (creating_of sid w) <= 1;
  counted_onUpdate :
    forall sid,
      count (is_onUpdate sid) w + length (updating_of sid w) <= count (refresh_of sid) w
}.

(** The session set its interval at time [t0]. *)
Definition started (w : world) (sid : nat) (t0 : N) : Prop :=
  exists s, sessions w !! sid = Some s /\ started_at s = Some t0.

(** The refreshes of a session keep the pace of its interval: [n]
    refreshes take [n] periods, and the next one is a period away. *)
Record paced (w : world) : Prop := {
  paced_now :
    forall sid t0, started w sid t0 ->
      (t0 + period * N.of_nat (count (refresh_of sid) w) <= now w)%N;
  paced_due :
    Forall (fun t =>
      exists t0, started w (t_sid t) t0 /\
        (t0 + period * (N.of_nat (count (refresh_of (t_sid t)) w) + 1) <= t_due t)%N)
      (timers w)
}.

(** ** The record ids a session works with *)

Definition timer_ids (sid : nat) (t : timer) : list value :=
  if Nat.eqb (t_sid t) sid then [t_recordId t] else [].

Definition xhr_ids (sid : nat) (x : xhr) : list value :=
  match json_kont_next (x_onload x) with
  | UpdateCallback s recordId => if Nat.eqb s sid then [recordId] else []
  | RecordCallback _ => []
  end.

Definition effect_ids (sid : nat) (e : effect) : list value :=
  match e with
  | Sent x => if is_refresh x then xhr_ids sid x else []
  | Called_onCreate s recordId | Called_onUpdate s recordId =>
      if Nat.eqb s sid then [recordId] else []
  | _ => []
  end.

Definition ids_of (sid : nat) (w : world) : list value :=
  flat_map (timer_ids sid) (timers w) ++
  flat_map (xhr_ids sid) (pending w) ++
  flat_map (effect_ids sid) (log w).

Definition one_id (w : world) : Prop :=
  forall sid a b, In a (ids_of sid w) -> In b (ids_of sid w) -> a = b.


(** ** The declared element *)

(** The element that [document.querySelector('[data-ackee-domain-id]')]
    finds.  The selector makes sure of [data-ackee-domain-id]; for each of
    the other two attributes [getAttribute] may give [null]. *)
Record element : Type := {
  data_ackee_server : option string;
  data_ackee_domain_id : string;
  data_ackee_opts : option string
}.

(** [elem.getAttribute(name) || fallback]: [null] and the empty string
    are falsy. *)
Definition attribute_or (attribute : option string) (fallback : string) : string :=
  match attribute with
  | None => fallback
  | Some s => if String.eqb s "" then fallback else s
  end.

Section Detect.

(** [JSON.parse], which returns a value or throws. *)
Variable JSON_parse : string -> outcome value.

(** [detect()], over what [querySelector] found. *)
Definition detect (elem : option element) (env : browser) : M unit :=
  match elem with
  | None => ret tt
  | Some elem =>
      let server := attribute_or (data_ackee_server elem) "" in
      let domainId := VStr (data_ackee_domain_id elem) in
      let opts := attribute_or (data_ackee_opts elem) "{}" in
      do parsed <- lift (JSON_parse opts);
      do inst <- lift (create server domainId parsed);
      do _ <- _record inst env None no_callbacks;
      ret tt
  end.

End Detect.

(** A parser of the two texts the examples use. *)
Definition parse_example (text : string) : outcome value :=
  if String.eqb text "{}" then Ret (VObj [])
  else if String.eqb text "null" then Ret VNull
  else Throw (JsError (VStr "Unexpected token")).

(** How the call of a callback held by a session ends. *)
Definition callback_outcome (cb : callback) (arg : value) : cb_outcome :=
  match cb with
  | NoCallback => Returns
  | Callback body => body arg
  end.

(** A page whose [onCreate] throws. *)
Definition failing : callbacks :=
  {| onCreate := Callback (fun _ => Throws (JsError (VStr "page error")));
     onUpdate := NoCallback |}.

(** A page whose [onUpdate] throws what it was called with. *)
Definition breaking : callbacks :=
  {| onCreate := NoCallback;
     onUpdate := Callback (fun recordId => Throws (JsError recordId)) |}.

(** Its visit, with a first refresh in flight. *)
Definition visit_breaking : list event :=
  [ Call_record site None breaking;
    Load 0 200 (Some (created "abc123"));
    Elapse 15000;
    Tick 0 ].

(** A page that declares the domain only, and one whose options are the
    text [null]. *)
Definition bare_element : element :=
  {| data_ackee_server := None; data_ackee_domain_id := "domain";
     data_ackee_opts := None |}.

Definition null_element : element :=
  {| data_ackee_server := Some "https://t.example"; data_ackee_domain_id := "domain";
     data_ackee_opts := Some "null" |}.

(** * Proofs

    ** The model at work *)

Example three_periods_three_refreshes :
  List.filter is_callback_call (log (run tracker init three_periods)) =
  [ Called_onCreate 0 (VStr "abc123");
    Called_onUpdate 0 (VStr "abc123");
    Called_onUpdate 0 (VStr "abc123");
    Called_onUpdate 0 (VStr "abc123") ].
Proof. reflexivity. Qed.

Example interval_not_due_does_not_fire :
  run tracker init (visit_started ++ [Tick 0]) = run tracker init visit_started.
Proof. reflexivity. Qed.

Example stopped_interval_is_cleared :
  let w := run tracker init (visit_refreshing ++ [Call_stop 0; Elapse 15000; Tick 0]) in
  timers w = [] /\ List.length (refreshes 0 w) = 1.
Proof. split; reflexivity. Qed.

Example throwing_onCreate_sets_no_interval :
  let cbs := {| onCreate := Callback (fun _ => Throws TypeError); onUpdate := NoCallback |} in
  let w := run tracker init
             [Call_record site None cbs; Load 0 200 (Some (created "abc123"))] in
  timers w = [] /\
  log w = [Sent first_request; Called_onCreate 0 (VStr "abc123"); Uncaught TypeError].
Proof. split; reflexivity. Qed.

(** ** The eligibility predicates *)

Lemma isLocalhost_In (h : string) : isLocalhost h = true <-> In h local_hosts.
Proof.
  unfold isLocalhost, local_hosts. simpl.
  rewrite !orb_true_iff, !String.eqb_eq. intuition congruence.
Qed.

Section Folding.

Lemma lower_canonicalize (c : ascii) : lower (Regex.canonicalize c) = lower c.
Proof. destruct c as [[] [] [] [] [] [] [] []]; reflexivity. Qed.

Lemma canonicalize_lower (c : ascii) : Regex.canonicalize (lower c) = Regex.canonicalize c.
Proof. destruct c as [[] [] [] [] [] [] [] []]; reflexivity. Qed.

Lemma canonicalize_eq_lower (a b : ascii) :
  Regex.canonicalize a = Regex.canonicalize b <-> lower a = lower b.
Proof.
  split; intros H.
  - rewrite <- (lower_canonicalize a), <- (lower_canonicalize b). now rewrite H.
  - rewrite <- (canonicalize_lower a), <- (canonicalize_lower b). now rewrite H.
Qed.

Lemma literal_at_iff (pat s : string) :
  Regex.literal_at pat s = true <->
  exists stretch after, s = stretch +:+ after /\ lower_string stretch = lower_string pat.
Proof.
  revert s. induction pat as [|p pat IH]; intros s; simpl.
  - split; [intros _|reflexivity].
    exists EmptyString, s. split; reflexivity.
  - destruct s as [|c s].
    + split; [discriminate|]. intros (st & af & He & Hl).
      destruct st; simpl in *; discriminate.
    + rewrite andb_true_iff, Ascii.eqb_eq, canonicalize_eq_lower, IH. split.
      * intros (Hc & st & af & -> & Hl). exists (String c st), af. simpl.
        split; [reflexivity|]. now rewrite Hl, Hc.
      * intros (st & af & He & Hl). destruct st as [|c' st]; simpl in *; [discriminate|].
        injection He as -> ->. injection Hl as Hc Hl.
        split; [now rewrite Hc|]. exists st, af. split; [reflexivity|assumption].
Qed.

Lemma alternatives_at_iff (alts : list string) (s : string) :
  Regex.alternatives_at alts s = true <->
  exists word stretch after,
    In word alts /\ s = stretch +:+ after /\ lower_string stretch = lower_string word.
Proof.
  unfold Regex.alternatives_at. rewrite existsb_exists. split.
  - intros (w & Hin & Hm). apply literal_at_iff in Hm as (st & af & He & Hl).
    exists w, st, af. auto.
  - intros (w & st & af & Hin & He & Hl). exists w. split; [assumption|].
    apply literal_at_iff. exists st, af. auto.
Qed.

Lemma test_iff (alts : list string) (s : string) :
  Regex.test alts s = true <-> exists word, In word alts /\ contains_ci word s.
Proof.
  induction s as [|c s IH]; simpl.
  - rewrite orb_false_r, alternatives_at_iff. split.
    + intros (w & st & af & Hin & He & Hl). exists w. split; [assumption|].
      exists EmptyString, st, af. auto.
    + intros (w & Hin & bf & st & af & He & Hl). destruct bf; simpl in He; [|discriminate].
      exists w, st, af. auto.
  - rewrite orb_true_iff, alternatives_at_iff, IH. split.
    + intros [(w & st & af & Hin & He & Hl)|(w & Hin & bf & st & af & He & Hl)].
      * exists w. split; [assumption|]. exists EmptyString, st, af. auto.
      * exists w. split; [assumption|]. exists (String c bf), st, af.
        simpl. split; [now rewrite He|assumption].
    + intros (w & Hin & bf & st & af & He & Hl). destruct bf as [|c' bf]; simpl in He.
      * left. exists w, st, af. auto.
      * injection He as -> ->. right. exists w. split; [assumption|].
        exists bf, st, af. auto.
Qed.

End Folding.

(** ** Endpoint derivation *)

Section Endpoint.

Lemma append_cons (c : ascii) (a b : string) :
  String c a +:+ b = String c (a +:+ b).
Proof. reflexivity. Qed.

Lemma substring_last (c : ascii) (s : string) :
  String.substring (String.length s) 1 (String c s) =
  match s with
  | EmptyString => String c EmptyString
  | String c' s' => String.substring (String.length s') 1 (String c' s')
  end.
Proof. destruct s as [|c' s']; reflexivity. Qed.

Lemma substr_last (s : string) :
  Js.substr s (-1) = String.substring (String.length s - 1) 1 s.
Proof.
  unfold Js.substr. change (-1 <? 0)%Z with true. cbv iota.
  destruct s as [|c s]; [reflexivity|].
  cbn [String.length]. generalize (String.length s) as n. intros n.
  rewrite Z.max_l by lia.
  replace (Z.to_nat (Z.of_nat (S n) + -1)) with (S n - 1) by lia.
  replace (Z.to_nat (Z.of_nat (S n) - (Z.of_nat (S n) + -1))) with 1 by lia.
  reflexivity.
Qed.

Lemma last_is_slash (s : string) :
  String.eqb (Js.substr s (-1)) "/" = ends_with "/" s.
Proof.
  rewrite substr_last. induction s as [|c s IH]; [reflexivity|].
  cbn [String.length]. replace (S (String.length s) - 1) with (String.length s) by lia.
  rewrite substring_last. destruct s as [|c' s'].
  - simpl. now rewrite orb_false_r.
  - cbn [String.length] in IH.
    replace (S (String.length s') - 1) with (String.length s') in IH by lia.
    rewrite IH. cbn [ends_with].
    replace (String.eqb (String c (String c' s')) "/") with false; [reflexivity|].
    symmetry. apply String.eqb_neq. intros H. discriminate H.
Qed.

Lemma ends_with_slash_split (s : string) :
  ends_with "/" s = true -> s = strip_one_slash s +:+ "/".
Proof.
  induction s as [|c s IH]; [discriminate|].
  cbn [ends_with strip_one_slash]. intros H.
  destruct (String.eqb s "") eqn:Es.
  - apply String.eqb_eq in Es. subst s.
    simpl in H. rewrite orb_false_r in H.
    destruct (Ascii.eqb c "/") eqn:Ec; [|discriminate H].
    apply Ascii.eqb_eq in Ec. subst c. reflexivity.
  - rewrite andb_false_r. rewrite append_cons. f_equal. apply IH.
    apply orb_true_iff in H as [H|H]; [|assumption].
    apply String.eqb_eq in H. injection H as -> ->. discriminate Es.
Qed.

Lemma no_slash_strip_one (s : string) :
  ends_with "/" s = false -> strip_one_slash s = s.
Proof.
  induction s as [|c s IH]; [reflexivity|].
  cbn [ends_with strip_one_slash]. intros H.
  apply orb_false_iff in H as [H1 H2].
  destruct (Ascii.eqb c "/" && String.eqb s "") eqn:E.
  - apply andb_true_iff in E as [Ec Es].
    apply Ascii.eqb_eq in Ec. apply String.eqb_eq in Es. subst. discriminate H1.
  - now rewrite IH.
Qed.

Lemma endpoint_cases (s : string) :
  endpoint s = if ends_with "/" s then s +:+ "api" else s +:+ "/api".
Proof.
  unfold endpoint. rewrite last_is_slash. destruct (ends_with "/" s); reflexivity.
Qed.

Lemma app_assoc_string (a b c : string) : (a +:+ b) +:+ c = a +:+ (b +:+ c).
Proof. induction a as [|x a IH]; [reflexivity|]. now rewrite !append_cons, IH. Qed.

Lemma endpoint_strip_one (s : string) : endpoint s = strip_one_slash s +:+ "/api".
Proof.
  rewrite endpoint_cases. destruct (ends_with "/" s) eqn:E.
  - rewrite (ends_with_slash_split s E) at 1. now rewrite app_assoc_string.
  - now rewrite (no_slash_strip_one s E).
Qed.

Lemma strip_slashes_fixed (s : string) :
  ends_with "/" s = false -> strip_slashes s = s.
Proof.
  induction s as [|c s IH]; [reflexivity|].
  cbn [ends_with strip_slashes]. intros H.
  apply orb_false_iff in H as [H1 H2]. rewrite (IH H2).
  destruct (Ascii.eqb c "/" && String.eqb s "") eqn:E; [|reflexivity].
  apply andb_true_iff in E as [Ec Es].
  apply Ascii.eqb_eq in Ec. apply String.eqb_eq in Es. subst. discriminate H1.
Qed.

Lemma strip_one_no_slash (s : string) :
  ends_with "//" s = false -> ends_with "/" (strip_one_slash s) = false.
Proof.
  induction s as [|c s IH]; [reflexivity|].
  cbn [ends_with strip_one_slash]. intros H.
  apply orb_false_iff in H as [H1 H2].
  destruct (Ascii.eqb c "/" && String.eqb s "") eqn:E; [reflexivity|].
  cbn [ends_with]. rewrite (IH H2), orb_false_r.
  apply String.eqb_neq. intros Heq. injection Heq as -> Hs.
  destruct s as [|c' s']; [discriminate E|].
  cbn [strip_one_slash] in Hs.
  destruct (Ascii.eqb c' "/" && String.eqb s' "") eqn:E'; [|discriminate Hs].
  apply andb_true_iff in E' as [Ec Es].
  apply Ascii.eqb_eq in Ec. apply String.eqb_eq in Es. subst. discriminate H1.
Qed.

Lemma strip_slashes_one (s : string) :
  strip_slashes (strip_one_slash s) = strip_slashes s.
Proof.
  induction s as [|c s IH]; [reflexivity|].
  cbn [strip_one_slash].
  destruct (Ascii.eqb c "/" && String.eqb s "") eqn:E.
  - apply andb_true_iff in E as [Ec Es].
    apply Ascii.eqb_eq in Ec. apply String.eqb_eq in Es. subst. reflexivity.
  - cbn [strip_slashes]. now rewrite IH.
Qed.

Lemma endpoint_one_slash (s : string) :
  ends_with "//" s = false -> endpoint s = with_one_trailing_slash s +:+ "api".
Proof.
  intros H. rewrite endpoint_strip_one. unfold with_one_trailing_slash.
  rewrite <- strip_slashes_one, (strip_slashes_fixed _ (strip_one_no_slash s H)).
  now rewrite app_assoc_string.
Qed.

End Endpoint.

(** ** Every step of the loop is a move *)

Section Moves.

Variable inst : instance.

Lemma find_timer_Some tid w t :
  find_timer tid w = Some t -> In t (timers w) /\ t_id t = tid.
Proof.
  unfold find_timer. intros H. apply find_some in H as [Hin Heq].
  split; [assumption|]. now apply Nat.eqb_eq.
Qed.

Lemma find_xhr_Some xid w x :
  find_xhr xid w = Some x -> In x (pending w) /\ x_id x = xid.
Proof.
  unfold find_xhr. intros H. apply find_some in H as [Hin Heq].
  split; [assumption|]. now apply Nat.eqb_eq.
Qed.

Lemma task_throw e w : task (A := unit) (throw e) w = emit (Uncaught e) w.
Proof. reflexivity. Qed.

Lemma completes_apply_id_kont k arg w :
  (exists e, task (apply_id_kont k arg) w = emit (Uncaught e) w) \/
  completes w k (task (apply_id_kont k arg) w).
Proof.
  destruct k as [sid|sid recordId]; unfold task, apply_id_kont.
  - destruct (isFakeRecordId arg) eqn:Hfake.
    + right. apply completes_fake.
    + right. unfold bind, call, act, ret, throw.
      destruct (session_onCreate sid w) as [|body]; cbn.
      * now apply completes_created.
      * destruct (body arg); cbn.
        -- now apply completes_created.
        -- now apply completes_onCreate_throws.
  - right. unfold bind, call, act, ret, throw.
    destruct (session_onUpdate sid w) as [|body]; cbn.
    + apply completes_updated.
    + destruct (body recordId); cbn.
      * apply completes_updated.
      * apply completes_onUpdate_throws.
Qed.

Lemma completes_apply_json_kont k json w :
  (exists e, task (apply_json_kont k json) w = emit (Uncaught e) w) \/
  completes w (json_kont_next k) (task (apply_json_kont k json) w).
Proof.
  destruct k as [next|recordId next]; cbn [apply_json_kont json_kont_next].
  - unfold task, bind, lift.
    destruct (created_id json) as [id|e]; [|left; now exists e].
    apply completes_apply_id_kont.
  - apply completes_apply_id_kont.
Qed.

Lemma completes_xhr_onload k status parsed w :
  (exists e, task (xhr_onload (apply_json_kont k) status parsed) w = emit (Uncaught e) w) \/
  completes w (json_kont_next k) (task (xhr_onload (apply_json_kont k) status parsed) w).
Proof.
  unfold xhr_onload.
  destruct (negb (status =? 200)%Z); [left; eexists; reflexivity|].
  destruct parsed as [json|]; [|left; eexists; reflexivity].
  unfold task, bind, lift.
  destruct (Js.get json "errors") as [errors|e]; [|left; now exists e].
  destruct (Js.not_nullish errors).
  - destruct (Js.get0 errors) as [first|e]; [|left; now exists e].
    destruct (Js.get first "message") as [message|e]; left; eexists; reflexivity.
  - apply completes_apply_json_kont.
Qed.

Lemma step_moves w e : moves (server inst) w (step inst w e).
Proof.
  destruct e as [env attrs cbs|env recordId cbs|handle|dt|tid|xid status parsed|xid];
    cbn [step].
  - unfold task, _record, bind, new_session.
    destruct (ignoreLocalhost (opts inst) && isLocalhost (hostname env)); cbn.
    { apply moves_ineligible. }
    destruct (isBot (userAgent env)); cbn.
    { apply moves_ineligible. }
    apply moves_record.
  - unfold task, _updateRecord, bind, new_session.
    destruct (ignoreLocalhost (opts inst) && isLocalhost (hostname env)); cbn.
    { apply moves_ineligible. }
    destruct (isBot (userAgent env)); cbn.
    { apply moves_ineligible. }
    destruct (isFakeRecordId recordId); cbn.
    { apply moves_ineligible. }
    apply moves_resume.
  - apply moves_stop.
  - apply moves_elapse.
  - destruct (find_timer tid w) as [t|] eqn:Hfind; [|apply moves_idle].
    apply find_timer_Some in Hfind as [Hin Hid].
    destruct (t_due t <=? now w)%N eqn:Hdue; [|apply moves_idle].
    apply N.leb_le in Hdue. apply moves_rearm.
    unfold task, heartbeat.
    destruct (stopped (t_sid t) w) eqn:Hstop; cbn.
    + now apply moves_tick_cleared.
    + now apply moves_tick_refresh.
  - destruct (find_xhr xid w) as [x|] eqn:Hfind; [|apply moves_idle].
    apply find_xhr_Some in Hfind as [Hin Hid]. subst xid.
    destruct (completes_xhr_onload (x_onload x) status parsed (drop_xhr (x_id x) w))
      as [[e ->]|Hc].
    + now apply moves_load_error.
    + now apply moves_load with x.
  - apply moves_netfail.
Qed.

End Moves.

(** ** Lists, sessions and what belongs to them *)

Section ListFacts.

Context {A : Type}.

Lemma filter_nil_Forall (P : A -> bool) (l : list A) :
  List.filter P l = [] <-> Forall (fun x => P x = false) l.
Proof.
  induction l as [|a l IH]; simpl.
  - split; [constructor|reflexivity].
  - destruct (P a) eqn:E.
    + split; [discriminate|]. intros H. inversion H; congruence.
    + rewrite IH. split; [now constructor|]. intros H. now inversion H.
Qed.

Lemma filter_nil_In (P : A -> bool) (l : list A) (x : A) :
  List.filter P l = [] -> In x l -> P x = false.
Proof.
  intros H Hin. apply filter_nil_Forall in H.
  rewrite List.Forall_forall in H. now apply H.
Qed.

Lemma filter_not_nil (P : A -> bool) (l : list A) (x : A) :
  In x l -> P x = true -> List.filter P l <> [].
Proof.
  intros Hin HP H. apply (filter_nil_In _ _ _ H) in Hin. congruence.
Qed.

Lemma filter_filter_comm (P Q : A -> bool) (l : list A) :
  List.filter P (List.filter Q l) = List.filter Q (List.filter P l).
Proof.
  induction l as [|a l IH]; simpl; [reflexivity|].
  destruct (Q a) eqn:EQ, (P a) eqn:EP; simpl; rewrite ?EQ, ?EP, IH; reflexivity.
Qed.

Lemma filter_length_le (P : A -> bool) (l : list A) :
  length (List.filter P l) <= length l.
Proof.
  induction l as [|a l IH]; simpl; [lia|]. destruct (P a); simpl; lia.
Qed.

Lemma filter_filter_nil (P Q : A -> bool) (l : list A) :
  List.filter P l = [] -> List.filter P (List.filter Q l) = [].
Proof. intros H. rewrite filter_filter_comm, H. reflexivity. Qed.

Lemma filter_filter_length (P Q : A -> bool) (l : list A) :
  length (List.filter P (List.filter Q l)) <= length (List.filter P l).
Proof. rewrite filter_filter_comm. apply filter_length_le. Qed.

Lemma filter_snoc (P : A -> bool) (l : list A) (x : A) :
  List.filter P (l ++ [x]) = List.filter P l ++ (if P x then [x] else []).
Proof. rewrite List.filter_app. reflexivity. Qed.

(** Among at most one element that satisfies [P], dropping it by a
    test [Q] it fails leaves none. *)
Lemma filter_single_drop (P Q : A -> bool) (l : list A) (x : A) :
  length (List.filter P l) <= 1 -> In x l -> P x = true -> Q x = false ->
  List.filter P (List.filter Q l) = [].
Proof.
  intros Hlen Hin HP HQ. rewrite filter_filter_comm.
  assert (Hx : In x (List.filter P l)) by (apply filter_In; auto).
  destruct (List.filter P l) as [|y [|z r]].
  - destruct Hx.
  - destruct Hx as [->|[]]. simpl. now rewrite HQ.
  - simpl in Hlen. lia.
Qed.

End ListFacts.

Section Sessions.

Lemma lookup_alter_stopped (l : list session) (h i : nat) (s : session) :
  alter set_stopped h l !! i = Some s ->
  exists s', l !! i = Some s' /\ started_at s' = started_at s /\
             s_onCreate s' = s_onCreate s /\ s_onUpdate s' = s_onUpdate s.
Proof.
  destruct (decide (h = i)) as [->|Hne].
  - rewrite list_lookup_alter_eq. destruct (l !! i) as [s'|]; cbn; [|discriminate].
    intros H. injection H as <-. exists s'. auto.
  - rewrite list_lookup_alter_ne by assumption. intros H. exists s. auto.
Qed.

Lemma lookup_stopped_alter (l : list session) (h i : nat) (s : session) :
  l !! i = Some s ->
  exists s', alter set_stopped h l !! i = Some s' /\ started_at s' = started_at s.
Proof.
  intros H. destruct (decide (h = i)) as [->|Hne].
  - rewrite list_lookup_alter_eq, H. simpl. eexists. split; reflexivity.
  - rewrite list_lookup_alter_ne by assumption. exists s. auto.
Qed.

Lemma creating_sid sid x : creating sid x = true -> json_kont_sid (x_onload x) = sid.
Proof.
  unfold creating, json_kont_sid, json_kont_next.
  destruct (x_onload x) as [[s|s r]|r' [s|s r]]; simpl; try discriminate;
    intros H; now apply Nat.eqb_eq in H.
Qed.

Lemma updating_sid sid x : updating sid x = true -> json_kont_sid (x_onload x) = sid.
Proof.
  unfold updating, json_kont_sid, json_kont_next.
  destruct (x_onload x) as [[s|s r]|r' [s|s r]]; simpl; try discriminate;
    intros H; now apply Nat.eqb_eq in H.
Qed.

Lemma activity_about sid e : activity sid e = true -> about sid e = true.
Proof.
  destruct e; simpl; auto. intros H. now apply andb_true_iff in H as [_ H].
Qed.

Lemma refresh_activity sid e : refresh_of sid e = true -> activity sid e = true.
Proof. destruct e; simpl; auto; discriminate. Qed.

Lemma started_by_mono w sid d d' : (d <= d')%N -> started_by w sid d -> started_by w sid d'.
Proof. intros Hd (s & t0 & Hs & Ht & Hle). exists s, t0. repeat split; auto. lia. Qed.

(** Nothing belongs to a session that does not exist yet. *)
Lemma inv_fresh w n :
  inv w -> length (sessions w) <= n ->
  timers_of n w = [] /\ creating_of n w = [] /\ updating_of n w = [] /\
  List.filter (about n) (log w) = [].
Proof.
  intros [Ht Hp Hl _ _ _ _ _ _ _] Hn. repeat split; apply filter_nil_Forall.
  - eapply Forall_impl; [exact Ht|]. intros t H. simpl in H.
    apply Nat.eqb_neq. lia.
  - eapply Forall_impl; [exact Hp|]. intros x H. simpl in H.
    destruct (creating n x) eqn:E; [|reflexivity]. apply creating_sid in E. lia.
  - eapply Forall_impl; [exact Hp|]. intros x H. simpl in H.
    destruct (updating n x) eqn:E; [|reflexivity]. apply updating_sid in E. lia.
  - eapply Forall_impl; [exact Hl|]. intros e H. simpl in H.
    destruct (about n e) eqn:E; [|reflexivity]. specialize (H n E). lia.
Qed.

Lemma filter_activity_about sid l :
  List.filter (about sid) l = [] -> List.filter (activity sid) l = [].
Proof.
  rewrite !filter_nil_Forall. intros HF. eapply Forall_impl; [exact HF|].
  intros e H. simpl in H.
  destruct (activity sid e) eqn:E; [|reflexivity]. apply activity_about in E. congruence.
Qed.

Lemma filter_refresh_activity sid l :
  List.filter (activity sid) l = [] -> List.filter (refresh_of sid) l = [].
Proof.
  rewrite !filter_nil_Forall. intros HF. eapply Forall_impl; [exact HF|].
  intros e H. simpl in H.
  destruct (refresh_of sid e) eqn:E; [|reflexivity]. apply refresh_activity in E. congruence.
Qed.

End Sessions.

(** ** The invariant holds initially and is kept by each change of the world *)

Ltac unfold_obs :=
  unfold timers_of, creating_of, updating_of, refreshes, started_by in *.

Section Invariant.

Lemma inv_init : inv init.
Proof.
  constructor; unfold_obs; cbn; try apply List.Forall_nil; try (intros; congruence).
  - intros; lia.
  - intros sid s t0 H. rewrite lookup_nil in H. discriminate.
Qed.

Lemma inv_emit w e :
  inv w ->
  (forall sid, about sid e = true -> sid < length (sessions w)) ->
  (forall sid, activity sid e = true -> creating_of sid w = []) ->
  (forall sid, refresh_of sid e = true -> started_by w sid (now w)) ->
  with_credentials e ->
  inv (emit e w).
Proof.
  intros [H1 H2 H3 H4 H5 H6 H7 H8 H9 H10] Ha Hb Hc Hd.
  constructor; unfold_obs; cbn; try assumption.
  - apply Forall_app. split; [assumption|]. constructor; [assumption|constructor].
  - intros sid Hcr. destruct (H5 sid Hcr) as [Hu Hact]. split; [assumption|].
    rewrite filter_snoc, Hact. destruct (activity sid e) eqn:E; [|reflexivity].
    apply Hb in E. contradiction.
  - intros sid. rewrite filter_snoc. destruct (refresh_of sid e) eqn:E.
    + intros _. now apply Hc.
    + rewrite app_nil_r. apply H9.
  - apply Forall_app. split; [assumption|]. constructor; [assumption|constructor].
Qed.

Lemma inv_emit_plain w e :
  inv w -> (forall sid, about sid e = false) -> inv (emit e w).
Proof.
  intros Hinv Hab. apply inv_emit; try assumption.
  - intros sid H. rewrite Hab in H. discriminate.
  - intros sid H. apply activity_about in H. rewrite Hab in H. discriminate.
  - intros sid H. apply refresh_activity, activity_about in H.
    rewrite Hab in H. discriminate.
  - destruct e; try exact I. specialize (Hab (json_kont_sid (x_onload x))).
    simpl in Hab. rewrite Nat.eqb_refl in Hab. discriminate.
Qed.

Lemma inv_alloc w cb1 cb2 : inv w -> inv (alloc_session cb1 cb2 w).
Proof.
  intros [H1 H2 H3 H4 H5 H6 H7 H8 H9 H10].
  constructor; unfold_obs; cbn; try assumption.
  - eapply Forall_impl; [exact H1|]. intros t H. simpl in *. rewrite length_app. lia.
  - eapply Forall_impl; [exact H2|]. intros t H. simpl in *. rewrite length_app. lia.
  - eapply Forall_impl; [exact H3|]. intros t H sid Hs. simpl in *.
    rewrite length_app. specialize (H sid Hs). lia.
  - intros sid s t0 Hl Hs. apply lookup_app_Some in Hl as [Hl|[_ Hl]].
    + eapply H7; eassumption.
    + apply list_lookup_singleton_Some in Hl as [_ <-]. discriminate.
  - eapply Forall_impl; [exact H8|]. intros t (s & t0 & Hl & Hs & Hle). simpl.
    exists s, t0. split; [|auto]. now apply lookup_app_l_Some.
  - intros sid Hr. destruct (H9 sid Hr) as (s & t0 & Hl & Hs & Hle).
    exists s, t0. split; [|auto]. now apply lookup_app_l_Some.
Qed.

Lemma inv_stop w h : inv w -> inv (stop_world h w).
Proof.
  intros [H1 H2 H3 H4 H5 H6 H7 H8 H9 H10].
  constructor; unfold_obs; cbn; rewrite ?length_alter; try assumption.
  - intros sid s t0 Hl Hs. apply lookup_alter_stopped in Hl as (s' & Hl & Hst & _).
    eapply H7; [eassumption|congruence].
  - eapply Forall_impl; [exact H8|]. intros t (s & t0 & Hl & Hs & Hle). simpl.
    destruct (lookup_stopped_alter _ h _ _ Hl) as (s' & Hl' & Hst).
    exists s', t0. split; [assumption|]. split; [congruence|assumption].
  - intros sid Hr. destruct (H9 sid Hr) as (s & t0 & Hl & Hs & Hle).
    destruct (lookup_stopped_alter _ h _ _ Hl) as (s' & Hl' & Hst).
    exists s', t0. split; [assumption|]. split; [congruence|assumption].
Qed.

Lemma inv_elapse w dt : inv w -> inv (with_now (fun t => t + dt)%N w).
Proof.
  intros [H1 H2 H3 H4 H5 H6 H7 H8 H9 H10].
  constructor; unfold_obs; cbn; try assumption.
  - intros sid s t0 Hl Hs. specialize (H7 sid s t0 Hl Hs). lia.
  - intros sid Hr. destruct (H9 sid Hr) as (s & t0 & Hl & Hs & Hle).
    exists s, t0. repeat split; auto. lia.
Qed.

Lemma inv_drop_xhr w xid : inv w -> inv (drop_xhr xid w).
Proof.
  intros [H1 H2 H3 H4 H5 H6 H7 H8 H9 H10].
  constructor; unfold_obs; cbn; try assumption.
  - apply List.Forall_forall. intros x Hin. apply filter_In in Hin as [Hin _].
    rewrite List.Forall_forall in H2. now apply H2.
  - intros sid. specialize (H4 sid).
    pose proof (filter_filter_length (creating sid)
                  (fun x => negb (Nat.eqb (x_id x) xid)) (pending w)). lia.
  - intros sid Hcr. destruct (H5 sid) as [Hu Hact].
    + intros Hnil. apply Hcr. now apply filter_filter_nil.
    + split; [now apply filter_filter_nil|assumption].
Qed.

Lemma rearmed_sid clock tid t : t_sid (rearmed clock tid t) = t_sid t.
Proof. unfold rearmed. now destruct (Nat.eqb (t_id t) tid). Qed.

Lemma rearmed_delay clock tid t : t_delay (rearmed clock tid t) = t_delay t.
Proof. unfold rearmed. now destruct (Nat.eqb (t_id t) tid). Qed.

Lemma filter_rearmed clock tid sid (l : list timer) :
  List.filter (fun t => Nat.eqb (t_sid t) sid) (List.map (rearmed clock tid) l) =
  List.map (rearmed clock tid) (List.filter (fun t => Nat.eqb (t_sid t) sid) l).
Proof.
  induction l as [|t l IH]; [reflexivity|]. cbn [List.map List.filter].
  rewrite rearmed_sid. destruct (Nat.eqb (t_sid t) sid); cbn [List.map]; now rewrite IH.
Qed.

Lemma inv_rearm w tid : inv w -> inv (rearm tid w).
Proof.
  intros [H1 H2 H3 H4 H5 H6 H7 H8 H9 H10].
  constructor; unfold_obs; cbn; try assumption.
  - apply Forall_map. eapply Forall_impl; [exact H1|]. intros t H. simpl in *.
    now rewrite rearmed_sid.
  - intros sid. rewrite filter_rearmed, length_map. apply H4.
  - apply Forall_map. eapply Forall_impl; [exact H6|]. intros t H. simpl in *.
    now rewrite rearmed_delay.
  - apply Forall_map. rewrite List.Forall_forall in H6, H8. apply List.Forall_forall.
    intros t Hin. specialize (H6 t Hin). specialize (H8 t Hin). simpl in *.
    rewrite rearmed_sid. unfold rearmed.
    destruct (Nat.eqb (t_id t) tid); [|assumption]. simpl.
    destruct H8 as (s & t0 & Hl & Hs & Hle). exists s, t0. repeat split; auto.
    specialize (H7 _ _ _ Hl Hs). rewrite H6. lia.
Qed.

End Invariant.

Section Invariant2.

Lemma inv_filter_timers w P : inv w -> inv (with_timers (List.filter P) w).
Proof.
  intros [H1 H2 H3 H4 H5 H6 H7 H8 H9 H10].
  assert (Hsub : forall Q, Forall Q (timers w) -> Forall Q (List.filter P (timers w))).
  { intros Q HQ. rewrite List.Forall_forall in *. intros t Hin.
    apply filter_In in Hin as [Hin _]. now apply HQ. }
  constructor; unfold_obs; cbn; try assumption; try now apply Hsub.
  intros sid. specialize (H4 sid).
  pose proof (filter_filter_length (fun t => Nat.eqb (t_sid t) sid) P (timers w)). lia.
Qed.

Lemma inv_clear w tid : inv w -> inv (clearInterval_world tid w).
Proof.
  intros H. apply inv_emit_plain; [|reflexivity]. now apply inv_filter_timers.
Qed.

Lemma creating_not_updating sid sid' x : creating sid x = true -> updating sid' x = false.
Proof.
  unfold creating, updating. now destruct (json_kont_next (x_onload x)).
Qed.

Lemma inv_add_pending w x :
  inv w ->
  json_kont_sid (x_onload x) < length (sessions w) ->
  (forall sid, creating sid x = true ->
     timers_of sid w = [] /\ creating_of sid w = [] /\ updating_of sid w = [] /\
     List.filter (activity sid) (log w) = []) ->
  (forall sid, updating sid x = true -> creating_of sid w = []) ->
  inv (with_next_xhr S (with_pending (fun l => l ++ [x]) w)).
Proof.
  intros [H1 H2 H3 H4 H5 H6 H7 H8 H9 H10] Hsid Hcr Hup.
  constructor; unfold_obs; cbn; try assumption.
  - apply Forall_app. split; [assumption|]. constructor; [assumption|constructor].
  - intros sid. rewrite filter_snoc, length_app. destruct (creating sid x) eqn:E.
    + destruct (Hcr sid E) as (-> & -> & _). simpl. lia.
    + specialize (H4 sid). simpl. lia.
  - intros sid. rewrite !filter_snoc. destruct (creating sid x) eqn:E.
    + intros _. destruct (Hcr sid E) as (_ & _ & -> & ->).
      now rewrite (creating_not_updating _ sid _ E).
    + rewrite app_nil_r. intros Hne. destruct (H5 sid Hne) as [-> ->].
      destruct (updating sid x) eqn:E'; [|auto].
      apply Hup in E'. contradiction.
Qed.

Lemma inv_send_create w url body cb1 cb2 :
  inv w ->
  inv (send_world url body (RecordNext (RecordCallback (length (sessions w))))
         (alloc_session cb1 cb2 w)).
Proof.
  intros Hinv. pose proof (inv_fresh w _ Hinv (Nat.le_refl _)) as (Ht & Hc & Hu & Ha).
  unfold send_world. apply inv_emit.
  - apply inv_add_pending.
    + now apply inv_alloc.
    + cbn. rewrite length_app. simpl. lia.
    + intros sid E. unfold creating in E. cbn in E. apply Nat.eqb_eq in E. subst sid.
      repeat split; try assumption. now apply filter_activity_about.
    + intros sid E. discriminate E.
  - intros sid E. cbn in E. apply Nat.eqb_eq in E. subst sid.
    cbn. rewrite length_app. simpl. lia.
  - intros sid E. discriminate E.
  - intros sid E. discriminate E.
  - reflexivity.
Qed.

Lemma timer_not_creating w t :
  inv w -> In t (timers w) -> creating_of (t_sid t) w = [].
Proof.
  intros Hinv Hin. pose proof (inv_single w Hinv (t_sid t)) as H.
  assert (Ht : In t (timers_of (t_sid t) w)).
  { apply filter_In. split; [assumption|apply Nat.eqb_refl]. }
  destruct (timers_of (t_sid t) w); [destruct Ht|].
  destruct (creating_of (t_sid t) w); [reflexivity|simpl in H; lia].
Qed.

Lemma inv_send_refresh w url body t recordId :
  inv w -> In t (timers w) -> (t_due t <= now w)%N ->
  inv (send_world url body (UpdateNext recordId (UpdateCallback (t_sid t) recordId)) w).
Proof.
  intros Hinv Hin Hdue.
  pose proof (timer_not_creating w t Hinv Hin) as Hc.
  assert (Hv : t_sid t < length (sessions w)).
  { pose proof (inv_timers_valid w Hinv) as H. rewrite List.Forall_forall in H. now apply H. }
  assert (Hs : started_by w (t_sid t) (now w)).
  { pose proof (inv_timer_started w Hinv) as H. rewrite List.Forall_forall in H.
    eapply started_by_mono; [exact Hdue|]. now apply H. }
  unfold send_world. apply inv_emit.
  - apply inv_add_pending; try assumption.
    + intros sid E. discriminate E.
    + intros sid E. unfold updating in E. cbn in E. apply Nat.eqb_eq in E. now subst sid.
  - intros sid E. cbn in E. apply Nat.eqb_eq in E. now subst sid.
  - intros sid E. cbn in E. apply Nat.eqb_eq in E. subst sid.
    unfold creating_of. cbn. rewrite filter_snoc. unfold creating_of in Hc. now rewrite Hc.
  - intros sid E. cbn in E. apply Nat.eqb_eq in E. now subst sid.
  - reflexivity.
Qed.

Lemma lookup_alter_started (l : list session) (clock : N) (sid i : nat) (s : session) :
  alter (set_started clock) sid l !! i = Some s ->
  (i = sid /\ started_at s = Some clock) \/ (i <> sid /\ l !! i = Some s).
Proof.
  destruct (decide (sid = i)) as [->|Hne].
  - rewrite list_lookup_alter_eq. destruct (l !! i) as [s'|]; cbn; [|discriminate].
    intros H. injection H as <-. left. auto.
  - rewrite list_lookup_alter_ne by assumption. intros H. right. auto.
Qed.

Lemma inv_setInterval w sid recordId :
  inv w -> sid < length (sessions w) ->
  timers_of sid w = [] -> creating_of sid w = [] -> refreshes sid w = [] ->
  inv (setInterval_world sid recordId period w).
Proof.
  intros Hinv Hsid Ht Hc Hr.
  assert (Hsess : exists s, sessions w !! sid = Some s) by now apply lookup_lt_is_Some.
  destruct Hsess as [s0 Hs0].
  unfold setInterval_world. apply inv_emit.
  - destruct Hinv as [H1 H2 H3 H4 H5 H6 H7 H8 H9 H10].
    constructor; unfold_obs; cbn; rewrite ?length_alter; try assumption.
    + apply Forall_app. split; [assumption|]. constructor; [assumption|constructor].
    + intros sid'. rewrite filter_snoc, length_app. cbn.
      destruct (Nat.eqb sid sid') eqn:E.
      * apply Nat.eqb_eq in E. subst sid'. rewrite Ht, Hc. simpl. lia.
      * specialize (H4 sid'). simpl. lia.
    + apply Forall_app. split; [assumption|]. constructor; [reflexivity|constructor].
    + intros i s t0 Hl Hst. apply lookup_alter_started in Hl as [[-> Hl]|[Hne Hl]].
      * rewrite Hl in Hst. injection Hst as <-. lia.
      * eapply H7; eassumption.
    + apply Forall_app. split.
      * rewrite List.Forall_forall in H8 |- *. intros t Hin.
        destruct (H8 t Hin) as (s & t0 & Hl & Hst & Hle).
        assert (Hne : sid <> t_sid t).
        { intros ->. apply (filter_nil_In _ _ _ Ht) in Hin.
          simpl in Hin. rewrite Nat.eqb_refl in Hin. discriminate. }
        exists s, t0. rewrite list_lookup_alter_ne by assumption. auto.
      * constructor; [|constructor]. cbn.
        exists (set_started (now w) s0), (now w).
        rewrite list_lookup_alter_eq, Hs0. cbn. repeat split. lia.
    + intros sid' Hne. destruct (H9 sid' Hne) as (s & t0 & Hl & Hst & Hle).
      assert (Hd : sid <> sid') by (intros ->; contradiction).
      exists s, t0. rewrite list_lookup_alter_ne by assumption. auto.
  - intros sid' E. cbn in E. apply Nat.eqb_eq in E. subst sid'.
    cbn. now rewrite length_alter.
  - intros sid' E. cbn in E. apply Nat.eqb_eq in E. now subst sid'.
  - intros sid' E. discriminate E.
  - exact I.
Qed.

End Invariant2.

Section Invariant3.

Lemma json_kont_sid_next k : json_kont_sid k = id_kont_sid (json_kont_next k).
Proof. now destruct k. Qed.

Lemma pending_creating w x sid :
  inv w -> In x (pending w) -> json_kont_next (x_onload x) = RecordCallback sid ->
  sid < length (sessions w) /\ timers_of sid w = [] /\
  creating_of sid (drop_xhr (x_id x) w) = [] /\ updating_of sid w = [] /\
  List.filter (activity sid) (log w) = [].
Proof.
  intros Hinv Hin Hk.
  assert (Hcx : creating sid x = true).
  { unfold creating. rewrite Hk. apply Nat.eqb_refl. }
  assert (Hne : creating_of sid w <> []) by now apply filter_not_nil with x.
  pose proof (inv_single w Hinv sid) as H4.
  destruct (inv_creating w Hinv sid Hne) as [Hu Ha].
  repeat split; try assumption.
  - pose proof (inv_pending_valid w Hinv) as H. rewrite List.Forall_forall in H.
    specialize (H x Hin). simpl in H. now rewrite json_kont_sid_next, Hk in H.
  - destruct (timers_of sid w); [reflexivity|].
    destruct (creating_of sid w); [congruence|simpl in H4; lia].
  - unfold creating_of. cbn. apply filter_single_drop with x; try assumption.
    + unfold creating_of in H4. lia.
    + now rewrite Nat.eqb_refl.
Qed.

Lemma pending_updating w x sid recordId :
  inv w -> In x (pending w) ->
  json_kont_next (x_onload x) = UpdateCallback sid recordId ->
  sid < length (sessions w) /\ creating_of sid w = [].
Proof.
  intros Hinv Hin Hk.
  assert (Hux : updating sid x = true).
  { unfold updating. rewrite Hk. apply Nat.eqb_refl. }
  split.
  - pose proof (inv_pending_valid w Hinv) as H. rewrite List.Forall_forall in H.
    specialize (H x Hin). simpl in H. now rewrite json_kont_sid_next, Hk in H.
  - destruct (creating_of sid w) eqn:E; [reflexivity|].
    destruct (inv_creating w Hinv sid) as [Hu _]; [congruence|].
    exfalso. now apply (filter_not_nil (updating sid) (pending w) x).
Qed.

Lemma inv_called_onCreate w x sid recordId :
  inv w -> In x (pending w) -> json_kont_next (x_onload x) = RecordCallback sid ->
  inv (emit (Called_onCreate sid recordId) (drop_xhr (x_id x) w)).
Proof.
  intros Hinv Hin Hk.
  destruct (pending_creating w x sid Hinv Hin Hk) as (Hv & Ht & Hc & Hu & Ha).
  apply inv_emit.
  - now apply inv_drop_xhr.
  - intros s E. cbn in E. apply Nat.eqb_eq in E. now subst s.
  - intros s E. cbn in E. apply Nat.eqb_eq in E. now subst s.
  - intros s E. discriminate E.
  - exact I.
Qed.

Lemma inv_called_onUpdate w x sid recordId :
  inv w -> In x (pending w) ->
  json_kont_next (x_onload x) = UpdateCallback sid recordId ->
  inv (emit (Called_onUpdate sid recordId) (drop_xhr (x_id x) w)).
Proof.
  intros Hinv Hin Hk.
  destruct (pending_updating w x sid recordId Hinv Hin Hk) as (Hv & Hc).
  apply inv_emit.
  - now apply inv_drop_xhr.
  - intros s E. cbn in E. apply Nat.eqb_eq in E. now subst s.
  - intros s E. cbn in E. apply Nat.eqb_eq in E. subst s.
    unfold creating_of in *. cbn. now apply filter_filter_nil.
  - intros s E. discriminate E.
  - exact I.
Qed.

Lemma inv_completes w x w' :
  inv w -> In x (pending w) ->
  completes (drop_xhr (x_id x) w) (json_kont_next (x_onload x)) w' ->
  inv w'.
Proof.
  intros Hinv Hin Hc.
  inversion Hc as [sid Hk|sid recordId e Hfake Hk|sid recordId Hfake Hk
                  |sid recordId Hk|sid recordId e Hk]; subst w'; symmetry in Hk.
  - apply inv_emit_plain; [now apply inv_drop_xhr|reflexivity].
  - apply inv_emit_plain; [|reflexivity]. now apply inv_called_onCreate.
  - destruct (pending_creating w x sid Hinv Hin Hk) as (Hv & Ht & Hcr & Hu & Ha).
    apply inv_setInterval; try assumption.
    + now apply inv_called_onCreate.
    + unfold refreshes. cbn. rewrite filter_snoc. cbn. rewrite app_nil_r.
      now apply filter_refresh_activity.
  - now apply inv_called_onUpdate.
  - apply inv_emit_plain; [|reflexivity]. now apply inv_called_onUpdate.
Qed.

Lemma inv_moves server w w' : inv w -> moves server w w' -> inv w'.
Proof.
  intros Hinv Hm.
  induction Hm as [|cb1 cb2 msg|cb1 cb2 body|cb recordId|handle|dt
                  |t Hin Hst|t Hin Hst Hdue|tid w0 Hm IH|x e Hin|x w' Hin Hc|xid].
  - assumption.
  - apply inv_emit_plain; [now apply inv_alloc|reflexivity].
  - now apply inv_send_create.
  - destruct (inv_fresh w _ Hinv (Nat.le_refl _)) as (Ht & Hc & Hu & Ha).
    apply inv_setInterval; try assumption.
    + now apply inv_alloc.
    + cbn. rewrite length_app. simpl. lia.
    + now apply filter_refresh_activity, filter_activity_about.
  - now apply inv_stop.
  - now apply inv_elapse.
  - now apply inv_clear.
  - now apply inv_send_refresh.
  - now apply inv_rearm.
  - apply inv_emit_plain; [now apply inv_drop_xhr|reflexivity].
  - now apply inv_completes with w x.
  - now apply inv_drop_xhr.
Qed.

Variable inst : instance.

Lemma inv_step w e : inv w -> inv (step inst w e).
Proof. intros H. eapply inv_moves; [exact H|apply step_moves]. Qed.

Lemma inv_run es w : inv w -> inv (run inst w es).
Proof.
  revert w. induction es as [|e es IH]; intros w H; [assumption|].
  apply IH. now apply inv_step.
Qed.

Lemma reachable_inv w : reachable inst w -> inv w.
Proof. intros [es ->]. apply inv_run, inv_init. Qed.

Lemma run_app w es1 es2 : run inst w (es1 ++ es2) = run inst (run inst w es1) es2.
Proof. unfold run. apply fold_left_app. Qed.

Lemma reachable_step w e : reachable inst w -> reachable inst (step inst w e).
Proof.
  intros [es ->]. exists (es ++ [e]). now rewrite run_app.
Qed.

Lemma reachable_run w es : reachable inst w -> reachable inst (run inst w es).
Proof.
  intros [es0 ->]. exists (es0 ++ es). now rewrite run_app.
Qed.

End Invariant3.

(** ** Quiet sessions *)

Section Quiet.

Lemma quiet_pending_sid sid w x :
  quiet sid w -> In x (pending w) -> id_kont_sid (json_kont_next (x_onload x)) <> sid.
Proof.
  intros (_ & Hc & Hu) Hin Heq.
  apply (filter_nil_In _ _ _ Hc) in Hin as Hc'.
  apply (filter_nil_In _ _ _ Hu) in Hin as Hu'.
  unfold creating in Hc'. unfold updating in Hu'.
  destruct (json_kont_next (x_onload x)); simpl in Heq; subst;
    rewrite Nat.eqb_refl in *; discriminate.
Qed.

Lemma quiet_timer_sid sid w t :
  quiet sid w -> In t (timers w) -> t_sid t <> sid.
Proof.
  intros (Ht & _ & _) Hin Heq. apply (filter_nil_In _ _ _ Ht) in Hin.
  simpl in Hin. subst. rewrite Nat.eqb_refl in Hin. discriminate.
Qed.

Lemma quiet_drop_xhr sid xid w : quiet sid w -> quiet sid (drop_xhr xid w).
Proof.
  intros (Ht & Hc & Hu). repeat split; unfold_obs; cbn;
    try assumption; now apply filter_filter_nil.
Qed.

Lemma quiet_setInterval sid s recordId w :
  s <> sid -> quiet sid w -> quiet sid (setInterval_world s recordId period w).
Proof.
  intros Hne (Ht & Hc & Hu). repeat split; unfold_obs; cbn; try assumption.
  rewrite filter_snoc, Ht. cbn. apply Nat.eqb_neq in Hne. now rewrite Hne.
Qed.

Lemma quiet_send sid k url body w :
  id_kont_sid (json_kont_next k) <> sid -> quiet sid w ->
  quiet sid (send_world url body k w).
Proof.
  intros Hne (Ht & Hc & Hu). repeat split; unfold_obs; cbn; try assumption.
  - rewrite filter_snoc, Hc. unfold creating. cbn.
    destruct (json_kont_next k); [|reflexivity].
    simpl in Hne. apply Nat.eqb_neq in Hne. now rewrite Hne.
  - rewrite filter_snoc, Hu. unfold updating. cbn.
    destruct (json_kont_next k); [reflexivity|].
    simpl in Hne. apply Nat.eqb_neq in Hne. now rewrite Hne.
Qed.

Lemma about_sent sid k x :
  x_onload x = k -> id_kont_sid (json_kont_next k) <> sid -> about sid (Sent x) = false.
Proof.
  intros <- Hne. cbn. rewrite json_kont_sid_next. now apply Nat.eqb_neq.
Qed.

(** A session without interval and without request in flight stays so,
    and nothing more is done on its behalf. *)
Lemma quiet_moves server sid w w' :
  sid < length (sessions w) -> quiet sid w -> moves server w w' ->
  sid < length (sessions w') /\ quiet sid w' /\
  exists l, log w' = log w ++ l /\ Forall (fun e => about sid e = false) l.
Proof.
  intros Hsid Hq Hm.
  induction Hm as [|cb1 cb2 msg|cb1 cb2 body|cb recordId|handle|dt
                  |t Hin Hst|t Hin Hst Hdue|tid w0 Hm IH|x e Hin|x w' Hin Hc|xid].
  - repeat split; try apply Hq; try assumption. exists []. rewrite app_nil_r. auto.
  - split; [cbn; rewrite length_app; lia|]. split; [exact Hq|].
    exists [Warn msg]. split; [reflexivity|]. repeat constructor.
  - split; [cbn; rewrite length_app; lia|]. split.
    + apply quiet_send; [cbn; lia|exact Hq].
    + eexists [_]. split; [reflexivity|]. constructor; [|constructor].
      cbn. apply Nat.eqb_neq. lia.
  - split; [cbn; rewrite length_alter, length_app; lia|]. split.
    + apply quiet_setInterval; [lia|exact Hq].
    + eexists [_]. split; [reflexivity|]. constructor; [|constructor].
      cbn. apply Nat.eqb_neq. lia.
  - split; [cbn; now rewrite length_alter|]. split; [exact Hq|].
    exists []. rewrite app_nil_r. auto.
  - split; [assumption|]. split; [exact Hq|]. exists []. rewrite app_nil_r. auto.
  - split; [assumption|]. split.
    + destruct Hq as (Ht & Hc & Hu). repeat split; unfold_obs; cbn; try assumption.
      now apply filter_filter_nil.
    + eexists [_]. split; [reflexivity|]. repeat constructor.
  - pose proof (quiet_timer_sid sid w t Hq Hin) as Hne.
    split; [assumption|]. split.
    + apply quiet_send; [exact Hne|exact Hq].
    + eexists [_]. split; [reflexivity|]. constructor; [|constructor].
      cbn. now apply Nat.eqb_neq.
  - destruct IH as (Hv & (Ht & Hc & Hu) & l & Hl & HF).
    split; [assumption|]. split.
    + repeat split; unfold_obs; cbn; try assumption.
      unfold timers_of in Ht. now rewrite filter_rearmed, Ht.
    + exists l. auto.
  - split; [assumption|]. split; [now apply quiet_drop_xhr|].
    eexists [_]. split; [reflexivity|]. repeat constructor.
  - pose proof (quiet_pending_sid sid w x Hq Hin) as Hne.
    pose proof (quiet_drop_xhr sid (x_id x) w Hq) as Hq'.
    inversion Hc as [s Hk|s recordId e Hfake Hk|s recordId Hfake Hk
                    |s recordId Hk|s recordId e Hk]; subst w';
      rewrite <- Hk in Hne; simpl in Hne; apply Nat.eqb_neq in Hne as Hne'.
    + split; [assumption|]. split; [exact Hq'|].
      eexists [_]. split; [reflexivity|]. repeat constructor.
    + split; [assumption|]. split; [exact Hq'|].
      eexists [_; _]. split; [cbn; now rewrite <- app_assoc|].
      repeat constructor. exact Hne'.
    + split; [cbn; now rewrite length_alter|]. split.
      * apply quiet_setInterval; [exact Hne|exact Hq'].
      * eexists [_; _]. split; [cbn; now rewrite <- app_assoc|].
        repeat constructor; exact Hne'.
    + split; [assumption|]. split; [exact Hq'|].
      eexists [_]. split; [reflexivity|]. repeat constructor. exact Hne'.
    + split; [assumption|]. split; [exact Hq'|].
      eexists [_; _]. split; [cbn; now rewrite <- app_assoc|].
      repeat constructor. exact Hne'.
  - split; [assumption|]. split; [now apply quiet_drop_xhr|].
    exists []. rewrite app_nil_r. auto.
Qed.

Variable inst : instance.

Lemma quiet_run sid es w :
  sid < length (sessions w) -> quiet sid w ->
  sid < length (sessions (run inst w es)) /\ quiet sid (run inst w es) /\
  List.filter (about sid) (log (run inst w es)) = List.filter (about sid) (log w).
Proof.
  revert w. induction es as [|e es IH]; intros w Hsid Hq; [auto|].
  destruct (quiet_moves _ sid w _ Hsid Hq (step_moves inst w e))
    as (Hsid' & Hq' & l & Hl & HF).
  destruct (IH _ Hsid' Hq') as (H1 & H2 & H3).
  change (run inst w (e :: es)) with (run inst (step inst w e) es).
  split; [assumption|]. split; [assumption|].
  rewrite H3, Hl, List.filter_app.
  apply filter_nil_Forall in HF. rewrite HF. apply app_nil_r.
Qed.

End Quiet.

(** ** Stopped sessions *)

Section Stopped.

Lemma stopped_valid sid w : stopped sid w = true -> sid < length (sessions w).
Proof.
  unfold stopped. destruct (sessions w !! sid) eqn:E; [|discriminate].
  intros _. apply lookup_lt_Some in E. exact E.
Qed.

Lemma stopped_alloc sid cb1 cb2 w :
  stopped sid w = true -> stopped sid (alloc_session cb1 cb2 w) = true.
Proof.
  unfold stopped. cbn. destruct (sessions w !! sid) eqn:E; [|discriminate].
  intros H. now rewrite (lookup_app_l_Some _ _ _ _ E).
Qed.

Lemma stopped_stop sid h w :
  stopped sid w = true -> stopped sid (stop_world h w) = true.
Proof.
  unfold stopped. cbn. destruct (sessions w !! sid) eqn:E; [|discriminate].
  intros H. destruct (decide (h = sid)) as [->|Hne].
  - now rewrite list_lookup_alter_eq, E.
  - now rewrite list_lookup_alter_ne, E.
Qed.

Lemma stopped_here sid w :
  sid < length (sessions w) -> stopped sid (stop_world sid w) = true.
Proof.
  intros H. apply lookup_lt_is_Some in H as [s Hs].
  unfold stopped. cbn. now rewrite list_lookup_alter_eq, Hs.
Qed.

Lemma stopped_setInterval sid s recordId delay w :
  stopped sid (setInterval_world s recordId delay w) = stopped sid w.
Proof.
  unfold stopped. cbn. destruct (decide (s = sid)) as [->|Hne].
  - rewrite list_lookup_alter_eq. now destruct (sessions w !! sid).
  - now rewrite list_lookup_alter_ne.
Qed.

(** Once a session is stopped it stays stopped, and no refresh is sent
    for it any more. *)
Lemma stopped_moves server sid w w' :
  stopped sid w = true -> moves server w w' ->
  stopped sid w' = true /\
  exists l, log w' = log w ++ l /\ Forall (fun e => refresh_of sid e = false) l.
Proof.
  intros Hs Hm.
  induction Hm as [|cb1 cb2 msg|cb1 cb2 body|cb recordId|handle|dt
                  |t Hin Hst|t Hin Hst Hdue|tid w0 Hm IH|x e Hin|x w' Hin Hc|xid].
  - split; [assumption|]. exists []. rewrite app_nil_r. auto.
  - split; [now apply stopped_alloc|]. eexists [_]. split; [reflexivity|].
    repeat constructor.
  - split; [now apply stopped_alloc|]. eexists [_]. split; [reflexivity|].
    repeat constructor.
  - split; [rewrite stopped_setInterval; now apply stopped_alloc|].
    eexists [_]. split; [reflexivity|]. repeat constructor.
  - split; [now apply stopped_stop|]. exists []. rewrite app_nil_r. auto.
  - split; [assumption|]. exists []. rewrite app_nil_r. auto.
  - split; [assumption|]. eexists [_]. split; [reflexivity|]. repeat constructor.
  - split; [assumption|]. eexists [_]. split; [reflexivity|].
    constructor; [|constructor]. cbn.
    destruct (Nat.eqb_spec (t_sid t) sid) as [Heq|Hne]; [|reflexivity].
    rewrite Heq in Hst. congruence.
  - destruct IH as (H1 & l & Hl & HF). split; [assumption|]. exists l. auto.
  - split; [assumption|]. eexists [_]. split; [reflexivity|]. repeat constructor.
  - inversion Hc as [s Hk|s recordId e Hfake Hk|s recordId Hfake Hk
                    |s recordId Hk|s recordId e Hk]; subst w'.
    + split; [assumption|]. eexists [_]. split; [reflexivity|]. repeat constructor.
    + split; [assumption|]. eexists [_; _].
      split; [cbn; now rewrite <- app_assoc|]. repeat constructor.
    + split; [now rewrite stopped_setInterval|]. eexists [_; _].
      split; [cbn; now rewrite <- app_assoc|]. repeat constructor.
    + split; [assumption|]. eexists [_]. split; [reflexivity|]. repeat constructor.
    + split; [assumption|]. eexists [_; _].
      split; [cbn; now rewrite <- app_assoc|]. repeat constructor.
  - split; [assumption|]. exists []. rewrite app_nil_r. auto.
Qed.

Lemma shaped_moves server w w' :
  Forall (fun x => well_shaped (x_onload x)) (pending w) -> moves server w w' ->
  Forall (fun x => well_shaped (x_onload x)) (pending w').
Proof.
  intros Hs Hm.
  assert (Hdrop : forall xid,
    Forall (fun x => well_shaped (x_onload x)) (pending (drop_xhr xid w))).
  { intros xid. cbn. rewrite List.Forall_forall in *. intros x Hin.
    apply filter_In in Hin as [Hin _]. now apply Hs. }
  induction Hm as [|cb1 cb2 msg|cb1 cb2 body|cb recordId|handle|dt
                  |t Hin Hst|t Hin Hst Hdue|tid w0 Hm IH|x e Hin|x w' Hin Hc|xid];
    try assumption; try apply Hdrop.
  - cbn. apply Forall_app. split; [assumption|]. repeat constructor.
  - cbn. apply Forall_app. split; [assumption|]. repeat constructor.
  - inversion Hc; subst w'; apply Hdrop.
Qed.

Variable inst : instance.

Lemma stopped_run sid es w :
  stopped sid w = true ->
  stopped sid (run inst w es) = true /\
  refreshes sid (run inst w es) = refreshes sid w.
Proof.
  revert w. induction es as [|e es IH]; intros w Hs; [auto|].
  destruct (stopped_moves _ sid w _ Hs (step_moves inst w e)) as (Hs' & l & Hl & HF).
  destruct (IH _ Hs') as (H1 & H2).
  change (run inst w (e :: es)) with (run inst (step inst w e) es).
  split; [assumption|]. rewrite H2. unfold refreshes. rewrite Hl, List.filter_app.
  apply filter_nil_Forall in HF. rewrite HF. apply app_nil_r.
Qed.

Lemma reachable_shaped w :
  reachable inst w -> Forall (fun x => well_shaped (x_onload x)) (pending w).
Proof.
  intros [es ->].
  assert (H0 : Forall (fun x => well_shaped (x_onload x)) (pending init))
    by apply List.Forall_nil.
  revert H0. generalize init. induction es as [|e es IH]; intros w Hw; [exact Hw|].
  apply IH. eapply shaped_moves; [exact Hw|apply step_moves].
Qed.

End Stopped.

(** ** The loop does not look at the flag of a session without interval *)

Section StopCommutes.

Lemma alter_comm {A} (f g : A -> A) (l : list A) (i j : nat) :
  (forall x, f (g x) = g (f x)) ->
  alter f i (alter g j l) = alter g j (alter f i l).
Proof.
  intros Hfg. revert i j.
  induction l as [|a l IH]; intros [|i] [|j]; cbn; f_equal; auto.
Qed.

Lemma stop_alloc sid cb1 cb2 w :
  sid < length (sessions w) ->
  alloc_session cb1 cb2 (stop_world sid w) = stop_world sid (alloc_session cb1 cb2 w).
Proof.
  intros H. unfold alloc_session, stop_world, with_sessions. cbn.
  now rewrite alter_app_l.
Qed.

Lemma stop_setInterval sid s recordId delay w :
  setInterval_world s recordId delay (stop_world sid w) =
  stop_world sid (setInterval_world s recordId delay w).
Proof.
  unfold setInterval_world, stop_world, emit, with_next_timer, with_timers,
    with_sessions. cbn. f_equal. now apply alter_comm.
Qed.

Lemma stop_stop sid h w :
  stop_world h (stop_world sid w) = stop_world sid (stop_world h w).
Proof.
  unfold stop_world, with_sessions. cbn. f_equal. now apply alter_comm.
Qed.

Lemma session_onCreate_stop sid s w :
  session_onCreate s (stop_world sid w) = session_onCreate s w.
Proof.
  unfold session_onCreate. cbn. destruct (decide (sid = s)) as [->|Hne].
  - rewrite list_lookup_alter_eq. now destruct (sessions w !! s).
  - now rewrite list_lookup_alter_ne.
Qed.

Lemma session_onUpdate_stop sid s w :
  session_onUpdate s (stop_world sid w) = session_onUpdate s w.
Proof.
  unfold session_onUpdate. cbn. destruct (decide (sid = s)) as [->|Hne].
  - rewrite list_lookup_alter_eq. now destruct (sessions w !! s).
  - now rewrite list_lookup_alter_ne.
Qed.

Lemma stopped_other sid s w : s <> sid -> stopped s (stop_world sid w) = stopped s w.
Proof.
  intros Hne. unfold stopped. cbn. now rewrite list_lookup_alter_ne.
Qed.

Variable inst : instance.
Variable sid : nat.

Lemma unaware_bind {A B} (m : M A) (k : A -> M B) :
  unaware sid m -> (forall a, unaware sid (k a)) -> unaware sid (bind m k).
Proof.
  intros Hm Hk w. unfold bind. rewrite Hm.
  destruct (m w) as [[a|e] w']; cbn; [apply Hk|reflexivity].
Qed.

Lemma unaware_lift {A} (o : outcome A) : unaware sid (lift o).
Proof. intros w. reflexivity. Qed.

Lemma unaware_throw {A} (e : exn) : unaware sid (throw (A := A) e).
Proof. intros w. reflexivity. Qed.

Lemma unaware_ret {A} (a : A) : unaware sid (ret a).
Proof. intros w. reflexivity. Qed.

Lemma unaware_call cb called arg : unaware sid (call cb called arg).
Proof.
  intros w. unfold call, bind, act, ret, throw.
  destruct cb as [|body]; cbn; [reflexivity|]. now destruct (body arg).
Qed.

Lemma unaware_apply_id_kont k arg : unaware sid (apply_id_kont k arg).
Proof.
  destruct k as [s|s recordId]; cbn [apply_id_kont].
  - destruct (isFakeRecordId arg); [intros w; reflexivity|].
    apply unaware_bind.
    + intros w. rewrite session_onCreate_stop. apply unaware_call.
    + intros _. apply unaware_bind; [|intros; apply unaware_ret].
      intros w. unfold setInterval. cbn [fst snd].
      now rewrite stop_setInterval.
  - intros w. rewrite session_onUpdate_stop. apply unaware_call.
Qed.

Lemma unaware_apply_json_kont k json : unaware sid (apply_json_kont k json).
Proof.
  destruct k as [next|recordId next]; cbn [apply_json_kont].
  - apply unaware_bind; [apply unaware_lift|]. intros id. apply unaware_apply_id_kont.
  - apply unaware_apply_id_kont.
Qed.

Lemma unaware_xhr_onload next status parsed :
  (forall json, unaware sid (next json)) ->
  unaware sid (xhr_onload next status parsed).
Proof.
  intros Hn. unfold xhr_onload.
  destruct (negb (status =? 200)%Z); [apply unaware_throw|].
  destruct parsed as [json|]; [|apply unaware_throw].
  apply unaware_bind; [apply unaware_lift|]. intros errors.
  destruct (Js.not_nullish errors); [|apply Hn].
  apply unaware_bind; [apply unaware_lift|]. intros first.
  apply unaware_bind; [apply unaware_lift|]. intros message.
  apply unaware_throw.
Qed.

Lemma task_unaware {A} (m : M A) w :
  unaware sid m -> task m (stop_world sid w) = stop_world sid (task m w).
Proof.
  intros Hm. unfold task. rewrite Hm. now destruct (m w) as [[a|e] w'].
Qed.

(** A step of the loop does the same whether or not [stop] was called
    on a session that has no interval. *)
Lemma stop_commutes_step w e :
  sid < length (sessions w) -> timers_of sid w = [] ->
  step inst (stop_world sid w) e = stop_world sid (step inst w e).
Proof.
  intros Hsid Ht.
  destruct e as [env attrs cbs|env recordId cbs|handle|dt|tid|xid status parsed|xid];
    cbn [step].
  - unfold task, _record, bind, new_session. cbn [fst snd].
    rewrite stop_alloc by assumption.
    replace (length (sessions (stop_world sid w))) with (length (sessions w))
      by (cbn; now rewrite length_alter).
    destruct (ignoreLocalhost (opts inst) && isLocalhost (hostname env)); [reflexivity|].
    destruct (isBot (userAgent env)); reflexivity.
  - unfold task, _updateRecord, bind, new_session. cbn [fst snd].
    rewrite stop_alloc by assumption.
    replace (length (sessions (stop_world sid w))) with (length (sessions w))
      by (cbn; now rewrite length_alter).
    destruct (ignoreLocalhost (opts inst) && isLocalhost (hostname env)); [reflexivity|].
    destruct (isBot (userAgent env)); [reflexivity|].
    destruct (isFakeRecordId recordId); [reflexivity|].
    unfold setInterval, ret. cbn [fst snd]. now rewrite stop_setInterval.
  - unfold task, stop, act. apply stop_stop.
  - reflexivity.
  - change (find_timer tid (stop_world sid w)) with (find_timer tid w).
    destruct (find_timer tid w) as [t|] eqn:Hfind; [|reflexivity].
    change (now (stop_world sid w)) with (now w).
    destruct (t_due t <=? now w)%N; [|reflexivity].
    apply find_timer_Some in Hfind as [Hin _].
    assert (Hne : t_sid t <> sid).
    { intros Heq. apply (filter_nil_In _ _ _ Ht) in Hin.
      simpl in Hin. rewrite Heq, Nat.eqb_refl in Hin. discriminate. }
    unfold task, heartbeat. rewrite (stopped_other _ _ _ Hne).
    destruct (stopped (t_sid t) w); reflexivity.
  - change (find_xhr xid (stop_world sid w)) with (find_xhr xid w).
    destruct (find_xhr xid w) as [x|]; [|reflexivity].
    change (drop_xhr xid (stop_world sid w)) with (stop_world sid (drop_xhr xid w)).
    apply task_unaware, unaware_xhr_onload. intros json.
    apply unaware_apply_json_kont.
  - reflexivity.
Qed.

Lemma stop_commutes_run es w :
  sid < length (sessions w) -> quiet sid w ->
  run inst (stop_world sid w) es = stop_world sid (run inst w es).
Proof.
  revert w. induction es as [|e es IH]; intros w Hsid Hq; [reflexivity|].
  change (run inst (stop_world sid w) (e :: es))
    with (run inst (step inst (stop_world sid w) e) es).
  change (run inst w (e :: es)) with (run inst (step inst w e) es).
  rewrite stop_commutes_step; [|assumption|apply Hq].
  destruct (quiet_moves _ sid w _ Hsid Hq (step_moves inst w e)) as (Hsid' & Hq' & _).
  now apply IH.
Qed.

End StopCommutes.

(** ** Sessions that only warned, answers to requests *)

Section SessionFacts.

Variable inst : instance.

Lemma quiet_run_log sid es w :
  sid < length (sessions w) -> quiet sid w ->
  exists l, log (run inst w es) = log w ++ l /\ Forall (fun e => about sid e = false) l.
Proof.
  revert w. induction es as [|e es IH]; intros w Hsid Hq.
  - exists []. rewrite app_nil_r. auto.
  - destruct (quiet_moves _ sid w _ Hsid Hq (step_moves inst w e))
      as (Hsid' & Hq' & l & Hl & HF).
    destruct (IH _ Hsid' Hq') as (l' & Hl' & HF').
    change (run inst w (e :: es)) with (run inst (step inst w e) es).
    exists (l ++ l'). rewrite Hl', Hl, app_assoc. split; [reflexivity|].
    apply Forall_app. auto.
Qed.

Lemma quiet_never_starts sid w :
  sid < length (sessions w) -> quiet sid w ->
  List.filter (activity sid) (log w) = [] -> never_starts inst sid w.
Proof.
  intros Hsid Hq Ha es.
  destruct (quiet_run_log sid es w Hsid Hq) as (l & Hl & HF).
  destruct (quiet_run inst sid es w Hsid Hq) as (_ & (Ht & _) & _).
  split; [|assumption]. rewrite Hl, List.filter_app, Ha. cbn.
  apply filter_activity_about, filter_nil_Forall, HF.
Qed.

Lemma quiet_never_tracks sid w :
  sid < length (sessions w) -> quiet sid w ->
  List.filter (about sid) (log w) = [] -> never_tracks inst sid w.
Proof.
  intros Hsid Hq Ha es.
  destruct (quiet_run inst sid es w Hsid Hq) as (_ & (Ht & _) & Hl).
  split; [|assumption]. now rewrite Hl.
Qed.

Lemma quiet_stop_is_noop sid w :
  sid < length (sessions w) -> quiet sid w -> stop_is_noop inst sid w.
Proof.
  intros Hsid Hq es. change (step inst w (Call_stop sid)) with (stop_world sid w).
  now apply stop_commutes_run.
Qed.

Lemma stop_same_outside h w : same_outside (stop_world h w) w.
Proof. repeat split. Qed.

(** The session of a call that only warned. *)
Lemma warned_session cb1 cb2 msg w :
  inv w ->
  let h := length (sessions w) in
  let w1 := emit (Warn msg) (alloc_session cb1 cb2 w) in
  h < length (sessions w1) /\ quiet h w1 /\ List.filter (about h) (log w1) = [].
Proof.
  intros Hinv h w1.
  destruct (inv_fresh w h Hinv (Nat.le_refl _)) as (Ht & Hc & Hu & Ha).
  split; [|split].
  - subst w1 h. cbn. rewrite length_app. simpl. lia.
  - repeat split; assumption.
  - subst w1. cbn. rewrite filter_snoc, Ha. reflexivity.
Qed.

Lemma record_ineligible env attrs cbs w :
  ineligible (opts inst) env = true ->
  exists msg,
    _record inst env attrs cbs w =
      (Ret (length (sessions w)),
       emit (Warn msg) (alloc_session (onCreate cbs) (onUpdate cbs) w)).
Proof.
  unfold ineligible, _record, bind, new_session. intros H.
  destruct (ignoreLocalhost (opts inst) && isLocalhost (hostname env)).
  - exists warn_localhost. reflexivity.
  - simpl in H. rewrite H. exists warn_bot. reflexivity.
Qed.

Lemma updateRecord_ineligible env recordId cbs w :
  ineligible (opts inst) env || isFakeRecordId recordId = true ->
  exists msg,
    _updateRecord inst env recordId cbs w =
      (Ret (length (sessions w)),
       emit (Warn msg) (alloc_session NoCallback (onUpdate cbs) w)).
Proof.
  unfold ineligible, _updateRecord, bind, new_session. intros H.
  destruct (ignoreLocalhost (opts inst) && isLocalhost (hostname env)).
  - exists warn_localhost. reflexivity.
  - destruct (isBot (userAgent env)).
    + exists warn_bot. reflexivity.
    + simpl in H. rewrite H. exists warn_own_site. reflexivity.
Qed.

Lemma xhr_onload_accepted next status parsed json w :
  accepted status parsed json ->
  xhr_onload next status parsed w = next json w.
Proof.
  intros (-> & -> & errors & He & Hn). unfold xhr_onload, bind, lift. cbn.
  now rewrite He, Hn.
Qed.

Lemma xhr_onload_rejected next status parsed w :
  rejected status parsed ->
  exists e, xhr_onload next status parsed w = (Throw e, w) /\
    (status <> 200%Z ->
       e = JsError (VStr "Server returned with an unhandled status")) /\
    (status = 200%Z -> parsed = None ->
       e = JsError (VStr "Failed to parse response from server")) /\
    (forall json errors first message,
       status = 200%Z -> parsed = Some json ->
       Js.get json "errors" = Ret errors -> Js.get0 errors = Ret first ->
       Js.get first "message" = Ret message ->
       e = JsError message).
Proof.
  intros Hrej. unfold xhr_onload, bind, lift.
  destruct (Z.eqb_spec status 200) as [->|Hst]; cbn.
  - destruct parsed as [json|].
    + destruct Hrej as [H|[H|(json' & errors & Hp & He & Hn)]];
        [congruence|discriminate|].
      injection Hp as <-. rewrite He, Hn.
      destruct (Js.get0 errors) as [first|e0] eqn:E0.
      * destruct (Js.get first "message") as [message|e1] eqn:E1.
        -- exists (JsError message). split; [reflexivity|].
           split; [congruence|]. split; [congruence|].
           intros j er f m _ Hj Her Hf Hm. injection Hj as <-.
           rewrite He in Her. injection Her as <-.
           rewrite E0 in Hf. injection Hf as <-.
           rewrite E1 in Hm. now injection Hm as <-.
        -- exists e1. split; [reflexivity|].
           split; [congruence|]. split; [congruence|].
           intros j er f m _ Hj Her Hf Hm. injection Hj as <-.
           rewrite He in Her. injection Her as <-.
           rewrite E0 in Hf. injection Hf as <-.
           rewrite E1 in Hm. discriminate.
      * exists e0. split; [reflexivity|].
        split; [congruence|]. split; [congruence|].
        intros j er f m _ Hj Her Hf Hm. injection Hj as <-.
        rewrite He in Her. injection Her as <-.
        rewrite E0 in Hf. discriminate.
    + eexists. split; [reflexivity|]. split; [congruence|]. split; [reflexivity|].
      intros; discriminate.
  - eexists. split; [reflexivity|]. split; [reflexivity|]. split; [congruence|].
    intros; congruence.
Qed.

Lemma load_rejected xid x status parsed w :
  find_xhr xid w = Some x -> rejected status parsed ->
  exists e, step inst w (Load xid status parsed) = emit (Uncaught e) (drop_xhr xid w).
Proof.
  intros Hfind Hrej. cbn [step]. rewrite Hfind.
  destruct (xhr_onload_rejected (apply_json_kont (x_onload x)) status parsed
              (drop_xhr xid w) Hrej) as (e & He & _).
  exists e. unfold task. now rewrite He.
Qed.

(** The answer to a creation request that carries the fake record id. *)
Lemma load_fake xid x sid status parsed json id w :
  find_xhr xid w = Some x -> x_onload x = RecordNext (RecordCallback sid) ->
  accepted status parsed json -> created_id json = Ret id ->
  isFakeRecordId id = true ->
  step inst w (Load xid status parsed) = emit (Warn warn_own_site) (drop_xhr xid w).
Proof.
  intros Hfind Hk Hacc Hid Hfake. cbn [step]. rewrite Hfind. unfold task.
  rewrite (xhr_onload_accepted _ _ _ _ _ Hacc), Hk.
  unfold apply_json_kont, bind, lift. rewrite Hid. cbn [apply_id_kont].
  now rewrite Hfake.
Qed.

Lemma fake_session xid x sid w :
  inv w -> find_xhr xid w = Some x -> x_onload x = RecordNext (RecordCallback sid) ->
  let w1 := emit (Warn warn_own_site) (drop_xhr xid w) in
  sid < length (sessions w1) /\ quiet sid w1 /\
  List.filter (activity sid) (log w1) = [].
Proof.
  intros Hinv Hfind Hk w1. apply find_xhr_Some in Hfind as [Hin <-].
  assert (Hk' : json_kont_next (x_onload x) = RecordCallback sid) by now rewrite Hk.
  destruct (pending_creating w x sid Hinv Hin Hk') as (Hv & Ht & Hc & Hu & Ha).
  split; [exact Hv|]. split.
  - repeat split; try assumption. unfold updating_of in *. cbn.
    now apply filter_filter_nil.
  - subst w1. cbn. rewrite filter_snoc, Ha. reflexivity.
Qed.

(** What the answer to a refresh does. *)
Lemma load_refresh xid x status parsed w :
  reachable inst w -> find_xhr xid w = Some x -> is_refresh x = true ->
  exists sid recordId,
    x_onload x = UpdateNext recordId (UpdateCallback sid recordId) /\
    let w' := step inst w (Load xid status parsed) in
    timers w' = timers w /\ next_timer w' = next_timer w /\
    pending w' = pending (drop_xhr xid w) /\ next_xhr w' = next_xhr w /\
    ((exists e, log w' = log w ++ [Uncaught e]) \/
     (exists l, log w' = log w ++ Called_onUpdate sid recordId :: l /\
                Forall (fun e => is_request e = false) l)) /\
    (forall json, accepted status parsed json ->
       exists l, log w' = log w ++ Called_onUpdate sid recordId :: l).
Proof.
  intros Hreach Hfind Href.
  pose proof (reachable_shaped inst w Hreach) as Hshape.
  destruct (find_xhr_Some _ _ _ Hfind) as [Hin Hid].
  rewrite List.Forall_forall in Hshape. specialize (Hshape x Hin). simpl in Hshape.
  unfold is_refresh in Href.
  destruct (x_onload x) as [next|recordId [s|sid r]] eqn:Hk;
    cbn in Hshape; try discriminate; try contradiction.
  subst r. exists sid, recordId. split; [reflexivity|].
  cbn [step]. rewrite Hfind, Hk.
  assert (Hnext : forall json,
    task (apply_json_kont (UpdateNext recordId (UpdateCallback sid recordId)) json)
      (drop_xhr xid w) = emit (Called_onUpdate sid recordId) (drop_xhr xid w) \/
    exists e,
      task (apply_json_kont (UpdateNext recordId (UpdateCallback sid recordId)) json)
        (drop_xhr xid w) =
      emit (Uncaught e) (emit (Called_onUpdate sid recordId) (drop_xhr xid w))).
  { intros json. unfold task, apply_json_kont, apply_id_kont, call, bind, act, ret, throw.
    destruct (session_onUpdate sid (drop_xhr xid w)) as [|body]; cbn; [now left|].
    destruct (body recordId); cbn; [now left|]. right. eexists. reflexivity. }
  split; [|split; [|split; [|split; [|split]]]].
  - destruct (completes_xhr_onload (UpdateNext recordId (UpdateCallback sid recordId))
                status parsed (drop_xhr xid w)) as [[e ->]|Hc]; [reflexivity|].
    inversion Hc; reflexivity.
  - destruct (completes_xhr_onload (UpdateNext recordId (UpdateCallback sid recordId))
                status parsed (drop_xhr xid w)) as [[e ->]|Hc]; [reflexivity|].
    inversion Hc; reflexivity.
  - destruct (completes_xhr_onload (UpdateNext recordId (UpdateCallback sid recordId))
                status parsed (drop_xhr xid w)) as [[e ->]|Hc]; [reflexivity|].
    inversion Hc; reflexivity.
  - destruct (completes_xhr_onload (UpdateNext recordId (UpdateCallback sid recordId))
                status parsed (drop_xhr xid w)) as [[e ->]|Hc]; [reflexivity|].
    inversion Hc; reflexivity.
  - destruct (completes_xhr_onload (UpdateNext recordId (UpdateCallback sid recordId))
                status parsed (drop_xhr xid w)) as [[e ->]|Hc].
    + left. exists e. reflexivity.
    + right. inversion Hc.
      * exists []. split; [reflexivity|constructor].
      * eexists [_]. split; [cbn; now rewrite <- app_assoc|]. repeat constructor.
  - intros json Hacc. unfold task at 1.
    rewrite (xhr_onload_accepted _ _ _ _ _ Hacc).
    destruct (Hnext json) as [H|[e H]]; unfold task in H.
    + destruct (apply_json_kont _ json (drop_xhr xid w)) as [[u|e] w'] eqn:E;
        rewrite H; exists []; reflexivity.
    + destruct (apply_json_kont _ json (drop_xhr xid w)) as [[u|e'] w'] eqn:E;
        rewrite H; eexists [_]; cbn; now rewrite <- app_assoc.
Qed.

(** Before the first period is over no refresh was sent. *)
Lemma no_refresh_before_first_period sid w :
  reachable inst w -> before_first_period sid w -> refreshes sid w = [].
Proof.
  intros Hreach Hb. apply reachable_inv in Hreach.
  destruct (refreshes sid w) eqn:E; [reflexivity|].
  destruct (inv_refresh_started w Hreach sid) as (s & t0 & Hl & Hs & Hle);
    [congruence|].
  unfold before_first_period in Hb. rewrite Hl, Hs in Hb. lia.
Qed.

Lemma before_first_period_valid sid w :
  before_first_period sid w -> sid < length (sessions w).
Proof.
  unfold before_first_period. destruct (sessions w !! sid) eqn:E; [|contradiction].
  intros _. now apply lookup_lt_Some in E.
Qed.

End SessionFacts.

(** ** The specified properties *)

Lemma alter_idem {A} (f : A -> A) (l : list A) (i : nat) :
  (forall x, f (f x) = f x) -> alter f i (alter f i l) = alter f i l.
Proof.
  intros Hf. revert i. induction l as [|a l IH]; intros [|i]; cbn; f_equal; auto.
Qed.

Lemma stop_idempotent h w : stop_world h (stop_world h w) = stop_world h w.
Proof. unfold stop_world, with_sessions. cbn. f_equal. now apply alter_idem. Qed.

Lemma warned_is_inert inst w cb1 cb2 msg :
  inv w ->
  warned_and_inert inst w (length (sessions w)) (emit (Warn msg) (alloc_session cb1 cb2 w)).
Proof.
  intros Hinv. destruct (warned_session cb1 cb2 msg w Hinv) as (Hv & Hq & Ha).
  split; [now exists msg|]. split; [reflexivity|]. split; [reflexivity|].
  split; [now apply quiet_never_tracks|].
  split; [now apply quiet_stop_is_noop|].
  intros es. rewrite (quiet_stop_is_noop inst _ _ Hv Hq es). apply stop_same_outside.
Qed.

(** C1.  [stop] can be called on any handle at any time: it touches
    nothing but the variables of sessions (so it does not throw), and a
    second call changes nothing more.  When it is called before the first
    refresh period of 15 seconds of the session is over, no refresh
    request is ever sent for the session, whatever happens afterwards.
    After [stop] the refreshes of the session are those already sent; and
    the answer to a refresh that was in flight sets no interval and sends
    no request. *)
Theorem stop_before_first_refresh (inst : instance) (w : world) :
  reachable inst w ->
  (forall handle,
     same_outside (step inst w (Call_stop handle)) w /\
     step inst (step inst w (Call_stop handle)) (Call_stop handle) =
       step inst w (Call_stop handle)) /\
  (forall handle, before_first_period handle w ->
     forall es, refreshes handle (run inst (step inst w (Call_stop handle)) es) = []) /\
  (forall handle, handle < length (sessions w) ->
     forall es,
       refreshes handle (run inst (step inst w (Call_stop handle)) es) =
       refreshes handle w) /\
  (forall xid x status parsed,
     find_xhr xid w = Some x -> is_refresh x = true ->
     let w' := step inst w (Load xid status parsed) in
     timers w' = timers w /\ pending w' = pending (drop_xhr xid w) /\
     List.filter is_request (log w') = List.filter is_request (log w)).
Proof.
  intros Hreach.
  assert (Hafter : forall handle, handle < length (sessions w) ->
    forall es,
      refreshes handle (run inst (step inst w (Call_stop handle)) es) =
      refreshes handle w).
  { intros handle Hv es. change (step inst w (Call_stop handle)) with (stop_world handle w).
    now destruct (stopped_run inst handle es _ (stopped_here handle w Hv)) as [_ ->]. }
  split; [|split; [|split]].
  - intros handle. split; [apply stop_same_outside|apply stop_idempotent].
  - intros handle Hb es.
    rewrite (Hafter handle (before_first_period_valid _ _ Hb)).
    now apply no_refresh_before_first_period with inst.
  - exact Hafter.
  - intros xid x status parsed Hfind Href.
    destruct (load_refresh inst xid x status parsed w Hreach Hfind Href)
      as (sid & recordId & _ & Ht & _ & Hp & _ & Hl & _).
    cbv zeta. split; [exact Ht|]. split; [exact Hp|].
    destruct Hl as [[e ->]|(l & -> & HF)].
    + rewrite List.filter_app. cbn. apply app_nil_r.
    + rewrite List.filter_app. cbn. apply filter_nil_Forall in HF. rewrite HF.
      apply app_nil_r.
Qed.

Lemma stop_before_first_refresh_witness :
  reachable tracker (run tracker init visit_started) /\
  before_first_period 0 (run tracker init visit_started) /\
  forall es,
    refreshes 0
      (run tracker (step tracker (run tracker init visit_started) (Call_stop 0)) es) = [].
Proof.
  assert (Hreach : reachable tracker (run tracker init visit_started))
    by (exists visit_started; reflexivity).
  split; [exact Hreach|]. split; [vm_compute; reflexivity|].
  destruct (stop_before_first_refresh tracker _ Hreach) as (_ & H & _).
  apply H. vm_compute. reflexivity.
Defined.

(** C2.  When [ignoreLocalhost] is set and the host name is a local
    host, or the user agent is a bot, a call of [record] or of
    [updateRecord] returns a handle after emitting one warning and nothing
    else: no request is in flight, no interval is set, nothing is ever
    sent or called for the session, and [stop] on the handle changes
    nothing outside the session's own flag, now and in every future. *)
Theorem ineligible_session_is_inert (inst : instance) (w : world) (env : browser) :
  reachable inst w ->
  ineligible (opts inst) env = true ->
  (forall attrs cbs,
     fst (_record inst env attrs cbs w) = Ret (length (sessions w)) /\
     warned_and_inert inst w (length (sessions w))
       (step inst w (Call_record env attrs cbs))) /\
  (forall recordId cbs,
     fst (_updateRecord inst env recordId cbs w) = Ret (length (sessions w)) /\
     warned_and_inert inst w (length (sessions w))
       (step inst w (Call_updateRecord env recordId cbs))).
Proof.
  intros Hreach Hin. apply reachable_inv in Hreach. split.
  - intros attrs cbs.
    destruct (record_ineligible inst env attrs cbs w Hin) as (msg & Hr).
    cbn [step]. unfold task. rewrite Hr. split; [reflexivity|].
    now apply warned_is_inert.
  - intros recordId cbs.
    destruct (updateRecord_ineligible inst env recordId cbs w) as (msg & Hr).
    { now rewrite Hin. }
    cbn [step]. unfold task. rewrite Hr. split; [reflexivity|].
    now apply warned_is_inert.
Qed.

Lemma ineligible_session_is_inert_witness :
  ineligible (opts tracker) (page "localhost" desktop_userAgent) = true /\
  warned_and_inert tracker init 0
    (step tracker init (Call_record (page "localhost" desktop_userAgent) None no_callbacks)).
Proof.
  split; [vm_compute; reflexivity|].
  assert (Hreach : reachable tracker init) by (exists []; reflexivity).
  apply (ineligible_session_is_inert tracker init (page "localhost" desktop_userAgent) Hreach).
  vm_compute. reflexivity.
Defined.

(** C3.  When the answer to the creation request of a session carries
    the record id 88888888-8888-8888-8888-888888888888, the tracker emits
    the own-site warning and nothing else; no interval is set, and
    neither then nor later is [onCreate] called, an interval set or a
    refresh sent for the session. *)
Theorem fake_record_id_stops_session
    (inst : instance) (w : world) (xid : nat) (x : xhr) (sid : nat)
    (status : Z) (parsed : option value) (json : value) :
  reachable inst w ->
  find_xhr xid w = Some x ->
  x_onload x = RecordNext (RecordCallback sid) ->
  accepted status parsed json ->
  created_id json = Ret (VStr "88888888-8888-8888-8888-888888888888") ->
  let w1 := step inst w (Load xid status parsed) in
  log w1 = log w ++ [Warn warn_own_site] /\
  timers w1 = timers w /\
  never_starts inst sid w1.
Proof.
  intros Hreach Hfind Hk Hacc Hid w1. apply reachable_inv in Hreach.
  assert (Hstep : w1 = emit (Warn warn_own_site) (drop_xhr xid w)).
  { subst w1. eapply load_fake; try eassumption. reflexivity. }
  rewrite Hstep. split; [reflexivity|]. split; [reflexivity|].
  destruct (fake_session xid x sid w Hreach Hfind Hk) as (Hv & Hq & Ha).
  now apply quiet_never_starts.
Qed.

Lemma fake_record_id_stops_session_witness :
  let w := run tracker init [Call_record site None no_callbacks] in
  let w1 := step tracker w (Load 0 200 (Some (created fake_record_id))) in
  log w1 = log w ++ [Warn warn_own_site] /\
  timers w1 = timers w /\
  never_starts tracker 0 w1.
Proof.
  intros w.
  apply (fake_record_id_stops_session tracker w 0 first_request 0 200
           (Some (created fake_record_id)) (created fake_record_id)).
  - exists [Call_record site None no_callbacks]. reflexivity.
  - reflexivity.
  - reflexivity.
  - split; [reflexivity|]. split; [reflexivity|].
    exists VUndefined. split; reflexivity.
  - reflexivity.
Defined.

Lemma pending_credentials_moves server w w' :
  Forall (fun x => x_withCredentials x = true) (pending w) -> moves server w w' ->
  Forall (fun x => x_withCredentials x = true) (pending w').
Proof.
  intros Hs Hm.
  assert (Hdrop : forall xid,
    Forall (fun x => x_withCredentials x = true) (pending (drop_xhr xid w))).
  { intros xid. cbn. rewrite List.Forall_forall in *. intros x Hin.
    apply filter_In in Hin as [Hin _]. now apply Hs. }
  induction Hm as [|cb1 cb2 msg|cb1 cb2 body|cb recordId|handle|dt
                  |t Hin Hst|t Hin Hst Hdue|tid w0 Hm IH|x e Hin|x w' Hin Hc|xid];
    try assumption; try apply Hdrop.
  - cbn. apply Forall_app. split; [assumption|]. repeat constructor.
  - cbn. apply Forall_app. split; [assumption|]. repeat constructor.
  - inversion Hc; subst w'; apply Hdrop.
Qed.

Lemma reachable_pending_credentials inst w :
  reachable inst w -> Forall (fun x => x_withCredentials x = true) (pending w).
Proof.
  intros [es ->].
  assert (H0 : Forall (fun x => x_withCredentials x = true) (pending init))
    by apply List.Forall_nil.
  revert H0. generalize init. induction es as [|e es IH]; intros w Hw; [exact Hw|].
  apply IH. eapply pending_credentials_moves; [exact Hw|apply step_moves].
Qed.

(** C4.  In the [onload] handler of [send], a status other than 200, a
    body that does not parse, and a body whose [errors] is neither null
    nor undefined each end in a throw that leaves the world untouched,
    whatever [next] is, so [next] is not run; the error is [new Error] of
    the fixed message in the first two cases and of [errors[0].message]
    in the third, when that can be read.  In the event loop the
    exception is reported uncaught.  Every request leaves with
    [withCredentials] set. *)
Theorem send_failures_are_uncaught :
  (forall next status parsed w,
     rejected status parsed ->
     exists e,
       xhr_onload next status parsed w = (Throw e, w) /\
       (status <> 200%Z ->
          e = JsError (VStr "Server returned with an unhandled status")) /\
       (status = 200%Z -> parsed = None ->
          e = JsError (VStr "Failed to parse response from server")) /\
       (forall json errors first message,
          status = 200%Z -> parsed = Some json ->
          Js.get json "errors" = Ret errors -> Js.get0 errors = Ret first ->
          Js.get first "message" = Ret message ->
          e = JsError message)) /\
  (forall inst w xid x status parsed,
     find_xhr xid w = Some x -> rejected status parsed ->
     exists e,
       step inst w (Load xid status parsed) = emit (Uncaught e) (drop_xhr xid w)) /\
  (forall url body next w,
     exists x,
       pending (send_world url body next w) = pending w ++ [x] /\
       log (send_world url body next w) = log w ++ [Sent x] /\
       x_withCredentials x = true) /\
  (forall inst w,
     reachable inst w ->
     Forall with_credentials (log w) /\
     Forall (fun x => x_withCredentials x = true) (pending w)).
Proof.
  split; [|split; [|split]].
  - intros next status parsed w. apply xhr_onload_rejected.
  - intros inst w xid x status parsed. apply load_rejected.
  - intros url body next w. eexists. repeat split.
  - intros inst w Hreach. split.
    + apply inv_credentials. now apply reachable_inv with inst.
    + now apply reachable_pending_credentials with inst.
Qed.

Lemma send_failures_are_uncaught_witness :
  let w := run tracker init [Call_record site None no_callbacks] in
  exists e,
    step tracker w (Load 0 500 None) = emit (Uncaught e) (drop_xhr 0 w) /\
    e = JsError (VStr "Server returned with an unhandled status").
Proof.
  intros w. destruct send_failures_are_uncaught as (H1 & _ & _ & _).
  assert (Hrej : rejected 500 None) by (left; discriminate).
  destruct (H1 (apply_json_kont (RecordNext (RecordCallback 0))) 500%Z None
              (drop_xhr 0 w) Hrej) as (e & He & Hs & _).
  exists e. split; [|apply Hs; discriminate].
  cbn [step]. change (find_xhr 0 w) with (Some first_request).
  unfold task. cbn [x_onload first_request]. now rewrite He.
Defined.

(** C5.  [isLocalhost] is true on exactly the four names of
    [local_hosts]: the empty string, localhost, 127.0.0.1 and ::1; on
    every other string it is false. *)
Theorem isLocalhost_exactly (hostname : string) :
  (isLocalhost hostname = true <-> In hostname local_hosts) /\
  (isLocalhost hostname = false <-> ~ In hostname local_hosts).
Proof.
  split; [apply isLocalhost_In|].
  rewrite <- isLocalhost_In. destruct (isLocalhost hostname); split; congruence.
Qed.

(** C6.  [isBot] is true exactly on the user agents that contain, up to
    the case of letters, one of bot, crawler, spider, crawling; it is
    false on all others, among them a desktop browser's string. *)
Theorem isBot_case_insensitive (userAgent : string) :
  (isBot userAgent = true <-> names_a_bot userAgent) /\
  (isBot userAgent = false <-> ~ names_a_bot userAgent) /\
  isBot desktop_userAgent = false.
Proof.
  assert (H : isBot userAgent = true <-> names_a_bot userAgent) by apply test_iff.
  split; [exact H|]. split; [|vm_compute; reflexivity].
  rewrite <- H. destruct (isBot userAgent); split; congruence.
Qed.

(** C7 as stated fails: a base URL that ends in two slashes keeps both
    before the [api] segment, so the result is not the base URL with
    exactly one trailing slash followed by [api]. *)
Lemma endpoint_keeps_extra_slashes :
  endpoint "https://t.example//" = "https://t.example//api" /\
  with_one_trailing_slash "https://t.example//" +:+ "api" = "https://t.example/api" /\
  endpoint "https://t.example//" <> with_one_trailing_slash "https://t.example//" +:+ "api".
Proof.
  split; [reflexivity|]. split; [reflexivity|]. vm_compute. discriminate.
Qed.

(** C7, amended.  [endpoint] appends [api] to a base URL that ends in a
    slash and [/api] to one that does not; it is the base URL without its
    last slash, if any, followed by [/api].  For a base URL that does not
    end in two slashes, that is the base URL with exactly one trailing
    slash followed by [api].  Both https://t.example/ and
    https://t.example give https://t.example/api. *)
Theorem endpoint_adds_missing_slash (server : string) :
  endpoint server = strip_one_slash server +:+ "/api" /\
  endpoint server = (if ends_with "/" server then server +:+ "api" else server +:+ "/api") /\
  (ends_with "//" server = false ->
     endpoint server = with_one_trailing_slash server +:+ "api") /\
  endpoint "https://t.example/" = "https://t.example/api" /\
  endpoint "https://t.example" = "https://t.example/api".
Proof.
  split; [apply endpoint_strip_one|]. split; [apply endpoint_cases|].
  split; [apply endpoint_one_slash|]. split; reflexivity.
Qed.

Lemma endpoint_adds_missing_slash_witness :
  ends_with "//" "https://t.example/" = false /\
  endpoint "https://t.example/" = with_one_trailing_slash "https://t.example/" +:+ "api".
Proof.
  split; [reflexivity|].
  destruct (endpoint_adds_missing_slash "https://t.example/") as (_ & _ & H & _).
  apply H. reflexivity.
Defined.

(** C9.  [validate] throws on [null], and so does [create]: no
    configuration with the defaults comes out for that input. *)
Theorem validate_null_throws :
  validate VNull = Throw TypeError /\
  (forall server domainId, create server domainId VNull = Throw TypeError).
Proof. split; reflexivity. Qed.

Lemma validate_defaults (opts : value) :
  opts <> VNull ->
  exists o,
    validate opts = Ret o /\
    (forall d, Js.get opts "detailed" = Ret d -> detailed o = Js.is_bool true d) /\
    (forall i, Js.get opts "ignoreLocalhost" = Ret i ->
       ignoreLocalhost o = negb (Js.is_bool false i)) /\
    (opts = VUndefined -> detailed o = false /\ ignoreLocalhost o = true).
Proof.
  intros Hnull. unfold validate.
  destruct opts as [| |b|x|s|items|props]; try congruence; cbn;
    eexists; (split; [reflexivity|]); cbn;
    (split; [intros d [= <-]; reflexivity|]);
    (split; [intros i [= <-]; reflexivity|]);
    try discriminate.
  intros _. split; reflexivity.
Qed.

Lemma validate_unset (props : list (string * value)) :
  exists o,
    validate (VObj props) = Ret o /\
    (Js.lookup "detailed" props = VUndefined -> detailed o = false) /\
    (Js.lookup "ignoreLocalhost" props = VUndefined -> ignoreLocalhost o = true) /\
    (forall b, Js.lookup "detailed" props = VBool b -> detailed o = b) /\
    (forall b, Js.lookup "ignoreLocalhost" props = VBool b -> ignoreLocalhost o = b).
Proof.
  eexists. split; [reflexivity|]. cbn. repeat split.
  - now intros ->.
  - now intros ->.
  - intros b ->. now destruct b.
  - intros b ->. now destruct b.
Qed.

Lemma never_tracks_starts inst sid w : never_tracks inst sid w -> never_starts inst sid w.
Proof.
  intros H es. destruct (H es) as [Ha Ht]. split; [|exact Ht].
  now apply filter_activity_about.
Qed.

Lemma load_unaware inst sid w xid status parsed :
  step inst (stop_world sid w) (Load xid status parsed) =
  stop_world sid (step inst w (Load xid status parsed)).
Proof.
  cbn [step]. change (find_xhr xid (stop_world sid w)) with (find_xhr xid w).
  destruct (find_xhr xid w) as [x|]; [|reflexivity].
  change (drop_xhr xid (stop_world sid w)) with (stop_world sid (drop_xhr xid w)).
  apply task_unaware, unaware_xhr_onload. intros json. apply unaware_apply_json_kont.
Qed.

(** C8.  In every reachable world a session has at most one interval.
    A session whose call was ineligible, or resumed the fake record id, or
    whose creation was answered with the fake record id, never has an
    interval, never has a callback called or a refresh sent, and [stop] on
    its handle changes nothing but the session's flag in every future. *)
Theorem at_most_one_heartbeat (inst : instance) (w : world) :
  reachable inst w ->
  (forall sid, length (timers_of sid w) <= 1) /\
  (forall env attrs cbs,
     ineligible (opts inst) env = true ->
     let w1 := step inst w (Call_record env attrs cbs) in
     never_starts inst (length (sessions w)) w1 /\
     stop_is_noop inst (length (sessions w)) w1) /\
  (forall env recordId cbs,
     ineligible (opts inst) env || isFakeRecordId recordId = true ->
     let w1 := step inst w (Call_updateRecord env recordId cbs) in
     never_starts inst (length (sessions w)) w1 /\
     stop_is_noop inst (length (sessions w)) w1) /\
  (forall xid x sid status parsed json id,
     find_xhr xid w = Some x ->
     x_onload x = RecordNext (RecordCallback sid) ->
     accepted status parsed json ->
     created_id json = Ret id ->
     isFakeRecordId id = true ->
     let w1 := step inst w (Load xid status parsed) in
     never_starts inst sid w1 /\ stop_is_noop inst sid w1).
Proof.
  intros Hreach. pose proof (reachable_inv inst w Hreach) as Hinv.
  split; [|split; [|split]].
  - intros sid. pose proof (inv_single w Hinv sid). lia.
  - intros env attrs cbs Hin w1.
    destruct (record_ineligible inst env attrs cbs w Hin) as (msg & Hr).
    assert (Hw1 : w1 = emit (Warn msg) (alloc_session (onCreate cbs) (onUpdate cbs) w)).
    { subst w1. cbn [step]. unfold task. now rewrite Hr. }
    rewrite Hw1.
    destruct (warned_is_inert inst w (onCreate cbs) (onUpdate cbs) msg Hinv)
      as (_ & _ & _ & Hn & Hs & _).
    split; [now apply never_tracks_starts|exact Hs].
  - intros env recordId cbs Hin w1.
    destruct (updateRecord_ineligible inst env recordId cbs w Hin) as (msg & Hr).
    assert (Hw1 : w1 = emit (Warn msg) (alloc_session NoCallback (onUpdate cbs) w)).
    { subst w1. cbn [step]. unfold task. now rewrite Hr. }
    rewrite Hw1.
    destruct (warned_is_inert inst w NoCallback (onUpdate cbs) msg Hinv)
      as (_ & _ & _ & Hn & Hs & _).
    split; [now apply never_tracks_starts|exact Hs].
  - intros xid x sid status parsed json id Hfind Hk Hacc Hid Hfake w1.
    assert (Hw1 : w1 = emit (Warn warn_own_site) (drop_xhr xid w)).
    { subst w1. eapply load_fake; eassumption. }
    rewrite Hw1.
    destruct (fake_session xid x sid w Hinv Hfind Hk) as (Hv & Hq & Ha).
    split; [now apply quiet_never_starts|now apply quiet_stop_is_noop].
Qed.

Lemma at_most_one_heartbeat_witness :
  reachable tracker (run tracker init visit_refreshing) /\
  length (timers_of 0 (run tracker init visit_refreshing)) <= 1.
Proof.
  assert (Hreach : reachable tracker (run tracker init visit_refreshing))
    by (exists visit_refreshing; reflexivity).
  split; [exact Hreach|].
  destruct (at_most_one_heartbeat tracker _ Hreach) as (H & _). apply H.
Defined.

Lemma session_onUpdate_alloc sid cb1 cb2 w :
  sid < length (sessions w) ->
  session_onUpdate sid (alloc_session cb1 cb2 w) = session_onUpdate sid w.
Proof.
  intros H. unfold session_onUpdate. cbn. now rewrite lookup_app_l.
Qed.

Lemma session_onUpdate_new cb1 cb2 w :
  session_onUpdate (length (sessions w)) (alloc_session cb1 cb2 w) = cb2.
Proof.
  unfold session_onUpdate. cbn.
  rewrite lookup_app_r, Nat.sub_diag by reflexivity. reflexivity.
Qed.

Lemma session_onUpdate_setInterval s sid recordId delay w :
  session_onUpdate s (setInterval_world sid recordId delay w) = session_onUpdate s w.
Proof.
  unfold session_onUpdate. cbn. destruct (decide (sid = s)) as [->|Hne].
  - rewrite list_lookup_alter_eq. now destruct (sessions w !! s).
  - now rewrite list_lookup_alter_ne.
Qed.

(** No step changes the [onUpdate] a session closed over. *)
Lemma session_onUpdate_moves server sid w w' :
  sid < length (sessions w) -> moves server w w' ->
  sid < length (sessions w') /\ session_onUpdate sid w' = session_onUpdate sid w.
Proof.
  intros Hv Hm.
  induction Hm as [|cb1 cb2 msg|cb1 cb2 body|cb recordId|handle|dt
                  |t Hin Hst|t Hin Hst Hdue|tid w0 Hm IH|x e Hin|x w' Hin Hc|xid];
    try (split; [exact Hv|reflexivity]).
  - split; [cbn; rewrite length_app; lia|now apply session_onUpdate_alloc].
  - split; [cbn; rewrite length_app; lia|now apply session_onUpdate_alloc].
  - split; [cbn; rewrite length_alter, length_app; lia|].
    rewrite session_onUpdate_setInterval. now apply session_onUpdate_alloc.
  - split; [cbn; now rewrite length_alter|apply session_onUpdate_stop].
  - exact IH.
  - inversion Hc; subst w'; try (split; [exact Hv|reflexivity]).
    split; [cbn; now rewrite length_alter|].
    now rewrite session_onUpdate_setInterval.
Qed.

(** The handler of an accepted refresh calls the [onUpdate] of the
    session with the record id, and what the callback does decides how
    the handler ends. *)
Lemma load_updated inst xid x sid recordId status parsed json w :
  find_xhr xid w = Some x ->
  x_onload x = UpdateNext recordId (UpdateCallback sid recordId) ->
  accepted status parsed json ->
  step inst w (Load xid status parsed) =
    match callback_outcome (session_onUpdate sid w) recordId with
    | Returns => emit (Called_onUpdate sid recordId) (drop_xhr xid w)
    | Throws e =>
        emit (Uncaught e) (emit (Called_onUpdate sid recordId) (drop_xhr xid w))
    end.
Proof.
  intros Hfind Hk Hacc. cbn [step]. rewrite Hfind. unfold task.
  rewrite (xhr_onload_accepted _ _ _ _ _ Hacc), Hk.
  unfold apply_json_kont, apply_id_kont, call, bind, act, ret, throw.
  change (session_onUpdate sid (drop_xhr xid w)) with (session_onUpdate sid w).
  destruct (session_onUpdate sid w) as [|body]; cbn [callback_outcome]; [reflexivity|].
  destruct (body recordId); reflexivity.
Qed.

(** C10.  The answer to a refresh request, once accepted, calls
    [onUpdate] with the record id, and the handler runs the same whether
    or not [stop] was called before.  The callback that is called is the
    one the page passed when it made the session ([record] or
    [updateRecord]); no step, [stop] included, replaces it; the handler
    runs it on the record id, and if it throws the exception escapes the
    handler.  In particular there is a run in which a refresh is in
    flight when [stop] is called and [onUpdate] is called after that; on
    a page whose [onUpdate] throws its argument, the same run ends with
    the record id thrown, uncaught, after [stop]. *)
Theorem onUpdate_ignores_stop :
  (forall inst w xid x status parsed json,
     reachable inst w -> find_xhr xid w = Some x -> is_refresh x = true ->
     accepted status parsed json ->
     exists sid recordId l,
       x_onload x = UpdateNext recordId (UpdateCallback sid recordId) /\
       log (step inst w (Load xid status parsed)) =
         log w ++ Called_onUpdate sid recordId :: l) /\
  (forall inst w handle xid status parsed,
     step inst (stop_world handle w) (Load xid status parsed) =
     stop_world handle (step inst w (Load xid status parsed))) /\
  (let w0 := run tracker init visit_refreshing in
   let w1 := step tracker w0 (Call_stop 0) in
   find_xhr 1 w0 = Some first_refresh /\
   stopped 0 w0 = false /\
   stopped 0 w1 = true /\
   find_xhr 1 w1 = Some first_refresh /\
   log (step tracker w1 (Load 1 200 (Some updated))) =
     log w1 ++ [Called_onUpdate 0 (VStr "abc123")]) /\
  (forall inst w xid x status parsed json,
     reachable inst w -> find_xhr xid w = Some x -> is_refresh x = true ->
     accepted status parsed json ->
     exists sid recordId,
       x_onload x = UpdateNext recordId (UpdateCallback sid recordId) /\
       step inst w (Load xid status parsed) =
         match callback_outcome (session_onUpdate sid w) recordId with
         | Returns => emit (Called_onUpdate sid recordId) (drop_xhr xid w)
         | Throws e =>
             emit (Uncaught e) (emit (Called_onUpdate sid recordId) (drop_xhr xid w))
         end) /\
  (forall inst w env attrs recordId cbs,
     session_onUpdate (length (sessions w)) (step inst w (Call_record env attrs cbs)) =
       onUpdate cbs /\
     session_onUpdate (length (sessions w))
       (step inst w (Call_updateRecord env recordId cbs)) = onUpdate cbs) /\
  (forall inst w sid es,
     sid < length (sessions w) ->
     session_onUpdate sid (run inst w es) = session_onUpdate sid w) /\
  (let w0 := run tracker init visit_breaking in
   let w1 := step tracker w0 (Call_stop 0) in
   stopped 0 w0 = false /\
   stopped 0 w1 = true /\
   find_xhr 1 w1 = Some first_refresh /\
   log (step tracker w1 (Load 1 200 (Some updated))) =
     log w1 ++ [Called_onUpdate 0 (VStr "abc123");
                Uncaught (JsError (VStr "abc123"))]).
Proof.
  split; [|split; [|split; [|split; [|split; [|split]]]]].
  - intros inst w xid x status parsed json Hreach Hfind Href Hacc.
    destruct (load_refresh inst xid x status parsed w Hreach Hfind Href)
      as (sid & recordId & Hk & _ & _ & _ & _ & _ & H).
    destruct (H json Hacc) as [l Hl]. exists sid, recordId, l. auto.
  - intros inst w handle xid status parsed. apply load_unaware.
  - vm_compute. repeat split.
  - intros inst w xid x status parsed json Hreach Hfind Href Hacc.
    destruct (load_refresh inst xid x status parsed w Hreach Hfind Href)
      as (sid & recordId & Hk & _).
    exists sid, recordId. split; [exact Hk|].
    exact (load_updated inst xid x sid recordId status parsed json w Hfind Hk Hacc).
  - intros inst w env attrs recordId cbs. split.
    + cbn [step]. unfold task, _record, bind, new_session.
      destruct (ignoreLocalhost (opts inst) && isLocalhost (hostname env));
        [apply session_onUpdate_new|].
      destruct (isBot (userAgent env)); apply session_onUpdate_new.
    + cbn [step]. unfold task, _updateRecord, bind, new_session.
      destruct (ignoreLocalhost (opts inst) && isLocalhost (hostname env));
        [apply session_onUpdate_new|].
      destruct (isBot (userAgent env)); [apply session_onUpdate_new|].
      destruct (isFakeRecordId recordId); [apply session_onUpdate_new|].
      cbn. rewrite session_onUpdate_setInterval. apply session_onUpdate_new.
  - intros inst w sid es. revert w. induction es as [|e es IH]; intros w Hv; [reflexivity|].
    change (run inst w (e :: es)) with (run inst (step inst w e) es).
    destruct (session_onUpdate_moves (server inst) sid w _ Hv (step_moves inst w e))
      as [Hv' Heq].
    now rewrite (IH _ Hv').
  - vm_compute. repeat split.
Qed.

(** ** [validate], in full *)

Lemma is_bool_eq (b : bool) (v : value) : Js.is_bool b v = true <-> v = VBool b.
Proof.
  destruct v as [| |b'| | | |]; cbn; try (split; [discriminate|congruence]).
  destruct b, b'; cbn; split; congruence.
Qed.

Lemma validate_not_null (opts : value) :
  opts <> VNull ->
  validate opts =
    Ret {| detailed := Js.is_bool true (option_field opts "detailed");
           ignoreLocalhost := negb (Js.is_bool false (option_field opts "ignoreLocalhost")) |}.
Proof. intros H. destruct opts; try congruence; reflexivity. Qed.

Lemma validate_Ret_not_null (opts : value) (o : options) :
  validate opts = Ret o -> opts <> VNull.
Proof. intros H ->. discriminate H. Qed.

(** X1.  [validate] throws on [null] and on nothing else, and what it
    throws is a [TypeError].  When it returns, [detailed] is set exactly
    when the argument's own [detailed] is the boolean [true], and
    [ignoreLocalhost] is cleared exactly when the argument's
    [ignoreLocalhost] is the boolean [false]: a value of another type,
    truthy or falsy, leaves the default. *)
Theorem validate_strict (opts : value) :
  (validate opts = Throw TypeError <-> opts = VNull) /\
  (forall e, validate opts = Throw e -> e = TypeError) /\
  (forall o, validate opts = Ret o ->
     (detailed o = true <-> option_field opts "detailed" = VBool true) /\
     (ignoreLocalhost o = false <-> option_field opts "ignoreLocalhost" = VBool false)).
Proof.
  split; [|split].
  - destruct opts; cbn; split; congruence.
  - intros e. destruct opts; cbn; congruence.
  - intros o Ho.
    rewrite (validate_not_null opts (validate_Ret_not_null _ _ Ho)) in Ho.
    injection Ho as <-. cbn [detailed ignoreLocalhost].
    rewrite negb_false_iff, !is_bool_eq. split; reflexivity.
Qed.

Lemma validate_strict_witness :
  validate (VObj [("detailed", VStr "yes")]) =
    Ret {| detailed := false; ignoreLocalhost := true |} /\
  (detailed {| detailed := false; ignoreLocalhost := true |} = true <->
   option_field (VObj [("detailed", VStr "yes")]) "detailed" = VBool true).
Proof.
  split; [reflexivity|].
  destruct (validate_strict (VObj [("detailed", VStr "yes")])) as (_ & _ & H).
  apply (H {| detailed := false; ignoreLocalhost := true |}). reflexivity.
Defined.

(** X2.  The object that [validate] returns validates to itself, and
    the result depends on the argument through its two fields only: an
    argument other than [null] that agrees with [opts] on [detailed] and
    on [ignoreLocalhost] validates to the same options. *)
Theorem validate_idempotent (opts : value) (o : options) :
  validate opts = Ret o ->
  validate (options_object o) = Ret o /\
  (forall opts', option_field opts' "detailed" = option_field opts "detailed" ->
     option_field opts' "ignoreLocalhost" = option_field opts "ignoreLocalhost" ->
     opts' <> VNull -> validate opts' = Ret o).
Proof.
  intros Ho. split.
  - destruct o as [d i]. unfold validate, options_object. cbn. now destruct d, i.
  - intros opts' Hd Hi Hn.
    rewrite (validate_not_null opts' Hn), Hd, Hi. rewrite <- Ho. symmetry.
    apply validate_not_null. now apply validate_Ret_not_null with o.
Qed.

Lemma validate_idempotent_witness :
  validate (options_object {| detailed := true; ignoreLocalhost := false |}) =
  Ret {| detailed := true; ignoreLocalhost := false |}.
Proof.
  destruct (validate_idempotent
              (VObj [("ignoreLocalhost", VBool false); ("detailed", VBool true)])
              {| detailed := true; ignoreLocalhost := false |}) as [H _];
    [reflexivity|exact H].
Defined.

(** ** Attributes and the creation request *)

Lemma substring_prefix (s : string) (k : nat) :
  k <= String.length s ->
  exists rest, s = String.substring 0 k s +:+ rest /\
               String.length (String.substring 0 k s) = k.
Proof.
  revert k. induction s as [|c s IH]; intros [|k] Hk; cbn in Hk.
  - exists EmptyString. split; reflexivity.
  - lia.
  - exists (String c s). split; reflexivity.
  - destruct (IH k) as (rest & Hs & Hl); [lia|].
    exists rest. cbn [String.substring]. rewrite append_cons. cbn [String.length].
    split; [now rewrite <- Hs|now rewrite Hl].
Qed.

(** X3.  Without [detailed] the attributes are [siteLocation] and
    [siteReferrer] and no other key, with the location and the referrer
    of the page as values.  With [detailed] these two entries have the
    same values, 14 keys are reported in all, and [siteLanguage] is a
    prefix of the browser's language: its first two characters, or all of
    it when it is shorter. *)
Theorem attributes_tiers (env : browser) :
  keys (attributes false env) = minimal_keys /\
  (forall name, In name minimal_keys ->
     option_field (attributes true env) name = option_field (attributes false env) name) /\
  option_field (attributes false env) "siteLocation" = VStr (href env) /\
  option_field (attributes false env) "siteReferrer" = VStr (referrer env) /\
  List.length (keys (attributes true env)) = 14 /\
  exists code rest,
    option_field (attributes true env) "siteLanguage" = VStr code /\
    language env = code +:+ rest /\
    String.length code = Nat.min 2 (String.length (language env)).
Proof.
  split; [reflexivity|]. split.
  { intros name [<-|[<-|[]]]; reflexivity. }
  split; [reflexivity|]. split; [reflexivity|]. split; [reflexivity|].
  destruct (substring_prefix (language env) (Nat.min 2 (String.length (language env))))
    as (rest & Hs & Hl); [lia|].
  exists (Js.substr0 (language env) 2), rest. split; [reflexivity|].
  split; [exact Hs|exact Hl].
Qed.

Lemma record_eligible inst env attrs cbs w :
  ineligible (opts inst) env = false ->
  _record inst env attrs cbs w =
    (Ret (length (sessions w)),
     send_world (endpoint (server inst))
       (createRecordBody (domainId inst)
          (or_default attrs (attributes (detailed (opts inst)) env)))
       (RecordNext (RecordCallback (length (sessions w))))
       (alloc_session (onCreate cbs) (onUpdate cbs) w)).
Proof.
  unfold ineligible, _record, bind, new_session. intros H.
  apply orb_false_iff in H as [-> ->]. reflexivity.
Qed.

Lemma updateRecord_eligible inst env recordId cbs w :
  ineligible (opts inst) env = false -> isFakeRecordId recordId = false ->
  _updateRecord inst env recordId cbs w =
    (Ret (length (sessions w)),
     setInterval_world (length (sessions w)) recordId period
       (alloc_session NoCallback (onUpdate cbs) w)).
Proof.
  unfold ineligible, _updateRecord, bind, new_session. intros H Hf.
  apply orb_false_iff in H as [-> ->]. now rewrite Hf.
Qed.

(** X4.  On an eligible page, [record] of an instance made by [create]
    sends exactly one request and does nothing else: a POST to the
    endpoint of the server, waiting with the callback of the new session;
    no interval is set yet.  The body carries the domain id and the
    caller's attributes when they are given and are not [undefined]
    ([null] is sent as it is).  When they are left out or [undefined],
    the default parameter takes over: the body carries the attributes of
    the page for the validated options, which are the location and the
    referrer only unless the options gave [detailed] as the boolean
    [true]. *)
Theorem default_request_is_minimal
    (base : string) (domain optsv : value) (inst : instance)
    (env : browser) (attrs : option value) (cbs : callbacks) (w : world) :
  create base domain optsv = Ret inst ->
  ineligible (opts inst) env = false ->
  let w1 := step inst w (Call_record env attrs cbs) in
  exists x,
    log w1 = log w ++ [Sent x] /\
    pending w1 = pending w ++ [x] /\
    timers w1 = timers w /\
    x_method x = "POST" /\
    x_url x = endpoint base /\
    x_onload x = RecordNext (RecordCallback (length (sessions w))) /\
    (forall a, attrs = Some a -> a <> VUndefined ->
     x_body x = createRecordBody domain a) /\
    (attrs = None \/ attrs = Some VUndefined ->
     x_body x = createRecordBody domain (attributes (detailed (opts inst)) env) /\
     (option_field optsv "detailed" <> VBool true ->
      x_body x =
        createRecordBody domain
          (VObj [("siteLocation", VStr (href env));
                 ("siteReferrer", VStr (referrer env))]))).
Proof.
  intros Hc Hel w1.
  assert (Hinst : base = server inst /\ domain = domainId inst /\
                  validate optsv = Ret (opts inst)).
  { unfold create in Hc. destruct (validate optsv) as [o|e]; cbn in Hc; [|discriminate].
    injection Hc as <-. auto. }
  destruct Hinst as (-> & -> & Hv).
  subst w1. cbn [step]. unfold task. rewrite (record_eligible inst env attrs cbs w Hel).
  eexists. split; [reflexivity|]. split; [reflexivity|]. split; [reflexivity|].
  split; [reflexivity|]. split; [reflexivity|]. split; [reflexivity|]. split.
  - intros a -> Ha. cbn [x_body]. destruct a; try reflexivity. now contradiction Ha.
  - intros Hattrs. cbn [x_body].
    assert (Hdef : or_default attrs (attributes (detailed (opts inst)) env) =
                   attributes (detailed (opts inst)) env)
      by (destruct Hattrs as [->| ->]; reflexivity).
    rewrite Hdef. split; [reflexivity|]. intros Hd.
    assert (Hdet : detailed (opts inst) = false).
    { rewrite (validate_not_null optsv (validate_Ret_not_null _ _ Hv)) in Hv.
      injection Hv as <-. cbn [detailed].
      destruct (Js.is_bool true (option_field optsv "detailed")) eqn:E; [|reflexivity].
      apply is_bool_eq in E. contradiction. }
    now rewrite Hdet.
Qed.

Lemma default_request_is_minimal_witness :
  (exists x,
     log (step tracker init (Call_record site None watching)) = [Sent x] /\
     x_body x =
       createRecordBody (VStr "domain")
         (VObj [("siteLocation", VStr "https://site.example/page");
                ("siteReferrer", VStr "")])) /\
  (exists x,
     log (step tracker init (Call_record site (Some VUndefined) watching)) = [Sent x] /\
     x_body x =
       createRecordBody (VStr "domain")
         (VObj [("siteLocation", VStr "https://site.example/page");
                ("siteReferrer", VStr "")])) /\
  (exists x,
     log (step tracker init (Call_record site (Some VNull) watching)) = [Sent x] /\
     x_body x = createRecordBody (VStr "domain") VNull).
Proof.
  split; [|split].
  - destruct (default_request_is_minimal "https://t.example" (VStr "domain") VUndefined
                tracker site None watching init)
      as (x & Hl & _ & _ & _ & _ & _ & _ & Hb); [reflexivity|reflexivity|].
    exists x. split; [exact Hl|]. apply Hb; [now left|discriminate].
  - destruct (default_request_is_minimal "https://t.example" (VStr "domain") VUndefined
                tracker site (Some VUndefined) watching init)
      as (x & Hl & _ & _ & _ & _ & _ & _ & Hb); [reflexivity|reflexivity|].
    exists x. split; [exact Hl|]. apply Hb; [now right|discriminate].
  - destruct (default_request_is_minimal "https://t.example" (VStr "domain") VUndefined
                tracker site (Some VNull) watching init)
      as (x & Hl & _ & _ & _ & _ & _ & Ha & _); [reflexivity|reflexivity|].
    exists x. split; [exact Hl|]. apply (Ha VNull); [reflexivity|discriminate].
Defined.

(** ** Answers that start nothing *)

Lemma xhr_onload_not_accepted next status parsed w :
  ~ (exists json, accepted status parsed json) ->
  exists e, xhr_onload next status parsed w = (Throw e, w).
Proof.
  intros Hn. unfold xhr_onload, bind, lift.
  destruct (Z.eqb_spec status 200) as [->|Hst]; cbn; [|eexists; reflexivity].
  destruct parsed as [json|]; [|eexists; reflexivity].
  destruct (Js.get json "errors") as [errors|e] eqn:He; [|eexists; reflexivity].
  destruct (Js.not_nullish errors) eqn:Hnn.
  - destruct (Js.get0 errors) as [first|e0]; [|eexists; reflexivity].
    destruct (Js.get first "message") as [message|e1]; eexists; reflexivity.
  - exfalso. apply Hn. exists json. split; [reflexivity|]. split; [reflexivity|].
    exists errors. auto.
Qed.

Lemma classic_accepted (status : Z) (parsed : option value) :
  (exists json, accepted status parsed json) \/ ~ (exists json, accepted status parsed json).
Proof.
  destruct (Z.eq_dec status 200%Z) as [->|Hst];
    [|right; intros (j & H & _); contradiction].
  destruct parsed as [json|]; [|right; intros (j & _ & H & _); discriminate].
  destruct (Js.get json "errors") as [errors|e] eqn:He.
  - destruct (Js.not_nullish errors) eqn:Hnn.
    + right. intros (j & _ & Hj & er & Her & Hn). injection Hj as <-.
      rewrite He in Her. injection Her as <-. congruence.
    + left. exists json. split; [reflexivity|]. split; [reflexivity|]. exists errors. auto.
  - right. intros (j & _ & Hj & er & Her & Hn). injection Hj as <-. congruence.
Qed.

(** X5.  The load handler that [send] installs either hands the parsed
    response to [next] (status 200, a text that parses, no [errors]) and
    does what [next] does, or throws and leaves everything as it was.  A
    response of status 200 whose text parses to [null] makes it throw a
    [TypeError], as reading [json.errors] does. *)
Theorem next_runs_only_when_accepted
    (next : value -> M unit) (status : Z) (parsed : option value) (w : world) :
  (forall json, accepted status parsed json ->
     xhr_onload next status parsed w = next json w) /\
  (~ (exists json, accepted status parsed json) ->
     exists e, xhr_onload next status parsed w = (Throw e, w)) /\
  (forall json, parsed = Some json -> status = 200%Z ->
     json = VNull \/ json = VUndefined ->
     xhr_onload next status parsed w = (Throw TypeError, w)).
Proof.
  split; [|split].
  - intros json. apply xhr_onload_accepted.
  - apply xhr_onload_not_accepted.
  - intros json -> -> [->| ->]; reflexivity.
Qed.

Lemma next_runs_only_when_accepted_witness :
  xhr_onload (fun _ => ret tt) 200 (Some updated) init = (Ret tt, init) /\
  exists e, xhr_onload (fun _ => ret tt) 204 (Some updated) init = (Throw e, init).
Proof.
  destruct (next_runs_only_when_accepted (fun _ => ret tt) 200 (Some updated) init)
    as (H1 & _ & _).
  destruct (next_runs_only_when_accepted (fun _ => ret tt) 204 (Some updated) init)
    as (_ & H2 & _).
  split.
  - apply (H1 updated). split; [reflexivity|]. split; [reflexivity|].
    exists VUndefined. split; reflexivity.
  - apply H2. intros (json & Hs & _). discriminate Hs.
Defined.

Section FailedCreation.

Variable inst : instance.

Lemma creation_dropped xid x sid w :
  inv w -> find_xhr xid w = Some x -> x_onload x = RecordNext (RecordCallback sid) ->
  sid < length (sessions w) /\ quiet sid (drop_xhr xid w) /\
  List.filter (activity sid) (log w) = [].
Proof.
  intros Hinv Hfind Hk. apply find_xhr_Some in Hfind as [Hin <-].
  assert (Hk' : json_kont_next (x_onload x) = RecordCallback sid) by now rewrite Hk.
  destruct (pending_creating w x sid Hinv Hin Hk') as (Hv & Ht & Hc & Hu & Ha).
  split; [exact Hv|]. split; [|exact Ha].
  repeat split; try assumption. unfold updating_of in *. cbn.
  now apply filter_filter_nil.
Qed.

Lemma load_creation_throws xid x sid status parsed w :
  find_xhr xid w = Some x -> x_onload x = RecordNext (RecordCallback sid) ->
  ~ (exists json id, accepted status parsed json /\ created_id json = Ret id) ->
  exists e, step inst w (Load xid status parsed) = emit (Uncaught e) (drop_xhr xid w).
Proof.
  intros Hfind Hk Hn. cbn [step]. rewrite Hfind, Hk. unfold task.
  destruct (classic_accepted status parsed) as [[json Hacc]|Hna].
  - rewrite (xhr_onload_accepted _ _ _ _ _ Hacc).
    unfold apply_json_kont, bind, lift.
    destruct (created_id json) as [id|e] eqn:Hid.
    + exfalso. apply Hn. exists json, id. auto.
    + exists e. reflexivity.
  - destruct (xhr_onload_not_accepted
                (apply_json_kont (RecordNext (RecordCallback sid))) status parsed
                (drop_xhr xid w) Hna) as [e He].
    exists e. now rewrite He.
Qed.

(** X6.  A creation request that is not answered by an accepted
    response with a readable [data.createRecord.payload.id] starts
    nothing: the handler throws, uncaught, no interval is set, and the
    session never calls a callback, sets an interval or sends a refresh
    afterwards; calling [stop] on its handle changes nothing but the
    flag.  The same holds, silently, when the request fails on the
    network. *)
Theorem failed_creation_never_starts (w : world) (xid : nat) (x : xhr) (sid : nat) :
  reachable inst w ->
  find_xhr xid w = Some x ->
  x_onload x = RecordNext (RecordCallback sid) ->
  (forall status parsed,
     ~ (exists json id, accepted status parsed json /\ created_id json = Ret id) ->
     let w1 := step inst w (Load xid status parsed) in
     (exists e, log w1 = log w ++ [Uncaught e]) /\
     timers w1 = timers w /\
     never_starts inst sid w1 /\ stop_is_noop inst sid w1) /\
  (let w1 := step inst w (NetFail xid) in
   log w1 = log w /\ timers w1 = timers w /\
   never_starts inst sid w1 /\ stop_is_noop inst sid w1).
Proof.
  intros Hreach Hfind Hk. apply reachable_inv in Hreach.
  destruct (creation_dropped xid x sid w Hreach Hfind Hk) as (Hv & Hq & Ha).
  split.
  - intros status parsed Hn w1.
    destruct (load_creation_throws xid x sid status parsed w Hfind Hk Hn) as [e He].
    subst w1. rewrite He. split; [now exists e|]. split; [reflexivity|]. split.
    + apply quiet_never_starts; [exact Hv|exact Hq|].
      cbn. rewrite filter_snoc, Ha. reflexivity.
    + now apply quiet_stop_is_noop.
  - cbn [step]. split; [reflexivity|]. split; [reflexivity|]. split.
    + now apply quiet_never_starts.
    + now apply quiet_stop_is_noop.
Qed.

End FailedCreation.

Lemma failed_creation_never_starts_witness :
  let w := run tracker init [Call_record site None watching] in
  never_starts tracker 0 (step tracker w (Load 0 200 (Some (VObj [("data", VNull)])))) /\
  never_starts tracker 0 (step tracker w (NetFail 0)).
Proof.
  intros w.
  destruct (failed_creation_never_starts tracker w 0 first_request 0) as [H1 H2].
  - exists [Call_record site None watching]. reflexivity.
  - reflexivity.
  - reflexivity.
  - split.
    + apply (H1 200%Z (Some (VObj [("data", VNull)]))).
      intros (json & id & (_ & Hp & _) & Hid). injection Hp as <-. discriminate Hid.
    + apply H2.
Defined.

(** ** The steps of the loop, and the shape of requests *)

Section Acts.

Variable inst : instance.

Lemma find_timer_In tid w t : find_timer tid w = Some t -> In t (timers w).
Proof. intros H. now apply find_timer_Some in H as [H _]. Qed.

Lemma find_xhr_In xid w x : find_xhr xid w = Some x -> In x (pending w).
Proof. intros H. now apply find_xhr_Some in H as [H _]. Qed.

Lemma step_acts w e : acts inst w (step inst w e).
Proof.
  destruct e as [env attrs cbs|env recordId cbs|handle|dt|tid|xid status parsed|xid];
    cbn [step].
  - destruct (ineligible (opts inst) env) eqn:Hel.
    + destruct (record_ineligible inst env attrs cbs w Hel) as (msg & Hr).
      unfold task. rewrite Hr. apply acts_warned.
    + unfold task. rewrite (record_eligible inst env attrs cbs w Hel). apply acts_record.
  - destruct (ineligible (opts inst) env || isFakeRecordId recordId) eqn:Hel.
    + destruct (updateRecord_ineligible inst env recordId cbs w Hel) as (msg & Hr).
      unfold task. rewrite Hr. apply acts_warned.
    + apply orb_false_iff in Hel as [Hel Hf].
      unfold task. rewrite (updateRecord_eligible inst env recordId cbs w Hel Hf).
      now apply acts_resume.
  - apply acts_stop.
  - apply acts_elapse.
  - destruct (find_timer tid w) as [t|] eqn:Hfind; [|apply acts_idle].
    destruct (find_timer_Some _ _ _ Hfind) as [Hin Hid]. subst tid.
    destruct (t_due t <=? now w)%N eqn:Hdue; [|apply acts_idle].
    apply N.leb_le in Hdue. unfold task, heartbeat.
    destruct (stopped (t_sid t) w) eqn:Hstop; cbn.
    + now apply acts_tick_cleared.
    + now apply acts_tick_refresh.
  - destruct (find_xhr xid w) as [x|] eqn:Hfind; [|apply acts_idle].
    destruct (find_xhr_Some _ _ _ Hfind) as [Hin Hid]. subst xid.
    destruct (completes_xhr_onload (x_onload x) status parsed (drop_xhr (x_id x) w))
      as [[e ->]|Hc].
    + now apply acts_load_error.
    + now apply acts_load with x.
  - apply acts_netfail.
Qed.

(** An invariant of the steps is an invariant of the runs. *)
Lemma acts_invariant (P : world -> Prop) :
  P init ->
  (forall w w', inv w -> P w -> acts inst w w' -> P w') ->
  forall w, reachable inst w -> P w.
Proof.
  intros H0 Hstep w [es ->].
  assert (H : inv init /\ P init) by (split; [apply inv_init|exact H0]).
  revert H. generalize init. induction es as [|e es IH]; intros w0 [Hi Hp]; [exact Hp|].
  apply IH. split; [now apply inv_step|].
  apply (Hstep w0 _ Hi Hp). apply step_acts.
Qed.

Lemma well_formed_acts w w' :
  Forall (well_formed_effect inst) (log w) -> acts inst w w' ->
  Forall (well_formed_effect inst) (log w').
Proof.
  intros Hw Ha.
  destruct Ha as [|cb1 cb2 msg|cb1 cb2 attrs|cb recordId Hf|handle|dt
                 |t Hfind Hdue Hst|t Hfind Hdue Hst|x e Hfind|x w' Hfind Hc|xid];
    try assumption;
    try (cbn; apply Forall_app; split; [assumption|]; repeat constructor; fail).
  - cbn. apply Forall_app. split; [assumption|]. constructor; [|constructor].
    cbn. repeat split. now exists attrs.
  - inversion Hc; subst w'; cbn; rewrite <- ?app_assoc;
      (apply Forall_app; split; [assumption|]); repeat constructor.
Qed.

Lemma reachable_well_formed w :
  reachable inst w -> Forall (well_formed_effect inst) (log w).
Proof.
  apply (acts_invariant (fun w => Forall (well_formed_effect inst) (log w))).
  - apply List.Forall_nil.
  - intros w0 w' _. apply well_formed_acts.
Qed.

End Acts.

(** ** Intervals *)

Section TimersOk.

Variable inst : instance.

Lemma rearmed_id clock tid t : t_id (rearmed clock tid t) = t_id t.
Proof. unfold rearmed. now destruct (Nat.eqb (t_id t) tid). Qed.

Lemma rearmed_recordId clock tid t : t_recordId (rearmed clock tid t) = t_recordId t.
Proof. unfold rearmed. now destruct (Nat.eqb (t_id t) tid). Qed.

Lemma map_id_rearmed clock tid (l : list timer) :
  List.map t_id (List.map (rearmed clock tid) l) = List.map t_id l.
Proof.
  induction l as [|t l IH]; [reflexivity|]. cbn [List.map].
  now rewrite rearmed_id, IH.
Qed.

Lemma NoDup_map_filter {A B} (f : A -> B) (P : A -> bool) (l : list A) :
  List.NoDup (List.map f l) -> List.NoDup (List.map f (List.filter P l)).
Proof.
  induction l as [|a l IH]; cbn; [auto|]. intros H.
  apply List.NoDup_cons_iff in H as [Hn Hd].
  destruct (P a); cbn; [|auto].
  apply List.NoDup_cons; [|auto]. intros Hin. apply Hn.
  apply in_map_iff in Hin as (b & Hb & Hin). apply in_map_iff.
  exists b. split; [assumption|]. now apply filter_In in Hin as [Hin _].
Qed.

Lemma NoDup_snoc {A} (l : list A) (a : A) :
  List.NoDup l -> ~ In a l -> List.NoDup (l ++ [a]).
Proof.
  induction l as [|b l IH]; cbn; intros Hn Hin.
  - constructor; [intros []|constructor].
  - apply List.NoDup_cons_iff in Hn as [Hb Hn]. apply List.NoDup_cons.
    + rewrite in_app_iff. intros [H|[H|[]]]; [contradiction|]. subst. auto.
    + apply IH; auto.
Qed.

Lemma timers_ok_rearm tid w :
  Forall (fun t => t_delay t = period) (timers w) ->
  timers_ok w -> timers_ok (rearm tid w).
Proof.
  intros Hdel [Hf Hn Hd]. constructor; cbn.
  - apply Forall_map. eapply Forall_impl; [exact Hf|]. intros t H. cbn.
    now rewrite rearmed_id.
  - now rewrite map_id_rearmed.
  - apply Forall_map. rewrite List.Forall_forall in Hdel, Hd |- *.
    intros t Hin. specialize (Hdel t Hin). specialize (Hd t Hin). cbn in *.
    unfold rearmed. destruct (Nat.eqb (t_id t) tid); [|assumption].
    cbn. rewrite Hdel. lia.
Qed.

Lemma timers_ok_frame w w' :
  timers w' = timers w -> next_timer w' = next_timer w -> (now w <= now w')%N ->
  timers_ok w -> timers_ok w'.
Proof.
  intros Ht Hn Hnow [Hf Hd Hdue]. constructor; rewrite ?Ht, ?Hn; try assumption.
  eapply Forall_impl; [exact Hdue|]. intros t H. cbn in *. lia.
Qed.

Lemma timers_ok_setInterval sid recordId w :
  timers_ok w -> timers_ok (setInterval_world sid recordId period w).
Proof.
  intros [Hf Hn Hd]. constructor; cbn.
  - apply Forall_app. split.
    + eapply Forall_impl; [exact Hf|]. intros t H. cbn in *. lia.
    + constructor; [cbn; lia|constructor].
  - rewrite List.map_app. cbn. apply NoDup_snoc; [assumption|].
    intros Hin. apply in_map_iff in Hin as (t & Ht & Hin).
    rewrite List.Forall_forall in Hf. specialize (Hf t Hin). cbn in Hf. lia.
  - apply Forall_app. split; [assumption|]. constructor; [cbn; lia|constructor].
Qed.

Lemma timers_ok_filter P w :
  timers_ok w -> timers_ok (with_timers (List.filter P) w).
Proof.
  intros [Hf Hn Hd]. constructor; cbn.
  - rewrite List.Forall_forall in Hf |- *. intros t Hin.
    apply filter_In in Hin as [Hin _]. now apply Hf.
  - now apply NoDup_map_filter.
  - rewrite List.Forall_forall in Hd |- *. intros t Hin.
    apply filter_In in Hin as [Hin _]. now apply Hd.
Qed.

Lemma timers_ok_acts w w' :
  inv w -> timers_ok w -> acts inst w w' -> timers_ok w'.
Proof.
  intros Hinv Hok Ha.
  destruct Ha as [|cb1 cb2 msg|cb1 cb2 attrs|cb recordId Hf|handle|dt
                 |t Hfind Hdue Hst|t Hfind Hdue Hst|x e Hfind|x w' Hfind Hc|xid];
    try assumption;
    try (apply (timers_ok_frame w); [reflexivity|reflexivity|cbn; lia|assumption]).
  - apply timers_ok_setInterval.
    apply (timers_ok_frame w); [reflexivity|reflexivity|cbn; lia|assumption].
  - apply timers_ok_rearm.
    + cbn. pose proof (inv_delay w Hinv) as Hd.
      rewrite List.Forall_forall in Hd |- *. intros t' Hin.
      apply filter_In in Hin as [Hin _]. now apply Hd.
    + apply (timers_ok_frame (with_timers
               (List.filter (fun t0 => negb (Nat.eqb (t_id t0) (t_id t)))) w));
        [reflexivity|reflexivity|cbn; lia|]. now apply timers_ok_filter.
  - apply timers_ok_rearm; [exact (inv_delay w Hinv)|].
    apply (timers_ok_frame w); [reflexivity|reflexivity|cbn; lia|assumption].
  - inversion Hc; subst w';
      try (apply (timers_ok_frame w); [reflexivity|reflexivity|cbn; lia|assumption]).
    apply timers_ok_setInterval.
    apply (timers_ok_frame w); [reflexivity|reflexivity|cbn; lia|assumption].
Qed.

Lemma reachable_timers_ok w : reachable inst w -> timers_ok w.
Proof.
  apply (acts_invariant inst timers_ok).
  - constructor; cbn; constructor.
  - intros w0 w'. apply timers_ok_acts.
Qed.

End TimersOk.

(** ** Counting what a session did *)

Section Counted.

Variable inst : instance.

Lemma filter_drop_lt {A} (P Q : A -> bool) (l : list A) (x : A) :
  In x l -> P x = true -> Q x = false ->
  length (List.filter P (List.filter Q l)) < length (List.filter P l).
Proof.
  induction l as [|a l IH]; cbn; [intros []|]. intros [->|Hin] HP HQ.
  - rewrite HQ, HP. cbn. pose proof (filter_filter_length P Q l). lia.
  - specialize (IH Hin HP HQ). destruct (Q a), (P a) eqn:E; cbn; rewrite ?E; cbn; lia.
Qed.

Lemma count_emit P e w :
  count P (emit e w) = count P w + (if P e then 1 else 0).
Proof.
  unfold count. cbn. rewrite filter_snoc, length_app. now destruct (P e).
Qed.

Lemma about_nil_count (P : effect -> bool) sid w :
  (forall e, P e = true -> about sid e = true) ->
  List.filter (about sid) (log w) = [] -> count P w = 0.
Proof.
  intros HP Ha. unfold count.
  assert (H : List.filter P (log w) = []).
  { rewrite filter_nil_Forall in Ha |- *. eapply Forall_impl; [exact Ha|].
    intros e He. cbn in He. destruct (P e) eqn:E; [|reflexivity].
    apply HP in E. congruence. }
  now rewrite H.
Qed.

Lemma activity_nil_count (P : effect -> bool) sid w :
  (forall e, P e = true -> activity sid e = true) ->
  List.filter (activity sid) (log w) = [] -> count P w = 0.
Proof.
  intros HP Ha. unfold count.
  assert (H : List.filter P (log w) = []).
  { rewrite filter_nil_Forall in Ha |- *. eapply Forall_impl; [exact Ha|].
    intros e He. cbn in He. destruct (P e) eqn:E; [|reflexivity].
    apply HP in E. congruence. }
  now rewrite H.
Qed.

Lemma is_creation_about sid e : is_creation sid e = true -> about sid e = true.
Proof.
  destruct e; cbn; try discriminate. intros H. apply creating_sid in H.
  now apply Nat.eqb_eq.
Qed.

Lemma is_onCreate_about sid e : is_onCreate sid e = true -> about sid e = true.
Proof. destruct e; cbn; try discriminate; auto. Qed.

Lemma is_onCreate_activity sid e : is_onCreate sid e = true -> activity sid e = true.
Proof. destruct e; cbn; try discriminate; auto. Qed.

Lemma is_interval_set_about sid e : is_interval_set sid e = true -> about sid e = true.
Proof. destruct e; cbn; try discriminate; auto. Qed.

Lemma is_interval_set_activity sid e :
  is_interval_set sid e = true -> activity sid e = true.
Proof. destruct e; cbn; try discriminate; auto. Qed.

Lemma is_onUpdate_about sid e : is_onUpdate sid e = true -> about sid e = true.
Proof. destruct e; cbn; try discriminate; auto. Qed.

Lemma refresh_of_about sid e : refresh_of sid e = true -> about sid e = true.
Proof. intros H. now apply activity_about, refresh_activity. Qed.

Lemma counted_init : counted init.
Proof. constructor; intros sid; cbn; lia. Qed.

(** Changes of the world that touch neither the log nor the requests. *)
Lemma counted_frame w w' :
  log w' = log w -> pending w' = pending w -> counted w -> counted w'.
Proof.
  intros Hl Hp [H1 H2 H3 H4].
  constructor; intros sid; unfold count, creating_of, updating_of in *;
    rewrite ?Hl, ?Hp; auto.
Qed.

Lemma counted_drop xid w : counted w -> counted (drop_xhr xid w).
Proof.
  intros [H1 H2 H3 H4]. constructor; intros sid;
    specialize (H1 sid); specialize (H2 sid); specialize (H3 sid); specialize (H4 sid);
    unfold count, creating_of, updating_of in *; cbn.
  - assumption.
  - pose proof (filter_filter_length (creating sid)
                  (fun x => negb (Nat.eqb (x_id x) xid)) (pending w)). lia.
  - pose proof (filter_filter_length (creating sid)
                  (fun x => negb (Nat.eqb (x_id x) xid)) (pending w)). lia.
  - pose proof (filter_filter_length (updating sid)
                  (fun x => negb (Nat.eqb (x_id x) xid)) (pending w)). lia.
Qed.

(** An effect that counts for no session. *)
Lemma counted_emit_plain e w :
  (forall sid, about sid e = false) -> counted w -> counted (emit e w).
Proof.
  intros He [H1 H2 H3 H4].
  assert (Hc : forall (P : nat -> effect -> bool) sid,
    (forall e', P sid e' = true -> about sid e' = true) ->
    count (P sid) (emit e w) = count (P sid) w).
  { intros P sid HP. rewrite count_emit. destruct (P sid e) eqn:E; [|lia].
    apply HP in E. rewrite He in E. discriminate. }
  constructor; intros sid.
  - rewrite (Hc is_creation); [auto|apply is_creation_about].
  - rewrite (Hc is_onCreate); [apply H2|apply is_onCreate_about].
  - rewrite (Hc is_interval_set); [apply H3|apply is_interval_set_about].
  - rewrite (Hc is_onUpdate), (Hc refresh_of);
      [apply H4|apply refresh_of_about|apply is_onUpdate_about].
Qed.

Lemma counted_send url body k w :
  counted w ->
  (forall sid, json_kont_next k = RecordCallback sid ->
     count (is_creation sid) w = 0 /\ count (is_onCreate sid) w = 0 /\
     count (is_interval_set sid) w = 0 /\ creating_of sid w = []) ->
  (forall sid recordId, json_kont_next k = UpdateCallback sid recordId ->
     exists r, k = UpdateNext r (UpdateCallback sid recordId)) ->
  counted (send_world url body k w).
Proof.
  intros [H1 H2 H3 H4] Hcr Hup. unfold send_world.
  set (x0 := {| x_id := next_xhr w; x_method := "POST"; x_url := url;
                x_headers := [("Content-Type", "application/json;charset=UTF-8")];
                x_withCredentials := true; x_body := body; x_onload := k |}).
  assert (Hc0 : forall sid, creating sid x0 = true ->
            json_kont_next k = RecordCallback sid).
  { intros sid. unfold creating. cbn. destruct (json_kont_next k); [|discriminate].
    intros H. apply Nat.eqb_eq in H. now subst. }
  assert (Hu0 : forall sid, updating sid x0 = true -> refresh_of sid (Sent x0) = true).
  { intros sid. unfold updating. cbn. destruct (json_kont_next k) as [s|s r] eqn:Hk;
      [discriminate|]. intros H. destruct (Hup s r eq_refl) as [r' ->].
    unfold is_refresh. cbn. exact H. }
  constructor; intros sid;
    specialize (H1 sid); specialize (H2 sid); specialize (H3 sid); specialize (H4 sid);
    rewrite !count_emit; cbn [is_creation is_onCreate is_onUpdate is_interval_set];
    change (count ?P (with_next_xhr S (with_pending (fun l => l ++ [x0]) w)))
      with (count P w);
    unfold creating_of, updating_of in *; cbn [pending with_next_xhr with_pending emit];
    rewrite ?filter_snoc, ?length_app.
  - destruct (creating sid x0) eqn:E; [|lia].
    destruct (Hcr sid (Hc0 sid E)) as (Hc & _). lia.
  - destruct (creating sid x0) eqn:E; [|cbn; lia].
    destruct (Hcr sid (Hc0 sid E)) as (_ & Hc & _ & Hp).
    unfold creating_of in Hp. rewrite Hp. cbn. lia.
  - destruct (creating sid x0) eqn:E; [|cbn; lia].
    destruct (Hcr sid (Hc0 sid E)) as (_ & _ & Hc & Hp).
    unfold creating_of in Hp. rewrite Hp. cbn. lia.
  - destruct (updating sid x0) eqn:E.
    + rewrite (Hu0 sid E). cbn. lia.
    + cbn. destruct (refresh_of sid (Sent x0)); lia.
Qed.

Lemma counted_setInterval sid recordId w :
  counted w -> count (is_interval_set sid) w = 0 -> creating_of sid w = [] ->
  counted (setInterval_world sid recordId period w).
Proof.
  intros [H1 H2 H3 H4] Hc Hp.
  constructor; intros s;
    specialize (H1 s); specialize (H2 s); specialize (H3 s); specialize (H4 s);
    unfold setInterval_world; rewrite !count_emit; cbn [is_creation is_onCreate
      is_onUpdate is_interval_set refresh_of];
    unfold count, creating_of, updating_of in *; cbn; try lia.
  destruct (Nat.eqb_spec sid s) as [->|Hne]; [|lia]. rewrite Hp. cbn. lia.
Qed.

Lemma counted_called_onCreate xid x sid recordId w :
  inv w -> counted w -> find_xhr xid w = Some x ->
  json_kont_next (x_onload x) = RecordCallback sid ->
  counted (emit (Called_onCreate sid recordId) (drop_xhr xid w)) /\
  count (is_interval_set sid) w = 0 /\ creating_of sid (drop_xhr xid w) = [].
Proof.
  intros Hinv Hc Hfind Hk. apply find_xhr_Some in Hfind as [Hin <-].
  destruct (pending_creating w x sid Hinv Hin Hk) as (Hv & Ht & Hcr & Hu & Ha).
  split; [|split; [|exact Hcr]].
  - destruct (counted_drop (x_id x) w Hc) as [H1 H2 H3 H4].
    constructor; intros s;
      specialize (H1 s); specialize (H2 s); specialize (H3 s); specialize (H4 s);
      rewrite !count_emit; cbn [is_creation is_onCreate is_onUpdate is_interval_set
        refresh_of]; try (change (creating_of s (emit (Called_onCreate sid recordId)
          (drop_xhr (x_id x) w))) with (creating_of s (drop_xhr (x_id x) w)));
      try (change (updating_of s (emit (Called_onCreate sid recordId)
          (drop_xhr (x_id x) w))) with (updating_of s (drop_xhr (x_id x) w)));
      try lia.
    destruct (Nat.eqb_spec sid s) as [<-|Hne]; [|lia].
    rewrite Hcr. cbn [length].
    pose proof (activity_nil_count (is_onCreate sid) sid w (is_onCreate_activity sid) Ha)
      as H0.
    change (count (is_onCreate sid) (drop_xhr (x_id x) w)) with (count (is_onCreate sid) w).
    lia.
  - apply (activity_nil_count _ sid w (is_interval_set_activity sid) Ha).
Qed.

Lemma counted_called_onUpdate xid x sid recordId w :
  counted w -> find_xhr xid w = Some x ->
  json_kont_next (x_onload x) = UpdateCallback sid recordId ->
  counted (emit (Called_onUpdate sid recordId) (drop_xhr xid w)).
Proof.
  intros Hc Hfind Hk. apply find_xhr_Some in Hfind as [Hin <-].
  assert (Hlt : length (updating_of sid (drop_xhr (x_id x) w)) < length (updating_of sid w)).
  { unfold updating_of. cbn. apply filter_drop_lt with x; [assumption| |].
    - unfold updating. rewrite Hk. apply Nat.eqb_refl.
    - now rewrite Nat.eqb_refl. }
  pose proof (counted_onUpdate w Hc sid) as H4w.
  destruct (counted_drop (x_id x) w Hc) as [H1 H2 H3 H4].
  constructor; intros s;
    specialize (H1 s); specialize (H2 s); specialize (H3 s); specialize (H4 s);
    rewrite !count_emit; cbn [is_creation is_onCreate is_onUpdate is_interval_set
      refresh_of];
    try (change (creating_of s (emit (Called_onUpdate sid recordId)
          (drop_xhr (x_id x) w))) with (creating_of s (drop_xhr (x_id x) w)));
    try (change (updating_of s (emit (Called_onUpdate sid recordId)
          (drop_xhr (x_id x) w))) with (updating_of s (drop_xhr (x_id x) w)));
    try lia.
  destruct (Nat.eqb_spec sid s) as [<-|Hne]; [|lia].
  change (count (is_onUpdate sid) (drop_xhr (x_id x) w)) with (count (is_onUpdate sid) w).
  change (count (refresh_of sid) (drop_xhr (x_id x) w)) with (count (refresh_of sid) w).
  lia.
Qed.

Lemma counted_acts w w' : inv w -> counted w -> acts inst w w' -> counted w'.
Proof.
  intros Hinv Hc Ha.
  destruct Ha as [|cb1 cb2 msg|cb1 cb2 attrs|cb recordId Hf|handle|dt
                 |t Hfind Hdue Hst|t Hfind Hdue Hst|x e Hfind|x w' Hfind Hcm|xid].
  - assumption.
  - apply counted_emit_plain; [reflexivity|].
    now apply (counted_frame w).
  - destruct (inv_fresh w _ Hinv (Nat.le_refl _)) as (Ht & Hcr & Hu & Hab).
    apply counted_send.
    + now apply (counted_frame w).
    + intros sid Hk. cbn in Hk. injection Hk as <-.
      change (count ?P (alloc_session cb1 cb2 w)) with (count P w).
      rewrite (about_nil_count _ _ w (is_creation_about _) Hab),
        (about_nil_count _ _ w (is_onCreate_about _) Hab),
        (about_nil_count _ _ w (is_interval_set_about _) Hab). auto.
    + intros sid r Hk. discriminate Hk.
  - destruct (inv_fresh w _ Hinv (Nat.le_refl _)) as (Ht & Hcr & Hu & Hab).
    apply counted_setInterval.
    + now apply (counted_frame w).
    + apply (about_nil_count _ _ w (is_interval_set_about _) Hab).
    + exact Hcr.
  - now apply (counted_frame w).
  - now apply (counted_frame w).
  - apply (counted_frame (emit (IntervalCleared (t_id t)) w)); [reflexivity|reflexivity|].
    now apply counted_emit_plain.
  - apply (counted_frame
             (send_world (endpoint (server inst)) (updateRecordBody (t_recordId t))
                (UpdateNext (t_recordId t) (UpdateCallback (t_sid t) (t_recordId t))) w));
      [reflexivity|reflexivity|].
    apply counted_send; [assumption| |].
    + intros sid Hk. discriminate Hk.
    + intros sid r Hk. cbn in Hk. injection Hk as <- <-. eexists. reflexivity.
  - apply counted_emit_plain; [reflexivity|]. now apply counted_drop.
  - inversion Hcm as [sid Hk|sid recordId e Hfake Hk|sid recordId Hfake Hk
                     |sid recordId Hk|sid recordId e Hk]; subst w'; symmetry in Hk.
    + apply counted_emit_plain; [reflexivity|]. now apply counted_drop.
    + apply counted_emit_plain; [reflexivity|].
      now apply (counted_called_onCreate (x_id x) x sid recordId w).
    + destruct (counted_called_onCreate (x_id x) x sid recordId w Hinv Hc Hfind Hk)
        as (H1 & H2 & H3).
      apply counted_setInterval; [exact H1| |exact H3].
      rewrite count_emit. cbn [is_interval_set].
      change (count (is_interval_set sid) (drop_xhr (x_id x) w))
        with (count (is_interval_set sid) w). lia.
    + now apply (counted_called_onUpdate (x_id x) x sid recordId w).
    + apply counted_emit_plain; [reflexivity|].
      now apply (counted_called_onUpdate (x_id x) x sid recordId w).
  - now apply counted_drop.
Qed.

Lemma reachable_counted w : reachable inst w -> counted w.
Proof.
  apply (acts_invariant inst counted); [apply counted_init|apply counted_acts].
Qed.

End Counted.

(** ** The pace of refreshes *)

Section Paced.

Variable inst : instance.

Lemma started_inj w sid t0 t1 : started w sid t0 -> started w sid t1 -> t0 = t1.
Proof. intros (s & Hl & Hs) (s' & Hl' & Hs'). congruence. Qed.

Lemma started_alloc cb1 cb2 w sid t0 :
  started (alloc_session cb1 cb2 w) sid t0 <-> started w sid t0.
Proof.
  unfold started. cbn. split.
  - intros (s & Hl & Hs). apply lookup_app_Some in Hl as [Hl|[_ Hl]].
    + now exists s.
    + apply list_lookup_singleton_Some in Hl as [_ <-]. discriminate.
  - intros (s & Hl & Hs). exists s. split; [now apply lookup_app_l_Some|assumption].
Qed.

Lemma started_stop h w sid t0 : started (stop_world h w) sid t0 <-> started w sid t0.
Proof.
  unfold started. cbn. split.
  - intros (s & Hl & Hs). apply lookup_alter_stopped in Hl as (s' & Hl & Hst & _).
    exists s'. split; [assumption|congruence].
  - intros (s & Hl & Hs). destruct (lookup_stopped_alter _ h _ _ Hl) as (s' & Hl' & Hst).
    exists s'. split; [assumption|congruence].
Qed.

Lemma started_setInterval_other sid recordId w s t0 :
  s <> sid ->
  started (setInterval_world sid recordId period w) s t0 <-> started w s t0.
Proof.
  intros Hne. unfold started. cbn. now rewrite list_lookup_alter_ne.
Qed.

Lemma started_setInterval_here sid recordId w :
  sid < length (sessions w) ->
  forall t0, started (setInterval_world sid recordId period w) sid t0 <-> t0 = now w.
Proof.
  intros Hv t0. apply lookup_lt_is_Some in Hv as [s0 Hs0].
  unfold started. cbn. rewrite list_lookup_alter_eq, Hs0. cbn. split.
  - intros (s & Hl & Hs). injection Hl as <-. cbn in Hs. congruence.
  - intros ->. eexists. split; reflexivity.
Qed.

(** Changes that leave the sessions' starts and the refreshes as they
    are, keep or drop intervals, and do not turn the clock back. *)
Lemma paced_frame w w' :
  (forall sid, count (refresh_of sid) w' = count (refresh_of sid) w) ->
  (forall sid t0, started w' sid t0 <-> started w sid t0) ->
  (now w <= now w')%N ->
  (forall t, In t (timers w') -> In t (timers w)) ->
  paced w -> paced w'.
Proof.
  intros Hc Hs Hnow Ht [H1 H2]. constructor.
  - intros sid t0 Hst. apply Hs in Hst. specialize (H1 sid t0 Hst). rewrite Hc. lia.
  - rewrite List.Forall_forall in H2 |- *. intros t Hin.
    destruct (H2 t (Ht t Hin)) as (t0 & Hst & Hle).
    exists t0. split; [now apply Hs|]. now rewrite Hc.
Qed.

Lemma count_refresh_emit_other e w sid :
  refresh_of sid e = false -> count (refresh_of sid) (emit e w) = count (refresh_of sid) w.
Proof. intros H. rewrite count_emit, H. lia. Qed.

Lemma paced_setInterval sid recordId w :
  paced w -> sid < length (sessions w) ->
  count (refresh_of sid) w = 0 -> timers_of sid w = [] ->
  paced (setInterval_world sid recordId period w).
Proof.
  intros [H1 H2] Hv Hc Ht.
  assert (Hcount : forall s,
    count (refresh_of s) (setInterval_world sid recordId period w) = count (refresh_of s) w).
  { intros s. unfold setInterval_world. now rewrite count_refresh_emit_other. }
  constructor.
  - intros s t0 Hst. rewrite Hcount. destruct (Nat.eq_dec s sid) as [->|Hne].
    + apply (started_setInterval_here sid recordId w Hv) in Hst. subst t0.
      rewrite Hc. cbn. lia.
    + apply (started_setInterval_other sid recordId w s t0 Hne) in Hst.
      specialize (H1 s t0 Hst). cbn. lia.
  - change (timers (setInterval_world sid recordId period w))
      with (timers w ++ [{| t_id := next_timer w; t_sid := sid; t_recordId := recordId;
                            t_delay := period; t_due := now w + period |}]).
    apply Forall_app. split.
    + rewrite List.Forall_forall in H2 |- *. intros t Hin.
      destruct (H2 t Hin) as (t0 & Hst & Hle).
      assert (Hne : t_sid t <> sid).
      { intros Heq. apply (filter_nil_In _ _ _ Ht) in Hin. cbn in Hin.
        rewrite Heq, Nat.eqb_refl in Hin. discriminate. }
      exists t0. split; [now apply started_setInterval_other|]. now rewrite Hcount.
    + constructor; [|constructor]. cbn [t_sid t_due]. exists (now w).
      split; [now apply started_setInterval_here|]. rewrite Hcount, Hc. lia.
Qed.

Lemma paced_rearm tid w :
  Forall (fun t => t_delay t = period) (timers w) ->
  (forall sid t0, started w sid t0 ->
     (t0 + period * N.of_nat (count (refresh_of sid) w) <= now w)%N) ->
  Forall (fun t =>
    exists t0, started w (t_sid t) t0 /\
      (t_id t <> tid ->
       (t0 + period * (N.of_nat (count (refresh_of (t_sid t)) w) + 1) <= t_due t)%N))
    (timers w) ->
  paced (rearm tid w).
Proof.
  intros Hd H1 H2. constructor.
  - exact H1.
  - cbn. apply Forall_map. rewrite List.Forall_forall in Hd, H2 |- *. intros t Hin.
    destruct (H2 t Hin) as (t0 & Hst & Hle). specialize (Hd t Hin). cbn in Hd.
    cbn. rewrite rearmed_sid. exists t0. split; [exact Hst|].
    change (count ?P (rearm tid w)) with (count P w).
    unfold rearmed. destruct (Nat.eqb_spec (t_id t) tid) as [Heq|Hne].
    + cbn [t_due]. rewrite Hd. specialize (H1 _ _ Hst). unfold count in *. lia.
    + now apply Hle.
Qed.

Lemma single_timer w t t' :
  inv w -> In t (timers w) -> In t' (timers w) -> t_sid t' = t_sid t -> t' = t.
Proof.
  intros Hinv Hin Hin' Hs. pose proof (inv_single w Hinv (t_sid t)) as H.
  assert (Ht : In t (timers_of (t_sid t) w)).
  { apply filter_In. split; [assumption|apply Nat.eqb_refl]. }
  assert (Ht' : In t' (timers_of (t_sid t) w)).
  { apply filter_In. split; [assumption|now apply Nat.eqb_eq]. }
  destruct (timers_of (t_sid t) w) as [|a [|b l]].
  - destruct Ht.
  - destruct Ht as [<-|[]], Ht' as [<-|[]]. reflexivity.
  - cbn in H. lia.
Qed.

Lemma paced_acts w w' : inv w -> paced w -> acts inst w w' -> paced w'.
Proof.
  intros Hinv Hp Ha.
  destruct Ha as [|cb1 cb2 msg|cb1 cb2 attrs|cb recordId Hf|handle|dt
                 |t Hfind Hdue Hst|t Hfind Hdue Hst|x e Hfind|x w' Hfind Hcm|xid].
  - assumption.
  - apply (paced_frame w); try assumption; try (cbn; lia); try (intros; assumption).
    + intros sid. now rewrite count_refresh_emit_other.
    + intros sid t0. apply started_alloc.
  - apply (paced_frame w); try assumption; try (cbn; lia); try (intros; assumption).
    + intros sid. unfold send_world. now rewrite count_refresh_emit_other.
    + intros sid t0. apply started_alloc.
  - destruct (inv_fresh w _ Hinv (Nat.le_refl _)) as (Ht & Hcr & Hu & Hab).
    apply paced_setInterval.
    + apply (paced_frame w); try assumption; try (cbn; lia); try (intros; assumption).
      * reflexivity.
      * intros sid t0. apply started_alloc.
    + cbn. rewrite length_app. cbn. lia.
    + apply (about_nil_count _ _ w (refresh_of_about _) Hab).
    + exact Ht.
  - apply (paced_frame w); try assumption; try (cbn; lia); try (intros; assumption).
    + reflexivity.
    + intros sid t0. apply started_stop.
  - apply (paced_frame w); try assumption; try (cbn; lia); try (intros; assumption);
      reflexivity.
  - destruct Hp as [H1 H2]. apply paced_rearm.
    + cbn. pose proof (inv_delay w Hinv) as Hd.
      rewrite List.Forall_forall in Hd |- *. intros t' Hin.
      apply filter_In in Hin as [Hin _]. now apply Hd.
    + intros sid t0 Hs. unfold clearInterval_world.
      rewrite count_refresh_emit_other by reflexivity. now apply H1.
    + change (timers (clearInterval_world (t_id t) w))
        with (List.filter (fun t0 => negb (Nat.eqb (t_id t0) (t_id t))) (timers w)).
      rewrite List.Forall_forall in H2 |- *. intros t' Hin.
      apply filter_In in Hin as [Hin _]. destruct (H2 t' Hin) as (t0 & Hs & Hle).
      exists t0. split; [exact Hs|]. intros _.
      unfold clearInterval_world. now rewrite count_refresh_emit_other.
  - destruct Hp as [H1 H2]. pose proof (find_timer_In _ _ _ Hfind) as Hin.
    assert (Hcount : forall sid,
      count (refresh_of sid)
        (send_world (endpoint (server inst)) (updateRecordBody (t_recordId t))
           (UpdateNext (t_recordId t) (UpdateCallback (t_sid t) (t_recordId t))) w) =
      count (refresh_of sid) w + (if Nat.eqb (t_sid t) sid then 1 else 0)).
    { intros sid. unfold send_world. rewrite count_emit. reflexivity. }
    apply paced_rearm.
    + exact (inv_delay w Hinv).
    + intros sid t0 Hs. rewrite Hcount.
      change (started w sid t0) in Hs. change (now (send_world _ _ _ w)) with (now w).
      destruct (Nat.eqb_spec (t_sid t) sid) as [<-|Hne].
      * rewrite List.Forall_forall in H2. destruct (H2 t Hin) as (t1 & Hs1 & Hle).
        rewrite (started_inj _ _ _ _ Hs Hs1). lia.
      * specialize (H1 sid t0 Hs). lia.
    + cbn [timers send_world emit with_next_xhr with_pending].
      rewrite List.Forall_forall in H2 |- *. intros t' Hin'.
      destruct (H2 t' Hin') as (t0 & Hs & Hle). exists t0. split; [exact Hs|].
      intros Hne. rewrite Hcount.
      destruct (Nat.eqb_spec (t_sid t) (t_sid t')) as [Heq|Hne'].
      * exfalso. apply Hne. symmetry in Heq.
        now rewrite (single_timer w t t' Hinv Hin Hin' Heq).
      * lia.
  - apply (paced_frame w); try assumption; try (cbn; lia); try (intros; assumption).
    + intros sid. now rewrite count_refresh_emit_other.
    + reflexivity.
  - pose proof (find_xhr_In _ _ _ Hfind) as Hin.
    inversion Hcm as [sid Hk|sid recordId e Hfake Hk|sid recordId Hfake Hk
                     |sid recordId Hk|sid recordId e Hk]; subst w'; symmetry in Hk;
      try (apply (paced_frame w); try assumption; try (cbn; lia);
           try (intros; assumption);
           [intros s; rewrite ?count_refresh_emit_other by reflexivity; reflexivity
           |reflexivity]).
    destruct (pending_creating w x sid Hinv Hin Hk) as (Hv & Ht & Hcr & Hu & Hact).
    apply paced_setInterval.
    + apply (paced_frame w); try assumption; try (cbn; lia); try (intros; assumption).
      * intros s. now rewrite count_refresh_emit_other.
      * reflexivity.
    + exact Hv.
    + rewrite count_refresh_emit_other by reflexivity.
      apply (activity_nil_count _ sid w (refresh_activity sid) Hact).
    + exact Ht.
  - apply (paced_frame w); try assumption; try (cbn; lia); try (intros; assumption);
      reflexivity.
Qed.

Lemma paced_init : paced init.
Proof.
  constructor.
  - intros sid t0 (s & Hl & _). cbn in Hl. rewrite lookup_nil in Hl. discriminate.
  - cbn. constructor.
Qed.

Lemma reachable_paced w : reachable inst w -> paced w.
Proof. apply (acts_invariant inst paced); [apply paced_init|apply paced_acts]. Qed.

End Paced.

(** ** One record id per session *)

Section OneId.

Variable inst : instance.

Lemma flat_map_filter_incl {A B} (f : A -> list B) (P : A -> bool) (l : list A) :
  incl (flat_map f (List.filter P l)) (flat_map f l).
Proof.
  intros b Hb. apply in_flat_map in Hb as (a & Ha & Hb). apply in_flat_map.
  exists a. split; [|assumption]. now apply filter_In in Ha as [Ha _].
Qed.

Lemma flat_map_nil {A B} (f : A -> list B) (l : list A) :
  (forall a, In a l -> f a = []) -> flat_map f l = [].
Proof.
  induction l as [|a l IH]; cbn; [reflexivity|]. intros H.
  rewrite (H a (or_introl eq_refl)), IH; auto.
Qed.

Lemma timer_ids_rearmed sid clock tid t : timer_ids sid (rearmed clock tid t) = timer_ids sid t.
Proof. unfold timer_ids. now rewrite rearmed_sid, rearmed_recordId. Qed.

Lemma flat_map_rearmed sid clock tid (l : list timer) :
  flat_map (timer_ids sid) (List.map (rearmed clock tid) l) = flat_map (timer_ids sid) l.
Proof.
  induction l as [|t l IH]; [reflexivity|]. cbn [List.map flat_map].
  now rewrite timer_ids_rearmed, IH.
Qed.

Lemma ids_of_nil sid w :
  timers_of sid w = [] -> updating_of sid w = [] ->
  List.filter (activity sid) (log w) = [] -> ids_of sid w = [].
Proof.
  intros Ht Hu Ha. unfold ids_of.
  rewrite (flat_map_nil (timer_ids sid)), (flat_map_nil (xhr_ids sid)),
    (flat_map_nil (effect_ids sid)); [reflexivity| | |].
  - intros e Hin. apply (filter_nil_In _ _ _ Ha) in Hin.
    destruct e as [msg|x|s r|s r|s tid|tid|ex]; cbn in *; try reflexivity.
    + unfold xhr_ids. destruct (is_refresh x) eqn:Hr; [|reflexivity].
      rewrite json_kont_sid_next in Hin. cbn in Hin.
      destruct (json_kont_next (x_onload x)); [reflexivity|]. cbn in Hin.
      now rewrite Hin.
    + now rewrite Hin.
    + now rewrite Hin.
  - intros x Hin. apply (filter_nil_In _ _ _ Hu) in Hin. unfold updating in Hin.
    unfold xhr_ids. destruct (json_kont_next (x_onload x)); [reflexivity|].
    now rewrite Hin.
  - intros t Hin. apply (filter_nil_In _ _ _ Ht) in Hin. cbn in Hin.
    unfold timer_ids. now rewrite Hin.
Qed.

(** Two ways to keep one id: add none, or have only one. *)
Lemma one_id_step w w' :
  (forall sid,
     incl (ids_of sid w') (ids_of sid w) \/
     exists r, forall a, In a (ids_of sid w') -> a = r) ->
  one_id w -> one_id w'.
Proof.
  intros H Hw sid a b Ha Hb. destruct (H sid) as [Hi|[r Hr]].
  - apply (Hw sid); now apply Hi.
  - rewrite (Hr a Ha), (Hr b Hb). reflexivity.
Qed.

Lemma ids_of_frame w w' sid :
  incl (flat_map (timer_ids sid) (timers w')) (flat_map (timer_ids sid) (timers w)) ->
  incl (flat_map (xhr_ids sid) (pending w')) (flat_map (xhr_ids sid) (pending w)) ->
  incl (flat_map (effect_ids sid) (log w')) (flat_map (effect_ids sid) (log w)) ->
  incl (ids_of sid w') (ids_of sid w).
Proof.
  intros H1 H2 H3. unfold ids_of. intros a Ha.
  rewrite !in_app_iff in *. destruct Ha as [Ha|[Ha|Ha]]; auto.
Qed.

Lemma incl_snoc_nil {A B} (f : A -> list B) (l : list A) (a : A) :
  f a = [] -> incl (flat_map f (l ++ [a])) (flat_map f l).
Proof.
  intros H. rewrite flat_map_app. cbn. rewrite H. cbn. rewrite app_nil_r.
  apply incl_refl.
Qed.

Lemma in_ids_timer sid w t :
  In t (timers w) -> t_sid t = sid -> In (t_recordId t) (ids_of sid w).
Proof.
  intros Hin Hs. unfold ids_of. apply in_app_iff. left. apply in_flat_map.
  exists t. split; [assumption|]. unfold timer_ids.
  rewrite Hs, Nat.eqb_refl. now left.
Qed.

Lemma in_ids_pending sid w x recordId :
  In x (pending w) -> json_kont_next (x_onload x) = UpdateCallback sid recordId ->
  In recordId (ids_of sid w).
Proof.
  intros Hin Hk. unfold ids_of. apply in_app_iff. right. apply in_app_iff. left.
  apply in_flat_map. exists x. split; [assumption|]. unfold xhr_ids.
  rewrite Hk, Nat.eqb_refl. now left.
Qed.

Lemma one_id_acts w w' : inv w -> one_id w -> acts inst w w' -> one_id w'.
Proof.
  intros Hinv Hone Ha. apply (one_id_step w); [|exact Hone]. intros sid.
  destruct Ha as [|cb1 cb2 msg|cb1 cb2 attrs|cb recordId Hf|handle|dt
                 |t Hfind Hdue Hst|t Hfind Hdue Hst|x e Hfind|x w' Hfind Hcm|xid].
  - left. apply incl_refl.
  - left. apply ids_of_frame; try apply incl_refl. cbn. now apply incl_snoc_nil.
  - left. apply ids_of_frame; try apply incl_refl; cbn; now apply incl_snoc_nil.
  - destruct (inv_fresh w _ Hinv (Nat.le_refl _)) as (Ht & Hcr & Hu & Hab).
    destruct (Nat.eq_dec (length (sessions w)) sid) as [<-|Hne].
    + right. exists recordId. intros a Hin. unfold ids_of in Hin. cbn in Hin.
      rewrite !flat_map_app in Hin. cbn in Hin.
      pose proof (ids_of_nil _ w Ht Hu (filter_activity_about _ _ Hab)) as Hnil.
      unfold ids_of in Hnil. apply app_eq_nil in Hnil as [H1 H23].
      apply app_eq_nil in H23 as [H2 H3]. rewrite H1, H2, H3 in Hin. cbn in Hin.
      unfold timer_ids in Hin. cbn in Hin. rewrite Nat.eqb_refl in Hin.
      cbn in Hin. destruct Hin as [<-|[]]. reflexivity.
    + left. apply ids_of_frame; try apply incl_refl; cbn.
      * apply incl_snoc_nil. unfold timer_ids. cbn.
        apply Nat.eqb_neq in Hne. now rewrite Hne.
      * apply incl_snoc_nil. cbn. apply Nat.eqb_neq in Hne. reflexivity.
  - left. apply incl_refl.
  - left. apply incl_refl.
  - left. apply ids_of_frame; try apply incl_refl; cbn.
    + rewrite flat_map_rearmed. apply flat_map_filter_incl.
    + now apply incl_snoc_nil.
  - pose proof (find_timer_In _ _ _ Hfind) as Hin. left.
    unfold ids_of. cbn. rewrite flat_map_rearmed, !flat_map_app. cbn.
    unfold xhr_ids, is_refresh. cbn. rewrite !app_nil_r.
    intros a Ha. rewrite !in_app_iff in Ha.
    assert (Hnew : In a (if Nat.eqb (t_sid t) sid then [t_recordId t] else []) ->
                   In a (ids_of sid w)).
    { destruct (Nat.eqb_spec (t_sid t) sid) as [Heq|Hne]; [|intros []].
      intros [<-|[]]. now apply in_ids_timer. }
    unfold ids_of in Hnew |- *. rewrite !in_app_iff in *.
    destruct Ha as [Ha|[[Ha|Ha]|[Ha|Ha]]]; auto.
  - left. apply ids_of_frame; try apply incl_refl; cbn.
    + apply flat_map_filter_incl.
    + now apply incl_snoc_nil.
  - pose proof (find_xhr_In _ _ _ Hfind) as Hin.
    inversion Hcm as [s Hk|s recordId e Hfake Hk|s recordId Hfake Hk
                     |s recordId Hk|s recordId e Hk]; subst w'; symmetry in Hk.
    + left. apply ids_of_frame; try apply incl_refl; cbn.
      * apply flat_map_filter_incl.
      * now apply incl_snoc_nil.
    + destruct (pending_creating w x s Hinv Hin Hk) as (Hv & Ht & Hcr & Hu & Hact).
      destruct (Nat.eq_dec s sid) as [->|Hne].
      * right. exists recordId. intros a Ha.
        pose proof (ids_of_nil _ w Ht Hu Hact) as Hnil.
        unfold ids_of in Hnil. apply app_eq_nil in Hnil as [H1 H23].
        apply app_eq_nil in H23 as [H2 H3].
        unfold ids_of in Ha. cbn in Ha. rewrite !flat_map_app, H1, H3 in Ha.
        cbn in Ha. rewrite Nat.eqb_refl in Ha. cbn in Ha.
        rewrite !in_app_iff in Ha. destruct Ha as [Ha|[<-|[]]]; [|reflexivity].
        apply flat_map_filter_incl in Ha. rewrite H2 in Ha. destruct Ha.
      * left. apply ids_of_frame; try apply incl_refl; cbn.
        -- apply flat_map_filter_incl.
        -- rewrite <- app_assoc. rewrite flat_map_app. cbn.
           apply Nat.eqb_neq in Hne. rewrite Hne. cbn. rewrite app_nil_r.
           apply incl_refl.
    + destruct (pending_creating w x s Hinv Hin Hk) as (Hv & Ht & Hcr & Hu & Hact).
      destruct (Nat.eq_dec s sid) as [->|Hne].
      * right. exists recordId. intros a Ha.
        pose proof (ids_of_nil _ w Ht Hu Hact) as Hnil.
        unfold ids_of in Hnil. apply app_eq_nil in Hnil as [H1 H23].
        apply app_eq_nil in H23 as [H2 H3].
        unfold ids_of in Ha. cbn in Ha. rewrite !flat_map_app, H1, H3 in Ha.
        cbn in Ha. unfold timer_ids in Ha. cbn in Ha. rewrite Nat.eqb_refl in Ha.
        cbn in Ha. rewrite !in_app_iff in Ha.
        destruct Ha as [<-|[Ha|[<-|[]]]]; try reflexivity.
        apply flat_map_filter_incl in Ha. rewrite H2 in Ha. destruct Ha.
      * left. apply Nat.eqb_neq in Hne. apply ids_of_frame; cbn.
        -- apply incl_snoc_nil. unfold timer_ids. cbn. now rewrite Hne.
        -- apply flat_map_filter_incl.
        -- rewrite <- app_assoc. rewrite flat_map_app. cbn. rewrite Hne. cbn.
           rewrite app_nil_r. apply incl_refl.
    + left. unfold ids_of. cbn. rewrite flat_map_app. cbn.
      intros a Ha. rewrite !in_app_iff in Ha.
      assert (Hnew : In a (if Nat.eqb s sid then [recordId] else []) ->
                     In a (ids_of sid w)).
      { destruct (Nat.eqb_spec s sid) as [Heq|Hne]; [|intros []].
        intros [<-|[]]. subst s. now apply in_ids_pending with x. }
      unfold ids_of in Hnew |- *. rewrite !in_app_iff in *.
      destruct Ha as [Ha|[Ha|[Ha|[Ha|[]]]]]; auto.
      right. left. now apply flat_map_filter_incl in Ha.
    + left. unfold ids_of. cbn. rewrite <- app_assoc. rewrite flat_map_app. cbn.
      intros a Ha. rewrite !in_app_iff in Ha.
      assert (Hnew : In a (if Nat.eqb s sid then [recordId] else []) ->
                     In a (ids_of sid w)).
      { destruct (Nat.eqb_spec s sid) as [Heq|Hne]; [|intros []].
        intros [<-|[]]. subst s. now apply in_ids_pending with x. }
      unfold ids_of in Hnew |- *. rewrite !in_app_iff in *.
      destruct Ha as [Ha|[Ha|[Ha|[Ha|[]]]]]; auto.
      right. left. now apply flat_map_filter_incl in Ha.
  - left. apply ids_of_frame; try apply incl_refl; cbn. apply flat_map_filter_incl.
Qed.

Lemma reachable_one_id w : reachable inst w -> one_id w.
Proof.
  apply (acts_invariant inst one_id); [|apply one_id_acts].
  intros sid a b [].
Qed.

End OneId.

(** ** Sessions past their start *)

Section Settled.

Variable inst : instance.

Lemma starts_about sid e : starts sid e = true -> about sid e = true.
Proof.
  destruct e; cbn; try discriminate; auto. intros H. apply creating_sid in H.
  now apply Nat.eqb_eq.
Qed.

(** A session without creation request in flight is never started
    (again): no creation request, no [onCreate], no [setInterval]. *)
Lemma settled_acts sid w w' :
  sid < length (sessions w) -> creating_of sid w = [] -> acts inst w w' ->
  sid < length (sessions w') /\ creating_of sid w' = [] /\
  (timers_of sid w = [] -> timers_of sid w' = []) /\
  exists l, log w' = log w ++ l /\ Forall (fun e => starts sid e = false) l.
Proof.
  intros Hv Hc Ha.
  assert (Hdrop : forall xid, creating_of sid (drop_xhr xid w) = []).
  { intros xid. unfold creating_of in *. cbn. now apply filter_filter_nil. }
  destruct Ha as [|cb1 cb2 msg|cb1 cb2 attrs|cb recordId Hf|handle|dt
                 |t Hfind Hdue Hst|t Hfind Hdue Hst|x e Hfind|x w' Hfind Hcm|xid].
  - repeat split; auto. exists []. rewrite app_nil_r. auto.
  - split; [cbn; rewrite length_app; lia|]. split; [exact Hc|]. split; [auto|].
    eexists [_]. split; [reflexivity|]. repeat constructor.
  - assert (Hne : Nat.eqb (length (sessions w)) sid = false) by (apply Nat.eqb_neq; lia).
    split; [cbn; rewrite length_app; lia|]. split; [|split; [auto|]].
    + unfold creating_of in *. cbn. rewrite filter_snoc, Hc. unfold creating. cbn.
      now rewrite Hne.
    + eexists [_]. split; [reflexivity|]. constructor; [|constructor].
      cbn. unfold creating. cbn. exact Hne.
  - assert (Hne : Nat.eqb (length (sessions w)) sid = false) by (apply Nat.eqb_neq; lia).
    split; [cbn; rewrite length_alter, length_app; lia|]. split; [exact Hc|]. split.
    + intros Ht. unfold timers_of in *. cbn. rewrite filter_snoc, Ht. cbn. now rewrite Hne.
    + eexists [_]. split; [reflexivity|]. constructor; [|constructor]. cbn. exact Hne.
  - split; [cbn; now rewrite length_alter|]. split; [exact Hc|]. split; [auto|].
    exists []. rewrite app_nil_r. auto.
  - repeat split; auto. exists []. rewrite app_nil_r. auto.
  - split; [exact Hv|]. split; [exact Hc|]. split.
    + intros Ht. unfold timers_of in *. cbn. rewrite filter_rearmed.
      now rewrite (filter_filter_nil _ _ _ Ht).
    + eexists [_]. split; [reflexivity|]. repeat constructor.
  - split; [exact Hv|]. split; [|split].
    + unfold creating_of in *. cbn. rewrite filter_snoc, Hc. reflexivity.
    + intros Ht. unfold timers_of in *. cbn. now rewrite filter_rearmed, Ht.
    + eexists [_]. split; [reflexivity|]. repeat constructor.
  - split; [exact Hv|]. split; [apply Hdrop|]. split; [auto|].
    eexists [_]. split; [reflexivity|]. repeat constructor.
  - pose proof (find_xhr_In _ _ _ Hfind) as Hin.
    assert (Hne : forall s, json_kont_next (x_onload x) = RecordCallback s ->
                            Nat.eqb s sid = false).
    { intros s Hk. apply (filter_nil_In _ _ _ Hc) in Hin. unfold creating in Hin.
      now rewrite Hk in Hin. }
    inversion Hcm as [s Hk|s recordId e Hfake Hk|s recordId Hfake Hk
                     |s recordId Hk|s recordId e Hk]; subst w'; symmetry in Hk.
    + split; [exact Hv|]. split; [apply Hdrop|]. split; [auto|].
      eexists [_]. split; [reflexivity|]. repeat constructor.
    + split; [exact Hv|]. split; [apply Hdrop|]. split; [auto|].
      eexists [_; _]. split; [cbn; now rewrite <- app_assoc|].
      repeat constructor. cbn. now apply Hne.
    + split; [cbn; now rewrite length_alter|]. split; [apply Hdrop|]. split.
      * intros Ht. unfold timers_of in *. cbn. rewrite filter_snoc, Ht. cbn.
        now rewrite (Hne s Hk).
      * eexists [_; _]. split; [cbn; now rewrite <- app_assoc|].
        repeat constructor; cbn; now apply Hne.
    + split; [exact Hv|]. split; [apply Hdrop|]. split; [auto|].
      eexists [_]. split; [reflexivity|]. repeat constructor.
    + split; [exact Hv|]. split; [apply Hdrop|]. split; [auto|].
      eexists [_; _]. split; [cbn; now rewrite <- app_assoc|]. repeat constructor.
  - split; [exact Hv|]. split; [apply Hdrop|]. split; [auto|].
    exists []. rewrite app_nil_r. auto.
Qed.

(** A session without interval sends no refresh. *)
Lemma idle_acts sid w w' :
  timers_of sid w = [] -> acts inst w w' ->
  exists l, log w' = log w ++ l /\ Forall (fun e => refresh_of sid e = false) l.
Proof.
  intros Ht Ha.
  destruct Ha as [|cb1 cb2 msg|cb1 cb2 attrs|cb recordId Hf|handle|dt
                 |t Hfind Hdue Hst|t Hfind Hdue Hst|x e Hfind|x w' Hfind Hcm|xid];
    try (exists []; rewrite app_nil_r; split; [reflexivity|constructor]);
    try (eexists [_]; split; [reflexivity|]; repeat constructor).
  - apply find_timer_In in Hfind.
    apply (filter_nil_In _ _ _ Ht) in Hfind. cbn. exact Hfind.
  - inversion Hcm; subst w';
      try (eexists [_]; split; [reflexivity|]; repeat constructor);
      try (eexists [_; _]; split; [cbn; now rewrite <- app_assoc|]; repeat constructor).
Qed.

Lemma settled_run sid es w :
  sid < length (sessions w) -> creating_of sid w = [] ->
  creating_of sid (run inst w es) = [] /\
  (timers_of sid w = [] -> timers_of sid (run inst w es) = []) /\
  exists l, log (run inst w es) = log w ++ l /\
    Forall (fun e => starts sid e = false) l /\
    (timers_of sid w = [] -> Forall (fun e => refresh_of sid e = false) l).
Proof.
  revert w. induction es as [|e es IH]; intros w Hv Hc.
  - split; [exact Hc|]. split; [auto|]. exists []. rewrite app_nil_r.
    split; [reflexivity|]. split; [constructor|]. intros _. constructor.
  - destruct (settled_acts sid w _ Hv Hc (step_acts inst w e))
      as (Hv' & Hc' & Ht & l & Hl & HF).
    destruct (IH _ Hv' Hc') as (H1 & H2 & l' & Hl' & HF' & HR').
    change (run inst w (e :: es)) with (run inst (step inst w e) es).
    split; [exact H1|]. split; [auto|]. exists (l ++ l').
    split; [now rewrite Hl', Hl, <- app_assoc|].
    split; [apply Forall_app; auto|].
    intros Hnil. apply Forall_app. split; [|auto].
    destruct (idle_acts sid w _ Hnil (step_acts inst w e)) as (l0 & Hl0 & HF0).
    rewrite Hl in Hl0. apply app_inv_head in Hl0. now subst l0.
Qed.

End Settled.

(** ** The interval of a running session *)

Section Heartbeat.

Variable inst : instance.

Lemma NoDup_map_inj {A B} (f : A -> B) (l : list A) (a b : A) :
  List.NoDup (List.map f l) -> In a l -> In b l -> f a = f b -> a = b.
Proof.
  induction l as [|c l IH]; cbn; [intros _ []|]. intros Hn Ha Hb Hf.
  apply List.NoDup_cons_iff in Hn as [Hc Hn].
  destruct Ha as [->|Ha], Hb as [->|Hb]; auto.
  - exfalso. apply Hc. rewrite Hf. now apply in_map.
  - exfalso. apply Hc. rewrite <- Hf. now apply in_map.
Qed.

Lemma find_timer_unique w t :
  timers_ok w -> In t (timers w) -> find_timer (t_id t) w = Some t.
Proof.
  intros Hok Hin. unfold find_timer.
  destruct (List.find (fun t0 => Nat.eqb (t_id t0) (t_id t)) (timers w)) as [t'|] eqn:E.
  - apply find_some in E as [Hin' Heq]. apply Nat.eqb_eq in Heq.
    f_equal. apply (NoDup_map_inj t_id (timers w)); auto. apply (timers_nodup w Hok).
  - apply (find_none _ _ E) in Hin. now rewrite Nat.eqb_refl in Hin.
Qed.

Lemma stopped_alloc_false sid cb1 cb2 w :
  stopped sid w = false -> stopped sid (alloc_session cb1 cb2 w) = false.
Proof.
  unfold stopped. cbn. intros H.
  destruct (sessions w !! sid) as [s|] eqn:E.
  - now rewrite (lookup_app_l_Some _ _ _ _ E).
  - destruct ((sessions w ++ _) !! sid) as [s|] eqn:E'; [|reflexivity].
    apply lookup_app_Some in E' as [E'|[_ E']]; [congruence|].
    now apply list_lookup_singleton_Some in E' as [_ <-].
Qed.

(** Only [stop] sets the flag of a session. *)
Lemma unstopped_step sid w e :
  stopped sid w = false -> e <> Call_stop sid ->
  stopped sid (step inst w e) = false.
Proof.
  intros Hs Hne.
  destruct e as [env attrs cbs|env recordId cbs|handle|dt|tid|xid status parsed|xid];
    cbn [step].
  - unfold task. destruct (ineligible (opts inst) env) eqn:Hel.
    + destruct (record_ineligible inst env attrs cbs w Hel) as (msg & ->).
      now apply stopped_alloc_false.
    + rewrite (record_eligible inst env attrs cbs w Hel). now apply stopped_alloc_false.
  - unfold task. destruct (ineligible (opts inst) env || isFakeRecordId recordId) eqn:Hel.
    + destruct (updateRecord_ineligible inst env recordId cbs w Hel) as (msg & ->).
      now apply stopped_alloc_false.
    + apply orb_false_iff in Hel as [Hel Hf].
      rewrite (updateRecord_eligible inst env recordId cbs w Hel Hf).
      rewrite stopped_setInterval. now apply stopped_alloc_false.
  - change (task (stop handle) w) with (stop_world handle w).
    rewrite stopped_other; [assumption|]. intros ->. now apply Hne.
  - exact Hs.
  - destruct (find_timer tid w) as [t|]; [|exact Hs].
    destruct (t_due t <=? now w)%N; [|exact Hs].
    unfold task, heartbeat. now destruct (stopped (t_sid t) w).
  - destruct (find_xhr xid w) as [x|]; [|exact Hs].
    destruct (completes_xhr_onload (x_onload x) status parsed (drop_xhr xid w))
      as [[e ->]|Hc]; [exact Hs|].
    inversion Hc as [s Hk Hw|s r e Hfake Hk Hw|s r Hfake Hk Hw|s r Hk Hw|s r e Hk Hw];
      try exact Hs.
    now rewrite stopped_setInterval.
  - exact Hs.
Qed.

(** The interval of a session that is not stopped outlives every step. *)
Lemma timer_survives_acts w w' t :
  timers_ok w -> In t (timers w) -> stopped (t_sid t) w = false -> acts inst w w' ->
  exists t', In t' (timers w') /\ t_id t' = t_id t /\ t_sid t' = t_sid t /\
             t_recordId t' = t_recordId t.
Proof.
  intros Hok Hin Hs Ha.
  assert (Hsame : timers w' = timers w ->
    exists t', In t' (timers w') /\ t_id t' = t_id t /\ t_sid t' = t_sid t /\
               t_recordId t' = t_recordId t).
  { intros ->. exists t. auto. }
  assert (Hrearm : forall tid l, In t l ->
    exists t', In t' (List.map (rearmed (now w) tid) l) /\ t_id t' = t_id t /\
               t_sid t' = t_sid t /\ t_recordId t' = t_recordId t).
  { intros tid l Hl. exists (rearmed (now w) tid t). split; [now apply in_map|].
    now rewrite rearmed_id, rearmed_sid, rearmed_recordId. }
  destruct Ha as [|cb1 cb2 msg|cb1 cb2 attrs|cb recordId Hf|handle|dt
                 |t0 Hfind Hdue Hst|t0 Hfind Hdue Hst|x e Hfind|x w' Hfind Hcm|xid];
    try (apply Hsame; reflexivity).
  - exists t. split; [cbn; apply in_app_iff; now left|auto].
  - apply (Hrearm (t_id t0)). apply filter_In. split; [assumption|].
    apply negb_true_iff, Nat.eqb_neq. intros Heq.
    pose proof (find_timer_In _ _ _ Hfind) as Hin0.
    assert (t = t0) by (apply (NoDup_map_inj t_id (timers w)); auto;
                        apply (timers_nodup w Hok)).
    subst t0. congruence.
  - now apply (Hrearm (t_id t0)).
  - inversion Hcm; subst w'; try (apply Hsame; reflexivity).
    exists t. split; [cbn; apply in_app_iff; now left|auto].
Qed.

Lemma timer_survives_run es w t :
  reachable inst w -> In t (timers w) -> stopped (t_sid t) w = false ->
  Forall (fun e => e <> Call_stop (t_sid t)) es ->
  stopped (t_sid t) (run inst w es) = false /\
  exists t', In t' (timers (run inst w es)) /\ t_id t' = t_id t /\
             t_sid t' = t_sid t /\ t_recordId t' = t_recordId t.
Proof.
  revert w t. induction es as [|e es IH]; intros w t Hreach Hin Hs HF.
  - split; [exact Hs|]. exists t. auto.
  - apply List.Forall_cons_iff in HF as [He HF].
    change (run inst w (e :: es)) with (run inst (step inst w e) es).
    destruct (timer_survives_acts w _ t (reachable_timers_ok inst w Hreach) Hin Hs
                (step_acts inst w e)) as (t1 & Hin1 & Hid & Hsid & Hrec).
    destruct (IH (step inst w e) t1) as (Hs' & t' & Hin' & Hid' & Hsid' & Hrec').
    + now apply reachable_step.
    + exact Hin1.
    + rewrite Hsid. now apply unstopped_step.
    + now rewrite Hsid.
    + split; [now rewrite <- Hsid|]. exists t'. repeat split; congruence.
Qed.

(** What a due tick does. *)
Lemma tick_refresh w t :
  find_timer (t_id t) w = Some t -> (t_due t <= now w)%N -> stopped (t_sid t) w = false ->
  step inst w (Tick (t_id t)) =
  rearm (t_id t)
    (send_world (endpoint (server inst)) (updateRecordBody (t_recordId t))
       (UpdateNext (t_recordId t) (UpdateCallback (t_sid t) (t_recordId t))) w).
Proof.
  intros Hfind Hdue Hs. cbn [step]. rewrite Hfind.
  apply N.leb_le in Hdue. rewrite Hdue. unfold task, heartbeat. now rewrite Hs.
Qed.

Lemma tick_cleared w t :
  find_timer (t_id t) w = Some t -> (t_due t <= now w)%N -> stopped (t_sid t) w = true ->
  step inst w (Tick (t_id t)) = rearm (t_id t) (clearInterval_world (t_id t) w).
Proof.
  intros Hfind Hdue Hs. cbn [step]. rewrite Hfind.
  apply N.leb_le in Hdue. rewrite Hdue. unfold task, heartbeat. now rewrite Hs.
Qed.

End Heartbeat.

(** ** Sessions over a whole run *)

(** X7.  Every request an instance ever sends is a POST to the endpoint
    of its server, with the JSON content type as only header and with
    credentials; it is either a creation for the domain of the instance,
    or the refresh of the record id its callback will report. *)
Theorem requests_well_formed (inst : instance) (w : world) (x : xhr) :
  reachable inst w -> In (Sent x) (log w) -> well_formed_request inst x.
Proof.
  intros Hr Hin. pose proof (reachable_well_formed inst w Hr) as HF.
  rewrite List.Forall_forall in HF. exact (HF _ Hin).
Qed.

Lemma requests_well_formed_witness :
  reachable tracker (run tracker init visit_refreshing) /\
  In (Sent first_refresh) (log (run tracker init visit_refreshing)) /\
  well_formed_request tracker first_refresh.
Proof.
  assert (Hreach : reachable tracker (run tracker init visit_refreshing))
    by (exists visit_refreshing; reflexivity).
  assert (Hin : In (Sent first_refresh) (log (run tracker init visit_refreshing)))
    by (vm_compute; do 3 right; left; reflexivity).
  split; [exact Hreach|]. split; [exact Hin|].
  exact (requests_well_formed tracker _ first_refresh Hreach Hin).
Defined.

Lemma in_ids_log sid w e a :
  In e (log w) -> In a (effect_ids sid e) -> In a (ids_of sid w).
Proof.
  intros He Ha. unfold ids_of. rewrite !in_app_iff. right; right.
  apply in_flat_map. eauto.
Qed.

(** X8.  A session works with one record id: the id [onCreate] was
    called with, the ids [onUpdate] was called with, the ids in the bodies
    of its refresh requests and the id its interval holds are all the
    same. *)
Theorem one_record_id (inst : instance) (w : world) (sid : nat) :
  reachable inst w ->
  exists recordId,
    (forall a, In (Called_onCreate sid a) (log w) -> a = recordId) /\
    (forall a, In (Called_onUpdate sid a) (log w) -> a = recordId) /\
    (forall x, In (Sent x) (log w) -> refresh_of sid (Sent x) = true ->
       x_body x = updateRecordBody recordId) /\
    (forall t, In t (timers w) -> t_sid t = sid -> t_recordId t = recordId).
Proof.
  intros Hr. pose proof (reachable_one_id inst w Hr) as Hone.
  pose proof (reachable_well_formed inst w Hr) as HF.
  rewrite List.Forall_forall in HF.
  exists (hd VUndefined (ids_of sid w)).
  assert (Hall : forall a, In a (ids_of sid w) -> a = hd VUndefined (ids_of sid w)).
  { intros a Ha. apply (Hone sid); [exact Ha|].
    destruct (ids_of sid w); [destruct Ha|now left]. }
  split; [|split; [|split]].
  - intros a Ha. apply Hall, (in_ids_log sid w _ a Ha). cbn.
    rewrite Nat.eqb_refl. now left.
  - intros a Ha. apply Hall, (in_ids_log sid w _ a Ha). cbn.
    rewrite Nat.eqb_refl. now left.
  - intros x Hx Href. specialize (HF _ Hx). cbn in HF, Href.
    destruct HF as (_ & _ & _ & _ & HF).
    assert (Hid : forall a, In a (effect_ids sid (Sent x)) -> a = hd VUndefined (ids_of sid w)).
    { intros a Ha. apply Hall, (in_ids_log sid w _ a Hx Ha). }
    unfold effect_ids, xhr_ids, is_refresh in *.
    destruct (x_onload x) as [k|r k]; [discriminate|]. cbn in *.
    destruct k as [s|s r']; [destruct HF|]. destruct HF as [-> ->]. cbn in *.
    rewrite Href in Hid. f_equal. apply Hid. now left.
  - intros t Ht Hs. apply Hall. now apply in_ids_timer.
Qed.

Lemma one_record_id_witness :
  exists recordId,
    (forall a, In (Called_onUpdate 0 a) (log (run tracker init three_periods)) ->
       a = recordId) /\
    (forall t, In t (timers (run tracker init three_periods)) -> t_sid t = 0 ->
       t_recordId t = recordId).
Proof.
  destruct (one_record_id tracker (run tracker init three_periods) 0)
    as (recordId & _ & H2 & _ & H4);
    [exists three_periods; reflexivity|].
  exists recordId. split; [exact H2|exact H4].
Defined.

(** X9.  For each session, over any run: at most one creation request
    is sent, [onCreate] is called at most once, and [setInterval] is
    called at most once. *)
Theorem session_starts_once (inst : instance) (w : world) (sid : nat) :
  reachable inst w ->
  count (is_creation sid) w <= 1 /\
  count (is_onCreate sid) w <= 1 /\
  count (is_interval_set sid) w <= 1.
Proof.
  intros Hr. pose proof (reachable_counted inst w Hr) as Hc.
  pose proof (counted_creation w Hc sid). pose proof (counted_onCreate w Hc sid).
  pose proof (counted_interval w Hc sid). lia.
Qed.

Lemma session_starts_once_witness :
  count (is_creation 0) (run tracker init three_periods) <= 1 /\
  count (is_onCreate 0) (run tracker init three_periods) <= 1 /\
  count (is_interval_set 0) (run tracker init three_periods) <= 1.
Proof.
  apply (session_starts_once tracker). exists three_periods. reflexivity.
Defined.

(** X10.  [onUpdate] is called at most once per refresh request: the
    calls made so far and the refreshes still in flight together never
    outnumber the refreshes sent. *)
Theorem onUpdate_answers_a_refresh (inst : instance) (w : world) (sid : nat) :
  reachable inst w ->
  count (is_onUpdate sid) w + length (updating_of sid w) <= count (refresh_of sid) w.
Proof.
  intros Hr. exact (counted_onUpdate w (reachable_counted inst w Hr) sid).
Qed.

Lemma onUpdate_answers_a_refresh_witness :
  count (is_onUpdate 0) (run tracker init visit_refreshing) +
  length (updating_of 0 (run tracker init visit_refreshing)) <=
  count (refresh_of 0) (run tracker init visit_refreshing).
Proof.
  apply (onUpdate_answers_a_refresh tracker). exists visit_refreshing. reflexivity.
Defined.

(** X11.  Refreshes are at least one period apart: a session that set
    its interval at [t0] and has sent [n] refreshes is at least [n]
    periods of 15000 ms past [t0]. *)
Theorem refreshes_keep_pace (inst : instance) (w : world) (sid : nat) (t0 : N) :
  reachable inst w -> started w sid t0 ->
  (t0 + period * N.of_nat (count (refresh_of sid) w) <= now w)%N.
Proof.
  intros Hr Hs. exact (paced_now w (reachable_paced inst w Hr) sid t0 Hs).
Qed.

Lemma refreshes_keep_pace_witness :
  count (refresh_of 0) (run tracker init three_periods) = 3 /\
  (0 + period * N.of_nat (count (refresh_of 0) (run tracker init three_periods)) <=
   now (run tracker init three_periods))%N.
Proof.
  split; [reflexivity|].
  apply (refreshes_keep_pace tracker).
  - exists three_periods. reflexivity.
  - vm_compute. eexists. split; reflexivity.
Defined.

Lemma starts_false_about sid (l : list effect) :
  List.filter (about sid) l = [] -> List.filter (starts sid) l = [].
Proof.
  rewrite !filter_nil_Forall. intros H. eapply Forall_impl; [exact H|].
  intros e He. cbn in He. destruct (starts sid e) eqn:E; [|reflexivity].
  apply starts_about in E. congruence.
Qed.

(** X12.  [updateRecord] of an instance, on an eligible page and with a
    record id other than the sentinel, sends nothing at once: it sets the
    interval, first due one period from now, for that record id.  The
    session never sends a creation request and never calls [onCreate]:
    of the effects that start a session, this [setInterval] is the only
    one in any later log. *)
Theorem resume_sets_interval_at_once
    (inst : instance) (env : browser) (recordId : value) (cbs : callbacks) (w : world) :
  reachable inst w ->
  ineligible (opts inst) env = false ->
  isFakeRecordId recordId = false ->
  let sid := length (sessions w) in
  let w1 := step inst w (Call_updateRecord env recordId cbs) in
  log w1 = log w ++ [IntervalSet sid (next_timer w)] /\
  pending w1 = pending w /\
  timers w1 =
    timers w ++ [{| t_id := next_timer w; t_sid := sid; t_recordId := recordId;
                    t_delay := period; t_due := (now w + period)%N |}] /\
  forall es,
    List.filter (starts sid) (log (run inst w1 es)) = [IntervalSet sid (next_timer w)] /\
    creating_of sid (run inst w1 es) = [].
Proof.
  intros Hr Hel Hf sid w1. apply reachable_inv in Hr.
  assert (Hw1 : w1 = setInterval_world sid recordId period
                       (alloc_session NoCallback (onUpdate cbs) w)).
  { subst w1. cbn [step]. unfold task.
    now rewrite (updateRecord_eligible inst env recordId cbs w Hel Hf). }
  destruct (inv_fresh w sid Hr (Nat.le_refl _)) as (_ & Hc & _ & Ha).
  split; [rewrite Hw1; reflexivity|]. split; [rewrite Hw1; reflexivity|].
  split; [rewrite Hw1; reflexivity|]. intros es.
  destruct (settled_run inst sid es w1) as (Hc' & _ & l & Hl & HF & _).
  - rewrite Hw1. cbn. rewrite length_alter, length_app. cbn. lia.
  - rewrite Hw1. exact Hc.
  - split; [|exact Hc']. rewrite Hl, List.filter_app.
    apply filter_nil_Forall in HF. rewrite HF, app_nil_r.
    rewrite Hw1. cbn [log setInterval_world emit]. rewrite filter_snoc.
    change (log (with_next_timer _ _)) with (log w).
    rewrite (starts_false_about sid _ Ha). cbn. now rewrite Nat.eqb_refl.
Qed.

Lemma resume_sets_interval_at_once_witness :
  log (step tracker init (Call_updateRecord site (VStr "abc123") watching)) =
    [IntervalSet 0 0] /\
  pending (step tracker init (Call_updateRecord site (VStr "abc123") watching)) = [].
Proof.
  destruct (resume_sets_interval_at_once tracker site (VStr "abc123") watching init)
    as (H1 & H2 & _); [exists []; reflexivity|reflexivity|reflexivity|].
  split; [exact H1|exact H2].
Defined.

(** X13.  As long as [stop] is not called on its handle, the interval
    of a session stays, whatever else happens (answers that fail,
    callbacks that throw, other sessions, their [stop]): after any run
    without that call, one period later its tick sends a refresh of the
    same record id to the endpoint, and the interval is due one period
    after that. *)
Theorem heartbeat_goes_on (inst : instance) (w : world) (t : timer) (es : list event) :
  reachable inst w ->
  In t (timers w) ->
  stopped (t_sid t) w = false ->
  Forall (fun e => e <> Call_stop (t_sid t)) es ->
  let w1 := run inst w es in
  let w2 := step inst (step inst w1 (Elapse period)) (Tick (t_id t)) in
  let x := {| x_id := next_xhr w1;
              x_method := "POST";
              x_url := endpoint (server inst);
              x_headers := [("Content-Type", "application/json;charset=UTF-8")];
              x_withCredentials := true;
              x_body := updateRecordBody (t_recordId t);
              x_onload := UpdateNext (t_recordId t)
                            (UpdateCallback (t_sid t) (t_recordId t)) |} in
  log w2 = log w1 ++ [Sent x] /\
  pending w2 = pending w1 ++ [x] /\
  stopped (t_sid t) w2 = false /\
  exists t', In t' (timers w2) /\ t_id t' = t_id t /\ t_sid t' = t_sid t /\
             t_recordId t' = t_recordId t /\ t_due t' = (now w2 + period)%N.
Proof.
  intros Hr Hin Hs HF w1 w2 x.
  destruct (timer_survives_run inst es w t Hr Hin Hs HF)
    as (Hs1 & t1 & Hin1 & Hid & Hsid & Hrec).
  fold w1 in Hs1, Hin1.
  assert (Hr1 : reachable inst w1) by now apply reachable_run.
  pose proof (reachable_timers_ok inst w1 Hr1) as Hok.
  pose proof (reachable_inv inst w1 Hr1) as Hinv.
  set (we := step inst w1 (Elapse period)) in *.
  assert (Hfind : find_timer (t_id t1) we = Some t1)
    by exact (find_timer_unique w1 t1 Hok Hin1).
  assert (Hdue : (t_due t1 <= now we)%N).
  { pose proof (timers_due w1 Hok) as Hd. rewrite List.Forall_forall in Hd.
    exact (Hd _ Hin1). }
  assert (Hse : stopped (t_sid t1) we = false) by (rewrite Hsid; exact Hs1).
  assert (Hdelay : t_delay t1 = period).
  { pose proof (inv_delay w1 Hinv) as Hd. rewrite List.Forall_forall in Hd.
    exact (Hd _ Hin1). }
  assert (Hw2 : w2 = rearm (t_id t1)
            (send_world (endpoint (server inst)) (updateRecordBody (t_recordId t1))
               (UpdateNext (t_recordId t1) (UpdateCallback (t_sid t1) (t_recordId t1)))
               we)).
  { subst w2. rewrite <- Hid. exact (tick_refresh inst we t1 Hfind Hdue Hse). }
  rewrite Hrec, Hsid in Hw2.
  split; [rewrite Hw2; reflexivity|]. split; [rewrite Hw2; reflexivity|].
  split; [rewrite Hw2; exact Hs1|].
  exists (rearmed (now we) (t_id t1) t1). split.
  - rewrite Hw2. cbn. apply in_map. exact Hin1.
  - rewrite rearmed_id, rearmed_sid, rearmed_recordId.
    split; [exact Hid|]. split; [exact Hsid|]. split; [exact Hrec|].
    rewrite Hw2. unfold rearmed. rewrite Nat.eqb_refl. cbn. now rewrite Hdelay.
Qed.

Lemma heartbeat_goes_on_witness :
  let w := run tracker init visit_started in
  let w1 := run tracker w [Call_record site None no_callbacks; Elapse 100] in
  let w2 := step tracker (step tracker w1 (Elapse period)) (Tick 0) in
  exists x, log w2 = log w1 ++ [Sent x] /\ x_body x = updateRecordBody (VStr "abc123").
Proof.
  intros w w1 w2.
  destruct (heartbeat_goes_on tracker w
              {| t_id := 0; t_sid := 0; t_recordId := VStr "abc123";
                 t_delay := period; t_due := 15000 |}
              [Call_record site None no_callbacks; Elapse 100]) as (H & _).
  - exists visit_started. reflexivity.
  - left. reflexivity.
  - reflexivity.
  - repeat constructor; discriminate.
  - eexists. split; [exact H|reflexivity].
Defined.

(** X14.  The first tick after [stop] clears the interval and sends
    nothing; from then on the session has no interval in any future, and
    the refreshes it sent are those it had sent when the tick came. *)
Theorem stop_clears_interval (inst : instance) (w : world) (t : timer) :
  reachable inst w ->
  In t (timers w) ->
  stopped (t_sid t) w = true ->
  (t_due t <= now w)%N ->
  let w1 := step inst w (Tick (t_id t)) in
  log w1 = log w ++ [IntervalCleared (t_id t)] /\
  pending w1 = pending w /\
  forall es,
    timers_of (t_sid t) (run inst w1 es) = [] /\
    refreshes (t_sid t) (run inst w1 es) = refreshes (t_sid t) w.
Proof.
  intros Hr Hin Hs Hdue w1.
  pose proof (reachable_timers_ok inst w Hr) as Hok.
  pose proof (reachable_inv inst w Hr) as Hinv.
  assert (Hw1 : w1 = rearm (t_id t) (clearInterval_world (t_id t) w)).
  { subst w1. apply tick_cleared; [now apply find_timer_unique|exact Hdue|exact Hs]. }
  split; [rewrite Hw1; reflexivity|]. split; [rewrite Hw1; reflexivity|]. intros es.
  assert (Hv : t_sid t < length (sessions w1)).
  { rewrite Hw1. cbn. pose proof (inv_timers_valid w Hinv) as H.
    rewrite List.Forall_forall in H. exact (H _ Hin). }
  assert (Hc : creating_of (t_sid t) w1 = []).
  { rewrite Hw1. exact (timer_not_creating w t Hinv Hin). }
  assert (Ht : timers_of (t_sid t) w1 = []).
  { rewrite Hw1. unfold timers_of. cbn. rewrite filter_rearmed.
    replace (List.filter _ (List.filter _ (timers w))) with (@nil timer); [reflexivity|].
    symmetry. apply filter_nil_Forall, List.Forall_forall. intros t' Ht'.
    apply filter_In in Ht' as [Ht' Hne]. apply negb_true_iff, Nat.eqb_neq in Hne.
    apply Nat.eqb_neq. intros Heq. apply Hne.
    now rewrite (single_timer w t t' Hinv Hin Ht' Heq). }
  destruct (settled_run inst (t_sid t) es w1 Hv Hc) as (_ & Ht' & _).
  split; [now apply Ht'|].
  destruct (stopped_run inst (t_sid t) es w1) as [_ ->].
  - rewrite Hw1. exact Hs.
  - rewrite Hw1. unfold refreshes. cbn. rewrite filter_snoc. cbn. now rewrite app_nil_r.
Qed.

Lemma stop_clears_interval_witness :
  let w := run tracker init (visit_started ++ [Call_stop 0; Elapse 10000]) in
  log (step tracker w (Tick 0)) = log w ++ [IntervalCleared 0] /\
  pending (step tracker w (Tick 0)) = pending w.
Proof.
  intros w.
  destruct (stop_clears_interval tracker w
              {| t_id := 0; t_sid := 0; t_recordId := VStr "abc123";
                 t_delay := period; t_due := 15000 |}) as (H1 & H2 & _).
  - eexists. reflexivity.
  - left. reflexivity.
  - reflexivity.
  - vm_compute. discriminate.
  - split; [exact H1|exact H2].
Defined.

Section DetectProofs.

Variable parse : string -> outcome value.

Lemma record_returns inst env attrs cbs w :
  _record inst env attrs cbs w =
    (Ret (length (sessions w)), step inst w (Call_record env attrs cbs)).
Proof.
  cbn [step]. unfold task. destruct (ineligible (opts inst) env) eqn:Hel.
  - destruct (record_ineligible inst env attrs cbs w Hel) as (msg & ->). reflexivity.
  - now rewrite (record_eligible inst env attrs cbs w Hel).
Qed.

Lemma detect_cases el env w :
  match parse (attribute_or (data_ackee_opts el) "{}") with
  | Throw e => detect parse (Some el) env w = (Throw e, w)
  | Ret VNull => detect parse (Some el) env w = (Throw TypeError, w)
  | Ret v =>
      exists o,
        validate v = Ret o /\
        detect parse (Some el) env w =
          (Ret tt,
           step {| server := attribute_or (data_ackee_server el) "";
                   domainId := VStr (data_ackee_domain_id el);
                   opts := o |} w (Call_record env None no_callbacks))
  end.
Proof.
  unfold detect, bind, lift.
  destruct (parse (attribute_or (data_ackee_opts el) "{}")) as [v|e]; [|reflexivity].
  assert (Hv : v <> VNull ->
    exists o, validate v = Ret o /\
      (let (o0, w') := (create (attribute_or (data_ackee_server el) "")
                          (VStr (data_ackee_domain_id el)) v, w) in
       match o0 with
       | Ret a =>
           let (o1, w'0) := _record a env None no_callbacks w' in
           match o1 with
           | Ret _ => ret tt w'0
           | Throw e => (Throw e, w'0)
           end
       | Throw e => (Throw e, w')
       end) =
      (Ret tt,
       step {| server := attribute_or (data_ackee_server el) "";
               domainId := VStr (data_ackee_domain_id el);
               opts := o |} w (Call_record env None no_callbacks))).
  { intros Hn. eexists. split; [exact (validate_not_null v Hn)|].
    unfold create. rewrite (validate_not_null v Hn). cbn [obind].
    now rewrite record_returns. }
  destruct v; try (apply Hv; discriminate). reflexivity.
Qed.

End DetectProofs.

(** ** The answer to a creation, and [detect] *)

Section Created.

Variable inst : instance.

Lemma load_created xid x sid status parsed json id w :
  find_xhr xid w = Some x -> x_onload x = RecordNext (RecordCallback sid) ->
  accepted status parsed json -> created_id json = Ret id ->
  isFakeRecordId id = false ->
  step inst w (Load xid status parsed) =
    match callback_outcome (session_onCreate sid w) id with
    | Returns =>
        setInterval_world sid id period
          (emit (Called_onCreate sid id) (drop_xhr xid w))
    | Throws e =>
        emit (Uncaught e) (emit (Called_onCreate sid id) (drop_xhr xid w))
    end.
Proof.
  intros Hfind Hk Hacc Hid Hfake. cbn [step]. rewrite Hfind. unfold task.
  rewrite (xhr_onload_accepted _ _ _ _ _ Hacc), Hk.
  unfold apply_json_kont, bind, lift. rewrite Hid. cbn [apply_id_kont].
  rewrite Hfake. unfold bind, call, act, ret, throw, setInterval.
  change (session_onCreate sid (drop_xhr xid w)) with (session_onCreate sid w).
  destruct (session_onCreate sid w) as [|body]; cbn [callback_outcome]; [reflexivity|].
  destruct (body id); reflexivity.
Qed.

(** X15.  When the creation request is answered with a record id other
    than the sentinel and [onCreate] returns (or is not given), the
    handler calls [onCreate] with that id and then sets the interval of
    the session, first due one period from now and holding that id; it
    is the only interval of the session, and the flag of [stop] is not
    touched. *)
Theorem created_record_starts_heartbeat
    (w : world) (xid : nat) (x : xhr) (sid : nat)
    (status : Z) (parsed : option value) (json id : value) :
  reachable inst w ->
  find_xhr xid w = Some x ->
  x_onload x = RecordNext (RecordCallback sid) ->
  accepted status parsed json ->
  created_id json = Ret id ->
  isFakeRecordId id = false ->
  callback_outcome (session_onCreate sid w) id = Returns ->
  let w1 := step inst w (Load xid status parsed) in
  log w1 = log w ++ [Called_onCreate sid id; IntervalSet sid (next_timer w)] /\
  timers w1 =
    timers w ++ [{| t_id := next_timer w; t_sid := sid; t_recordId := id;
                    t_delay := period; t_due := (now w + period)%N |}] /\
  timers_of sid w1 =
    [{| t_id := next_timer w; t_sid := sid; t_recordId := id;
        t_delay := period; t_due := (now w + period)%N |}] /\
  pending w1 = pending (drop_xhr xid w) /\
  stopped sid w1 = stopped sid w.
Proof.
  intros Hr Hfind Hk Hacc Hid Hfake Hret w1. apply reachable_inv in Hr.
  destruct (creation_dropped xid x sid w Hr Hfind Hk) as (Hv & (Ht & _) & _).
  subst w1. rewrite (load_created xid x sid status parsed json id w Hfind Hk Hacc Hid Hfake).
  rewrite Hret. split; [cbn; now rewrite <- app_assoc|]. split; [reflexivity|].
  split; [|split; [reflexivity|now rewrite stopped_setInterval]].
  unfold timers_of in *. cbn in Ht |- *. rewrite filter_snoc, Ht. cbn.
  now rewrite Nat.eqb_refl.
Qed.

(** X16.  When [onCreate] throws, the exception escapes the load
    handler after the call and [setInterval] is not reached: the session
    never has an interval and never sends a refresh, in any future. *)
Theorem throwing_onCreate_never_starts
    (w : world) (xid : nat) (x : xhr) (sid : nat)
    (status : Z) (parsed : option value) (json id : value) (e : exn) :
  reachable inst w ->
  find_xhr xid w = Some x ->
  x_onload x = RecordNext (RecordCallback sid) ->
  accepted status parsed json ->
  created_id json = Ret id ->
  isFakeRecordId id = false ->
  callback_outcome (session_onCreate sid w) id = Throws e ->
  let w1 := step inst w (Load xid status parsed) in
  log w1 = log w ++ [Called_onCreate sid id; Uncaught e] /\
  timers w1 = timers w /\
  forall es,
    timers_of sid (run inst w1 es) = [] /\
    refreshes sid (run inst w1 es) = [] /\
    count (is_interval_set sid) (run inst w1 es) = 0.
Proof.
  intros Hr Hfind Hk Hacc Hid Hfake Hthrow w1. apply reachable_inv in Hr.
  destruct (creation_dropped xid x sid w Hr Hfind Hk) as (Hv & (Ht & Hc & _) & Ha).
  assert (Hw1 : w1 = emit (Uncaught e) (emit (Called_onCreate sid id) (drop_xhr xid w))).
  { subst w1.
    rewrite (load_created xid x sid status parsed json id w Hfind Hk Hacc Hid Hfake).
    now rewrite Hthrow. }
  split; [rewrite Hw1; cbn; now rewrite <- app_assoc|]. split; [rewrite Hw1; reflexivity|].
  intros es.
  destruct (settled_run inst sid es w1) as (_ & Ht' & l & Hl & HS & HR).
  - rewrite Hw1. exact Hv.
  - rewrite Hw1. exact Hc.
  - assert (Ht1 : timers_of sid w1 = []) by (rewrite Hw1; exact Ht).
    specialize (Ht' Ht1). specialize (HR Ht1).
    assert (Hlog : log w1 = log w ++ [Called_onCreate sid id; Uncaught e])
      by (rewrite Hw1; cbn; now rewrite <- app_assoc).
    assert (Hact : Forall (fun e0 => activity sid e0 = false) (log w))
      by now apply filter_nil_Forall.
    split; [exact Ht'|]. split.
    + unfold refreshes. rewrite Hl, Hlog, !List.filter_app.
      apply filter_nil_Forall in HR. rewrite HR. cbn. rewrite !app_nil_r.
      apply filter_nil_Forall. eapply Forall_impl; [exact Hact|].
      intros [| | | | | |]; cbn; auto.
    + unfold count. rewrite Hl, Hlog, !List.filter_app, !length_app.
      replace (List.filter (is_interval_set sid) l) with (@nil effect).
      * replace (List.filter (is_interval_set sid) (log w)) with (@nil effect);
          [reflexivity|].
        symmetry. apply filter_nil_Forall. eapply Forall_impl; [exact Hact|].
        intros [| | | | | |]; cbn; auto.
      * symmetry. apply filter_nil_Forall. eapply Forall_impl; [exact HS|].
        intros [| | | | | |]; cbn; auto.
Qed.

End Created.

Lemma created_record_starts_heartbeat_witness :
  let w := run tracker init [Call_record site None watching] in
  log (step tracker w (Load 0 200 (Some (created "abc123")))) =
    log w ++ [Called_onCreate 0 (VStr "abc123"); IntervalSet 0 0].
Proof.
  intros w.
  destruct (created_record_starts_heartbeat tracker w 0 first_request 0 200
              (Some (created "abc123")) (created "abc123") (VStr "abc123")) as (H & _).
  - exists [Call_record site None watching]. reflexivity.
  - reflexivity.
  - reflexivity.
  - split; [reflexivity|]. split; [reflexivity|].
    exists VUndefined. split; reflexivity.
  - reflexivity.
  - reflexivity.
  - reflexivity.
  - exact H.
Defined.

Lemma throwing_onCreate_never_starts_witness :
  let w := run tracker init [Call_record site None failing] in
  let w1 := step tracker w (Load 0 200 (Some (created "abc123"))) in
  log w1 = log w ++ [Called_onCreate 0 (VStr "abc123");
                     Uncaught (JsError (VStr "page error"))] /\
  forall es, refreshes 0 (run tracker w1 es) = [].
Proof.
  intros w w1.
  destruct (throwing_onCreate_never_starts tracker w 0 first_request 0 200
              (Some (created "abc123")) (created "abc123") (VStr "abc123")
              (JsError (VStr "page error"))) as (H1 & _ & H2).
  - exists [Call_record site None failing]. reflexivity.
  - reflexivity.
  - reflexivity.
  - split; [reflexivity|]. split; [reflexivity|].
    exists VUndefined. split; reflexivity.
  - reflexivity.
  - reflexivity.
  - reflexivity.
  - split; [exact H1|]. intros es. apply H2.
Defined.

Section DetectTheorems.

Variable parse : string -> outcome value.

(** X17.  On an element that is found, [detect] throws exactly when
    [JSON.parse] throws on the text of [data-ackee-opts] (the exception
    is the parser's) or gives [null] (a [TypeError], from [validate]);
    nothing has been done then.  In every other case it returns. *)
Theorem detect_fails_loudly (el : element) (env : browser) (w : world) (e : exn) :
  let text := attribute_or (data_ackee_opts el) "{}" in
  (fst (detect parse (Some el) env w) = Throw e <->
   parse text = Throw e \/ (parse text = Ret VNull /\ e = TypeError)) /\
  (fst (detect parse (Some el) env w) = Throw e ->
   snd (detect parse (Some el) env w) = w) /\
  (fst (detect parse (Some el) env w) = Ret tt <->
   exists v, parse text = Ret v /\ v <> VNull).
Proof.
  intros text. pose proof (detect_cases parse el env w) as H. fold text in H.
  destruct (parse text) as [v|e'].
  - destruct v;
      try (destruct H as (o & _ & ->); cbn [fst snd];
           split; [split; [discriminate|intros [?|[? _]]; congruence]|];
           split; [discriminate|]; split; [eexists; split; [reflexivity|discriminate]|reflexivity]).
    rewrite H. cbn [fst snd]. split; [|split; [reflexivity|]].
    + split; [intros [= <-]; right; auto|intros [?|[_ ->]]; congruence].
    + split; [discriminate|]. intros (v & [= <-] & Hn). congruence.
  - rewrite H. cbn [fst snd]. split; [|split; [reflexivity|]].
    + split; [intros [= <-]; left; reflexivity|intros [[= ->]|[? _]]; [reflexivity|discriminate]].
    + split; [discriminate|]. intros (v & ? & _). discriminate.
Qed.

(** X18.  On an element without options (the attribute is missing,
    empty, or the text of the empty object), [detect] returns, sets no
    interval, and behaves as an instance with the default options: on
    an ineligible page it only warns; otherwise it sends one POST to the
    endpoint of [data-ackee-server], which is [/api] when that attribute
    is missing, with the domain id, the location and the referrer and
    nothing more. *)
Theorem detect_defaults (el : element) (env : browser) (w : world) :
  parse "{}" = Ret (VObj []) ->
  attribute_or (data_ackee_opts el) "{}" = "{}" ->
  let w1 := snd (detect parse (Some el) env w) in
  fst (detect parse (Some el) env w) = Ret tt /\
  timers w1 = timers w /\
  if ineligible {| detailed := false; ignoreLocalhost := true |} env then
    (exists msg, log w1 = log w ++ [Warn msg]) /\ pending w1 = pending w
  else
    exists x,
      log w1 = log w ++ [Sent x] /\
      pending w1 = pending w ++ [x] /\
      x_method x = "POST" /\
      x_url x = endpoint (attribute_or (data_ackee_server el) "") /\
      (data_ackee_server el = None -> x_url x = "/api") /\
      x_body x =
        createRecordBody (VStr (data_ackee_domain_id el))
          (VObj [("siteLocation", VStr (href env)); ("siteReferrer", VStr (referrer env))]).
Proof.
  intros Hp Ht w1. pose proof (detect_cases parse el env w) as H.
  rewrite Ht, Hp in H. destruct H as (o & Ho & H). injection Ho as <-.
  subst w1. rewrite H. cbn [fst snd step]. unfold task.
  split; [reflexivity|].
  set (inst := {| server := attribute_or (data_ackee_server el) "";
                  domainId := VStr (data_ackee_domain_id el);
                  opts := {| detailed := false; ignoreLocalhost := true |} |}).
  change {| detailed := false; ignoreLocalhost := true |} with (opts inst).
  destruct (ineligible (opts inst) env) eqn:Hel.
  - destruct (record_ineligible inst env None no_callbacks w Hel) as (msg & ->).
    split; [reflexivity|]. split; [now exists msg|reflexivity].
  - rewrite (record_eligible inst env None no_callbacks w Hel).
    split; [reflexivity|]. eexists. split; [reflexivity|]. split; [reflexivity|].
    split; [reflexivity|]. split; [reflexivity|]. split; [|reflexivity].
    intros Hs. cbn. rewrite Hs. reflexivity.
Qed.

End DetectTheorems.

Lemma detect_fails_loudly_witness :
  fst (detect parse_example (Some null_element) site init) = Throw TypeError /\
  snd (detect parse_example (Some null_element) site init) = init.
Proof.
  destruct (detect_fails_loudly parse_example null_element site init TypeError)
    as ([_ H1] & H2 & _).
  assert (H : fst (detect parse_example (Some null_element) site init) = Throw TypeError)
    by (apply H1; right; split; reflexivity).
  split; [exact H|exact (H2 H)].
Defined.

Lemma detect_defaults_witness :
  exists x,
    log (snd (detect parse_example (Some bare_element) site init)) = [Sent x] /\
    x_url x = "/api".
Proof.
  destruct (detect_defaults parse_example bare_element site init) as (_ & _ & H);
    [reflexivity|reflexivity|].
  destruct H as (x & Hl & _ & _ & _ & Hu & _).
  exists x. split; [exact Hl|]. apply Hu. reflexivity.
Defined.
